(** * pa11y action runner (lib/action.js): embedding and verification

    The module exports [runAction], [isValidAction] and the ordered list
    [actions] of built-in action definitions.  Every action definition
    carries a JavaScript regular expression ([match]) and an asynchronous
    handler ([run]).  The development has three layers:

    - JavaScript strings and the part of the ECMAScript regular expression
      semantics (backtracking matcher with continuations, capture groups,
      greedy quantifiers, the [i] flag) that the patterns of the module
      exercise;
    - the asynchronous code of the module as a state-and-error monad over
      an abstract world, with the Puppeteer page and the logger as injected
      records of capabilities;
    - a recording page in the manner of the unit tests' stubs, which keeps
      the list of calls it received.

    The second part proves that the bound on the iterations of the
    quantifiers never cuts a match short, relates a successful match to the
    shape of the input and of the match array, and states the behaviour of
    the dispatcher and of the four built-in actions. *)

From Stdlib Require Import String Ascii List Bool Arith NArith Lia.
Import ListNotations.

Set Implicit Arguments.

(* ================================================================== *)
(** ** JavaScript strings *)
(* ================================================================== *)

(** A JavaScript string is a sequence of UTF-16 code units. *)
Definition CodeUnit := N.
Definition Str := list CodeUnit.

(** [lit] turns an ASCII literal into a JavaScript string. *)
Definition lit (s : string) : Str := map N_of_ascii (list_ascii_of_string s).

(** The double quote character, U+0022. *)
Definition dquote : Str := [34%N].

Fixpoint Str_eqb (a b : Str) : bool :=
  match a, b with
  | [], [] => true
  | x :: a', y :: b' => N.eqb x y && Str_eqb a' b'
  | _, _ => false
  end.

(** A value that is either a string or [undefined]: the elements of a match
    array, and what the handlers read out of it. *)
Definition JsVal := option Str.
Definition undefined : JsVal := None.

(** Strict equality [===] between two such values. *)
Definition strictEq (a b : JsVal) : bool :=
  match a, b with
  | None, None => true
  | Some x, Some y => Str_eqb x y
  | _, _ => false
  end.

(** String conversion as performed by a template literal [`${v}`]. *)
Definition ToString (v : JsVal) : Str :=
  match v with
  | Some s => s
  | None => lit "undefined"
  end.

(** [S.substring(from, to)] for [from <= to]. *)
Definition substring (s : Str) (from to : nat) : Str :=
  firstn (to - from) (skipn from s).

(* ================================================================== *)
(** ** Regular expressions (ECMAScript, non-unicode mode) *)
(* ================================================================== *)

(** The Unicode upper-casing of a single non-ASCII code unit is a table of
    the runtime; it is a parameter of the matcher.  The ASCII range is
    fixed below. *)
Class UnicodeData := { unicodeUpper : CodeUnit -> Str }.

Module RegExp.

(** Abstract syntax of the patterns.  [Group n r] is the capturing
    parenthesis whose left parenthesis is the [n]-th of the pattern,
    counted from 1. *)
Inductive Pattern : Type :=
| Empty
| Char (c : CodeUnit)
| Dot
| AssertStart
| AssertEnd
| Seq (r1 r2 : Pattern)
| Alt (r1 r2 : Pattern)
| Group (n : nat) (r : Pattern)
| Opt (r : Pattern)
| Star (r : Pattern)
| Plus (r : Pattern).

(** A regular expression object without the [g] and [y] flags. *)
Record RegExp := mkRegExp { source : Pattern; ignoreCase : bool }.

(** The literal characters of [s] in sequence. *)
Fixpoint chars (s : list ascii) : Pattern :=
  match s with
  | [] => Empty
  | [a] => Char (N_of_ascii a)
  | a :: s' => Seq (Char (N_of_ascii a)) (chars s')
  end.
Definition str (s : string) : Pattern := chars (list_ascii_of_string s).

(** A sequence of terms. *)
Fixpoint seq (rs : list Pattern) : Pattern :=
  match rs with
  | [] => Empty
  | [r] => r
  | r :: rs' => Seq r (seq rs')
  end.

(** The capture indices inside a pattern, left to right. *)
Fixpoint parens (r : Pattern) : list nat :=
  match r with
  | Empty | Char _ | Dot | AssertStart | AssertEnd => []
  | Seq r1 r2 | Alt r1 r2 => parens r1 ++ parens r2
  | Group n r => n :: parens r
  | Opt r | Star r | Plus r => parens r
  end.

(** Number of capturing parentheses. *)
Definition NcapturingParens (r : Pattern) : nat := length (parens r).

(** The groups are numbered 1, 2, ... in the order of their left
    parentheses. *)
Definition well_numbered (r : Pattern) : bool :=
  if list_eq_dec Nat.eq_dec (parens r) (List.seq 1 (NcapturingParens r))
  then true else false.

(** State of the matcher: the index reached in the input and the captures
    (slot 0 is unused, slot [n] belongs to group [n]). *)
Record MatchState := mkState { endIndex : nat; captures : list JsVal }.

Definition MatchResult := option MatchState.
Definition Continuation := MatchState -> MatchResult.

Fixpoint set_nth {A} (n : nat) (v : A) (l : list A) : list A :=
  match n, l with
  | _, [] => []
  | O, _ :: l' => v :: l'
  | S n', a :: l' => a :: set_nth n' v l'
  end.

Definition clear (ks : list nat) (cap : list JsVal) : list JsVal :=
  fold_left (fun c k => set_nth k undefined c) ks cap.

Definition isLineTerminator (c : CodeUnit) : bool :=
  (N.eqb c 10 || N.eqb c 13 || N.eqb c 8232 || N.eqb c 8233)%bool.

Definition asciiUpper (c : CodeUnit) : CodeUnit :=
  if (N.leb 97 c && N.leb c 122)%bool then (c - 32)%N else c.

Section Matcher.
Context {U : UnicodeData}.

Definition toUpperCase1 (ch : CodeUnit) : Str :=
  if N.ltb ch 128 then [asciiUpper ch] else unicodeUpper ch.

(** Canonicalize of the specification, for patterns without the [u]
    flag. *)
Definition Canonicalize (ignoreCase : bool) (ch : CodeUnit) : CodeUnit :=
  if ignoreCase then
    match toUpperCase1 ch with
    | [cu] => if (N.leb 128 ch && N.ltb cu 128)%bool then ch else cu
    | _ => ch
    end
  else ch.

Variable icase : bool.
Variable Input : Str.

Definition InputLength : nat := length Input.

(** One character of the input, accepted when [A] holds of it. *)
Definition CharacterSetMatcher (A : CodeUnit -> bool)
    (x : MatchState) (c : Continuation) : MatchResult :=
  match nth_error Input (endIndex x) with
  | None => None
  | Some ch =>
      if A ch then c (mkState (S (endIndex x)) (captures x)) else None
  end.

(** The greedy loop of RepeatMatcher with [min = 0] and no upper bound.
    An iteration starts with the captures of the atom cleared, and an
    iteration that matches the empty string is refused.  [fuel] bounds
    the number of iterations; [InputLength - endIndex x] is enough since
    each one consumes a character ([RepeatLoop_fuel] below). *)
Fixpoint RepeatLoop (m : MatchState -> Continuation -> MatchResult)
    (ks : list nat) (c : Continuation) (fuel : nat) (x : MatchState)
    : MatchResult :=
  match fuel with
  | O => c x
  | S fuel' =>
      let xr := mkState (endIndex x) (clear ks (captures x)) in
      let d := fun y =>
        if Nat.eqb (endIndex y) (endIndex x) then None
        else RepeatLoop m ks c fuel' y in
      match m xr d with
      | Some z => Some z
      | None => c x
      end
  end.

(** The matcher of a pattern, in continuation-passing style. *)
Fixpoint compile (r : Pattern) (x : MatchState) (c : Continuation)
    {struct r} : MatchResult :=
  match r with
  | Empty => c x
  | Char a =>
      CharacterSetMatcher
        (fun ch => N.eqb (Canonicalize icase ch) (Canonicalize icase a)) x c
  | Dot =>
      (* any character but a line terminator, with or without the [i] flag *)
      CharacterSetMatcher (fun ch => negb (isLineTerminator ch)) x c
  | AssertStart => if Nat.eqb (endIndex x) 0 then c x else None
  | AssertEnd => if Nat.eqb (endIndex x) InputLength then c x else None
  | Seq r1 r2 => compile r1 x (fun y => compile r2 y c)
  | Alt r1 r2 =>
      match compile r1 x c with
      | Some z => Some z
      | None => compile r2 x c
      end
  | Group n r1 =>
      compile r1 x (fun y =>
        let s := substring Input (endIndex x) (endIndex y) in
        c (mkState (endIndex y) (set_nth n (Some s) (captures y))))
  | Opt r1 =>
      let xr := mkState (endIndex x) (clear (parens r1) (captures x)) in
      let d := fun y =>
        if Nat.eqb (endIndex y) (endIndex x) then None else c y in
      match compile r1 xr d with
      | Some z => Some z
      | None => c x
      end
  | Star r1 =>
      RepeatLoop (compile r1) (parens r1) c (InputLength - endIndex x) x
  | Plus r1 =>
      let xr := mkState (endIndex x) (clear (parens r1) (captures x)) in
      compile r1 xr (fun y =>
        RepeatLoop (compile r1) (parens r1) c (InputLength - endIndex y) y)
  end.

(** The matcher of the whole pattern, started at [index]. *)
Definition matcher (r : Pattern) (index : nat) : MatchResult :=
  compile r (mkState index (repeat undefined (S (NcapturingParens r))))
          (fun y => Some y).

(** The loop of RegExpBuiltinExec for a pattern that is neither global
    nor sticky: the start index runs from 0 to the length of the input. *)
Fixpoint scan (r : Pattern) (lastIndex fuel : nat)
    : option (nat * MatchState) :=
  match fuel with
  | O => None
  | S fuel' =>
      match matcher r lastIndex with
      | Some y => Some (lastIndex, y)
      | None => scan r (S lastIndex) fuel'
      end
  end.

End Matcher.

Section Exec.
Context {U : UnicodeData}.

(** [R.exec(S)]: the match array (whole match, then one slot per group),
    or [None] for [null]. *)
Definition exec (R : RegExp) (S : Str) : option (list JsVal) :=
  match scan (ignoreCase R) S (source R) 0 (1 + length S) with
  | None => None
  | Some (i, y) =>
      Some (Some (substring S i (endIndex y)) :: tl (captures y))
  end.

(** [R.test(S)]. *)
Definition test (R : RegExp) (S : Str) : bool :=
  match exec R S with
  | Some _ => true
  | None => false
  end.

End Exec.

End RegExp.

(** [S.match(R)] for a regular expression without the [g] flag. *)
Definition String_match {U : UnicodeData} (S : Str) (R : RegExp.RegExp)
  : option (list JsVal) := RegExp.exec R S.

(* ================================================================== *)
(** ** The patterns of the built-in actions *)
(* ================================================================== *)

Module Patterns.
Import RegExp.

(** [/^click( element)? (.+)$/i] *)
Definition click_element : RegExp :=
  mkRegExp
    (seq [AssertStart; str "click"; Opt (Group 1 (str " element"));
          str " "; Group 2 (Plus Dot); AssertEnd])
    true.

(** [/^set( field)? (.+) to (.+)$/i] *)
Definition set_field_value : RegExp :=
  mkRegExp
    (seq [AssertStart; str "set"; Opt (Group 1 (str " field"));
          str " "; Group 2 (Plus Dot); str " to "; Group 3 (Plus Dot);
          AssertEnd])
    true.

(** [/^(check|uncheck)( field)? (.+)$/i] *)
Definition check_field : RegExp :=
  mkRegExp
    (seq [AssertStart; Group 1 (Alt (str "check") (str "uncheck"));
          Opt (Group 2 (str " field")); str " "; Group 3 (Plus Dot);
          AssertEnd])
    true.

(** [/^wait for (fragment|hash|path|url)( to (not )?be)? (.+)$/i] *)
Definition wait_for_url : RegExp :=
  mkRegExp
    (seq [AssertStart; str "wait for ";
          Group 1 (Alt (str "fragment")
                     (Alt (str "hash") (Alt (str "path") (str "url"))));
          Opt (Group 2 (seq [str " to "; Opt (Group 3 (str "not "));
                             str "be"]));
          str " "; Group 4 (Plus Dot); AssertEnd])
    true.

End Patterns.

(* ================================================================== *)
(** ** Asynchronous code over an injected page *)
(* ================================================================== *)

(** The options object passed as second argument of [page.waitForFunction];
    the module always passes the empty object. *)
Record WaitOptions := { polling : option Str; timeout : option N }.
Definition emptyObject : WaitOptions := {| polling := None; timeout := None |}.

(** What the in-page functions see: the element a selector designates,
    if any, and the [checked] property of each element.  What a browser
    does besides (a selector that is not valid makes [querySelector]
    throw; checking a radio input unchecks the others of its group) is
    not part of the module and is not modelled: the properties below say
    nothing about elements other than the target. *)
Record Document := {
  querySelector : JsVal -> option nat;
  checked : nat -> bool
}.
Record Window := { location : Str -> JsVal }.

(** [target.checked = v], as a write to that one property. *)
Definition set_checked (document : Document) (target : nat) (v : bool)
  : Document :=
  {| querySelector := querySelector document;
     checked := fun t => if Nat.eqb t target then v else checked document t |}.

Section Async.
(** [W] is the state of everything outside the module (browser, page,
    log sink); [E] is the type of the values the injected capabilities
    reject with. *)
Variables W E : Type.

(** The values a promise of the module can be rejected with. *)
Inductive Thrown : Type :=
| Error_ (message : Str)      (* [new Error(message)], made in this module *)
| TypeError_                  (* property read on [null] *)
| Raised (e : E).             (* a value coming from outside *)

Inductive Outcome (A : Type) : Type :=
| Resolved (a : A)
| Rejected (e : Thrown).
Arguments Rejected {A} e.

(** An asynchronous computation, run to completion. *)
Definition Async (A : Type) : Type := W -> Outcome A * W.

Definition resolve {A} (a : A) : Async A := fun w => (Resolved a, w).
Definition throw {A} (e : Thrown) : Async A := fun w => (Rejected e, w).

Definition await {A B} (p : Async A) (k : A -> Async B) : Async B :=
  fun w =>
    match p w with
    | (Resolved a, w') => k a w'
    | (Rejected e, w') => (Rejected e, w')
    end.

Definition try_catch {A} (body : Async A) (handler : Thrown -> Async A)
  : Async A :=
  fun w =>
    match body w with
    | (Resolved a, w') => (Resolved a, w')
    | (Rejected e, w') => handler e w'
    end.

(** A capability of the page: it changes the world and settles, either
    fulfilled ([None]) or rejected with some value. *)
Definition Capability : Type := W -> option E * W.

Definition call (cap : Capability) : Async unit :=
  fun w =>
    match cap w with
    | (None, w') => (Resolved tt, w')
    | (Some e, w') => (Rejected (Raised e), w')
    end.

(** The Puppeteer page, as far as the module uses it. *)
Record Page := {
  click : JsVal -> Capability;
  focus : JsVal -> Capability;
  type : JsVal -> Capability;
  evaluate :
    (JsVal -> bool -> Document -> Outcome unit * Document) ->
    JsVal -> bool -> Capability;
  waitForFunction :
    (Str -> JsVal -> bool -> Window -> bool) ->
    WaitOptions -> Str -> JsVal -> bool -> Capability
}.

(** [options.log.debug], a sink: it takes the message and returns. *)
Record Options := { log_debug : Str -> W -> W }.

Definition debug (options : Options) (message : Str) : Async unit :=
  fun w => (Resolved tt, log_debug options message w).

End Async.

Arguments Error_ {E} message.
Arguments TypeError_ {E}.
Arguments Raised {E} e.
Arguments Resolved {E A} a.
Arguments Rejected {E A} e.
Arguments resolve {W E A} a.
Arguments throw {W E A} e.
Arguments await {W E A B} p k.
Arguments try_catch {W E A} body handler.
Arguments call {W E} cap.
Arguments debug {W E} options message.

Declare Scope async_scope.
Delimit Scope async_scope with async.
Notation "x <- p ;; k" := (await p (fun x => k))
  (at level 61, p at next level, right associativity) : async_scope.
Notation "p ;; k" := (await p (fun _ => k))
  (at level 61, right associativity) : async_scope.
Open Scope async_scope.

(* ================================================================== *)
(** ** lib/action.js *)
(* ================================================================== *)

(** The template literals of [runAction]:
    [`Failed action: "${actionString}" cannot be resolved`],
    [`Running action: ${actionString}`], and the completion message, whose
    check mark is U+2714 followed by the variation selector U+FE0E. *)
Definition unresolved_message (actionString : Str) : Str :=
  lit "Failed action: " ++ dquote ++ actionString ++ dquote
    ++ lit " cannot be resolved".
Definition running_message (actionString : Str) : Str :=
  lit "Running action: " ++ actionString.
Definition complete_message : Str :=
  lit "  " ++ [10004%N; 65038%N] ++ lit " action complete".

Section Action.
Context {U : UnicodeData}.
Variables W E Browser : Type.

(** The fourth argument of a handler: the result of [String.match],
    [None] standing for [null]. *)
Definition Matches := option (list JsVal).

(** [matches[i]]. *)
Definition index (matches : Matches) (i : nat) : Async W E JsVal :=
  match matches with
  | None => throw TypeError_
  | Some m => resolve (nth i m undefined)
  end.

Record Action := {
  name : Str;
  match_ : RegExp.RegExp;
  run : Browser -> Page W E -> Options W -> Matches -> Async W E unit
}.

(** [runAction]; the list [module.exports.actions] is an argument. *)
Definition runAction (actions : list Action) (browser : Browser)
    (page : Page W E) (options : Options W) (actionString : Str)
  : Async W E unit :=
  match find (fun foundAction =>
                RegExp.test (match_ foundAction) actionString) actions with
  | None => throw (Error_ (unresolved_message actionString))
  | Some action =>
      debug options (running_message actionString) ;;
      run action browser page options
          (String_match actionString (match_ action)) ;;
      debug options complete_message
  end.

Definition isValidAction (actions : list Action) (actionString : Str)
  : bool :=
  existsb (fun foundAction =>
             RegExp.test (match_ foundAction) actionString) actions.

(** The message of the error the first three actions throw:
    [`Failed action: no element matching selector "${selector}"`]. *)
Definition no_element (selector : JsVal) : Str :=
  lit "Failed action: no element matching selector " ++ dquote
    ++ ToString selector ++ dquote.

(** Action to click an element. *)
Definition click_element : Action :=
  {| name := lit "click-element";
     match_ := Patterns.click_element;
     run := fun browser page options matches =>
       selector <- index matches 2 ;;
       try_catch
         (call (click page selector))
         (fun error => throw (Error_ (no_element selector))) |}.

(** Action to set an input field value. *)
Definition set_field_value : Action :=
  {| name := lit "set-field-value";
     match_ := Patterns.set_field_value;
     run := fun browser page options matches =>
       selector <- index matches 2 ;;
       value <- index matches 3 ;;
       try_catch
         (call (focus page selector) ;;
          call (type page value))
         (fun error => throw (Error_ (no_element selector))) |}.

(** The function the check-field action evaluates in the page. *)
Definition check_field_in_page (selector : JsVal) (checked : bool)
    (document : Document) : Outcome E unit * Document :=
  match querySelector document selector with
  | None => (Rejected (Error_ (lit "No element found")), document)
  | Some target => (Resolved tt, set_checked document target checked)
  end.

(** Action to check or uncheck a checkbox/radio input. *)
Definition check_field : Action :=
  {| name := lit "check-field";
     match_ := Patterns.check_field;
     run := fun browser page options matches =>
       m1 <- index matches 1 ;;
       let checked := negb (strictEq m1 (Some (lit "uncheck"))) in
       selector <- index matches 3 ;;
       try_catch
         (call (evaluate page check_field_in_page selector checked))
         (fun error => throw (Error_ (no_element selector))) |}.

(** The [switch] of the wait-for-url action. *)
Definition location_property (subject : JsVal) : Str :=
  if strictEq subject (Some (lit "fragment")) then lit "hash"
  else if strictEq subject (Some (lit "hash")) then lit "hash"
  else if strictEq subject (Some (lit "path")) then lit "pathname"
  else lit "href".

(** The function the wait-for-url action polls in the page. *)
Definition wait_for_url_in_page (property : Str) (expectedValue : JsVal)
    (negated : bool) (window : Window) : bool :=
  if negated then negb (strictEq (location window property) expectedValue)
  else strictEq (location window property) expectedValue.

(** Action which waits for the URL, path, or fragment to change to the
    given value. *)
Definition wait_for_url : Action :=
  {| name := lit "wait-for-url";
     match_ := Patterns.wait_for_url;
     run := fun browser page options matches =>
       expectedValue <- index matches 4 ;;
       m3 <- index matches 3 ;;
       let negated := negb (strictEq m3 undefined) in
       subject <- index matches 1 ;;
       let property := location_property subject in
       call (waitForFunction page wait_for_url_in_page emptyObject
               property expectedValue negated) |}.

(** [module.exports.actions] as the module defines it. *)
Definition actions : list Action :=
  [click_element; set_field_value; check_field; wait_for_url].

End Action.

Arguments index {W E} matches i.
Arguments click_element {W E Browser}.
Arguments set_field_value {W E Browser}.
Arguments check_field {W E Browser}.
Arguments wait_for_url {W E Browser}.
Arguments check_field_in_page {E} selector checked document.
Arguments actions {W E Browser}.

(* ================================================================== *)
(** ** A recording page *)
(* ================================================================== *)

(** The unit tests replace the page, the logger and the handlers by stubs
    that record every call and settle as configured.  Here the world is
    the list of calls received so far, oldest first, and a [script] decides
    from that list and the call at hand whether the call is rejected. *)
Section Recording.
Context {U : UnicodeData}.
Variables E Browser : Type.

Inductive Call : Type :=
| CallClick (selector : JsVal)
| CallFocus (selector : JsVal)
| CallType (text : JsVal)
| CallEvaluate
    (pageFunction : JsVal -> bool -> Document -> Outcome E unit * Document)
    (selector : JsVal) (checked : bool)
| CallWaitForFunction
    (pageFunction : Str -> JsVal -> bool -> Window -> bool)
    (options : WaitOptions) (property : Str) (expectedValue : JsVal)
    (negated : bool)
| CallDebug (message : Str)
| CallRun (i : nat) (matches : Matches).

Definition Trace := list Call.

Variable script : Trace -> Call -> option E.

Definition stub (c : Call) : Capability Trace E :=
  fun t => (script t c, t ++ [c]).

Definition recordingPage : Page Trace E :=
  {| click := fun selector => stub (CallClick selector);
     focus := fun selector => stub (CallFocus selector);
     type := fun text => stub (CallType text);
     evaluate := fun f selector checked =>
                   stub (CallEvaluate f selector checked);
     waitForFunction := fun f o property expectedValue negated =>
                   stub (CallWaitForFunction f o property expectedValue
                                             negated) |}.

Definition recordingOptions : Options Trace :=
  {| log_debug := fun message t => t ++ [CallDebug message] |}.

(** An action whose handler is a stub; [i] tells the stubs apart. *)
Definition stubAction (i : nat) (R : RegExp.RegExp)
  : Action Trace E Browser :=
  {| name := [];
     match_ := R;
     run := fun browser page options matches =>
              call (stub (CallRun i matches)) |}.

(** A registry of stubs, numbered from [i] in registry order. *)
Fixpoint stubActions (i : nat) (Rs : list RegExp.RegExp)
  : list (Action Trace E Browser) :=
  match Rs with
  | [] => []
  | R :: Rs' => stubAction i R :: stubActions (S i) Rs'
  end.

End Recording.

Arguments CallClick {E} selector.
Arguments CallFocus {E} selector.
Arguments CallType {E} text.
Arguments CallDebug {E} message.
Arguments CallRun {E} i matches.
Arguments CallWaitForFunction {E} pageFunction options property
  expectedValue negated.
Arguments recordingOptions {E}.

(* ================================================================== *)
(** ** What a successful match says about the input *)
(* ================================================================== *)

(** [reaches r x y]: the pattern [r] can take the matcher from state [x] to
    state [y].  The relation forgets the order in which the backtracking
    matcher tries the alternatives; it is used to read off the shape of
    the input and of the captures from a successful match. *)
Module RegExpSpec.
Import RegExp.

Section Spec.
Context {U : UnicodeData}.
Variable icase : bool.
Variable Input : Str.

Definition cleared (ks : list nat) (x : MatchState) : MatchState :=
  mkState (endIndex x) (clear ks (captures x)).

Fixpoint iterate (step : MatchState -> MatchState -> Prop) (ks : list nat)
    (n : nat) (x y : MatchState) : Prop :=
  match n with
  | O => y = x
  | S n' =>
      exists m, step (cleared ks x) m /\ endIndex m <> endIndex x /\
                iterate step ks n' m y
  end.

Fixpoint reaches (r : Pattern) (x y : MatchState) : Prop :=
  match r with
  | Empty => y = x
  | Char a =>
      exists ch, nth_error Input (endIndex x) = Some ch /\
        Canonicalize icase ch = Canonicalize icase a /\
        y = mkState (S (endIndex x)) (captures x)
  | Dot =>
      exists ch, nth_error Input (endIndex x) = Some ch /\
        isLineTerminator ch = false /\
        y = mkState (S (endIndex x)) (captures x)
  | AssertStart => endIndex x = 0 /\ y = x
  | AssertEnd => endIndex x = length Input /\ y = x
  | Seq r1 r2 => exists m, reaches r1 x m /\ reaches r2 m y
  | Alt r1 r2 => reaches r1 x y \/ reaches r2 x y
  | Group n r1 =>
      exists m, reaches r1 x m /\
        y = mkState (endIndex m)
              (set_nth n (Some (substring Input (endIndex x) (endIndex m)))
                       (captures m))
  | Opt r1 =>
      y = x \/
      (reaches r1 (cleared (parens r1) x) y /\ endIndex y <> endIndex x)
  | Star r1 => exists n, iterate (reaches r1) (parens r1) n x y
  | Plus r1 =>
      exists m, reaches r1 (cleared (parens r1) x) m /\
        exists n, iterate (reaches r1) (parens r1) n m y
  end.

End Spec.
End RegExpSpec.

(* ================================================================== *)
(** ** Notions used in the proofs *)
(* ================================================================== *)

Section Notions.
Import RegExp.
Context {U : UnicodeData}.

(** Two continuations that agree on the states a matcher started at [x]
    can hand over are interchangeable. *)
Definition agree_from (Input : Str) (x : MatchState) (c1 c2 : Continuation)
  : Prop :=
  forall y, endIndex x <= endIndex y ->
            endIndex y <= Nat.max (endIndex x) (length Input) ->
            c1 y = c2 y.

Definition local_matcher (Input : Str)
    (m : MatchState -> Continuation -> MatchResult) : Prop :=
  forall x c1 c2, agree_from Input x c1 c2 -> m x c1 = m x c2.

(** A matcher that succeeds only by handing a state related to its start
    by [step] over to its continuation. *)
Definition sound_matcher (m : MatchState -> Continuation -> MatchResult)
    (step : MatchState -> MatchState -> Prop) : Prop :=
  forall x c z, m x c = Some z -> exists y, step x y /\ c y = Some z.

(** Two characters the matcher identifies. *)
Definition same_char (icase : bool) (ch : CodeUnit) (a : ascii) : Prop :=
  Canonicalize icase ch = Canonicalize icase (N_of_ascii a).

(** [keyword_of s w]: the string [s] is the ASCII word [w] up to the case
    of its letters. *)
Definition keyword_of (s : Str) (w : string) : Prop :=
  map asciiUpper s = map asciiUpper (lit w).

(** The first two letters of a command, in upper case: enough to tell the
    four built-in patterns apart. *)
Definition head2 (S : Str) : Str := map asciiUpper (firstn 2 S).

End Notions.

(* ================================================================== *)
(** ** Concrete values for the examples *)
(* ================================================================== *)

(** A runtime whose upper-casing leaves the code units outside ASCII
    alone. *)
Definition ascii_table : UnicodeData := {| unicodeUpper := fun ch => [ch] |}.

(** Scripts of the recording page: every call is fulfilled, respectively
    rejected. *)
Definition fulfilled : Trace unit -> Call unit -> option unit :=
  fun _ _ => None.
Definition rejecting : Trace unit -> Call unit -> option unit :=
  fun _ _ => Some tt.

(** The patterns of the unit tests: [/^foo/], [/^bar/], and [/bar/i]. *)
Definition re_foo : RegExp.RegExp :=
  RegExp.mkRegExp (RegExp.seq [RegExp.AssertStart; RegExp.str "foo"]) false.
Definition re_bar : RegExp.RegExp :=
  RegExp.mkRegExp (RegExp.seq [RegExp.AssertStart; RegExp.str "bar"]) false.
Definition re_any_bar : RegExp.RegExp :=
  RegExp.mkRegExp (RegExp.str "bar") true.

(* ================================================================== *)
(** ** Further notions: completeness of the matcher, single lines *)
(* ================================================================== *)

Section MoreNotions.
Import RegExp.

(** [y] lies between [x] and the end of the input. *)
Definition within (Input : Str) (x y : MatchState) : Prop :=
  endIndex x <= endIndex y /\
  endIndex y <= Nat.max (endIndex x) (length Input).

(** A matcher that succeeds whenever [step] leads to a state its
    continuation accepts. *)
Definition complete_matcher (m : MatchState -> Continuation -> MatchResult)
    (step : MatchState -> MatchState -> Prop) : Prop :=
  forall x y k, step x y -> k y <> None -> m x k <> None.

(** A string without line terminators. *)
Definition single_line (s : Str) : Prop :=
  Forall (fun c => isLineTerminator c = false) s.

(** Characters of a literal that are ASCII and whose upper case is not a
    line terminator. *)
Definition plain_ascii (a : ascii) : bool :=
  (N.ltb (N_of_ascii a) 128
   && negb (isLineTerminator (asciiUpper (N_of_ascii a))))%bool.

End MoreNotions.

(* ================================================================== *)
(** * Properties of the matcher *)
(* ================================================================== *)

Section MatcherFacts.
Import RegExp RegExpSpec.
Context {U : UnicodeData}.
Variable icase : bool.
Variable Input : Str.

Local Abbreviation compile := (compile icase Input).
Local Abbreviation agree_from := (agree_from Input).
Local Abbreviation local_matcher := (local_matcher Input).

Lemma agree_from_later x y c1 c2 :
  agree_from x c1 c2 ->
  endIndex x <= endIndex y ->
  endIndex y <= Nat.max (endIndex x) (length Input) ->
  agree_from y c1 c2.
Proof.
  intros H Hxy Hy z Hz1 Hz2. apply H; lia.
Qed.

Lemma RepeatLoop_local m ks :
  local_matcher m ->
  forall fuel x c1 c2, agree_from x c1 c2 ->
    RepeatLoop m ks c1 fuel x = RepeatLoop m ks c2 fuel x.
Proof.
  intros Hm fuel. induction fuel as [|fuel IH]; intros x c1 c2 H; simpl.
  - apply H; lia.
  - rewrite (H x) by lia.
    erewrite Hm; [reflexivity|].
    intros y Hy1 Hy2. simpl in Hy1, Hy2.
    destruct (Nat.eqb (endIndex y) (endIndex x)); [reflexivity|].
    apply IH. eapply agree_from_later; eauto.
Qed.

Lemma compile_local r : local_matcher (compile r).
Proof.
  induction r; intros x c1 c2 H; simpl.
  - apply H; lia.
  - unfold CharacterSetMatcher.
    destruct (nth_error Input (endIndex x)) as [ch|] eqn:Hn; [|reflexivity].
    destruct (N.eqb _ _); [|reflexivity].
    assert (endIndex x < length Input)
      by (apply nth_error_Some; congruence).
    apply H; simpl; lia.
  - unfold CharacterSetMatcher.
    destruct (nth_error Input (endIndex x)) as [ch|] eqn:Hn; [|reflexivity].
    destruct (negb _); [|reflexivity].
    assert (endIndex x < length Input)
      by (apply nth_error_Some; congruence).
    apply H; simpl; lia.
  - destruct (Nat.eqb _ _); [apply H; lia|reflexivity].
  - destruct (Nat.eqb _ _); [apply H; lia|reflexivity].
  - apply IHr1. intros y Hy1 Hy2. apply IHr2.
    eapply agree_from_later; eauto.
  - rewrite (IHr1 x c1 c2 H), (IHr2 x c1 c2 H). reflexivity.
  - apply IHr. intros y Hy1 Hy2. apply H; simpl; lia.
  - rewrite (H x) by lia.
    erewrite IHr; [reflexivity|].
    intros y Hy1 Hy2. simpl in Hy1, Hy2.
    destruct (Nat.eqb _ _); [reflexivity|]. apply H; lia.
  - apply RepeatLoop_local; assumption.
  - apply IHr. intros y Hy1 Hy2. simpl in Hy1, Hy2.
    apply RepeatLoop_local; [assumption|].
    intros z Hz1 Hz2. apply H; lia.
Qed.

(** A matcher succeeds only through its continuation. *)
Lemma RepeatLoop_fail m ks :
  local_matcher m ->
  (forall x, m x (fun _ => None) = None) ->
  forall fuel x, RepeatLoop m ks (fun _ => None) fuel x = None.
Proof.
  intros Hl Hm fuel. induction fuel as [|fuel IH]; intros x; simpl.
  - reflexivity.
  - erewrite Hl; [rewrite Hm; reflexivity|].
    intros y _ _. simpl.
    destruct (Nat.eqb _ _); [reflexivity|apply IH].
Qed.

Lemma compile_fail r : forall x, compile r x (fun _ => None) = None.
Proof.
  induction r; intros x; simpl; try reflexivity.
  - unfold CharacterSetMatcher.
    destruct (nth_error _ _); [|reflexivity].
    destruct (N.eqb _ _); reflexivity.
  - unfold CharacterSetMatcher.
    destruct (nth_error _ _); [|reflexivity].
    destruct (negb _); reflexivity.
  - destruct (Nat.eqb _ _); reflexivity.
  - destruct (Nat.eqb _ _); reflexivity.
  - erewrite compile_local; [apply IHr1|].
    intros y _ _. apply IHr2.
  - rewrite IHr1. apply IHr2.
  - apply IHr.
  - erewrite compile_local; [rewrite IHr; reflexivity|].
    intros y _ _. simpl. destruct (Nat.eqb _ _); reflexivity.
  - apply RepeatLoop_fail; [apply compile_local|assumption].
  - erewrite compile_local; [apply IHr|].
    intros y _ _. simpl.
    apply RepeatLoop_fail; [apply compile_local|assumption].
Qed.

(** The bound on the iterations of a quantifier is never what stops the
    loop: any larger bound gives the same result. *)
Lemma RepeatLoop_fuel_step r ks c :
  forall fuel x, length Input - endIndex x <= fuel ->
    RepeatLoop (compile r) ks c fuel x
    = RepeatLoop (compile r) ks c (S fuel) x.
Proof.
  induction fuel as [|fuel IH]; intros x Hx.
  - simpl.
    erewrite compile_local; [rewrite compile_fail; reflexivity|].
    intros y Hy1 Hy2. simpl in *.
    destruct (Nat.eqb (endIndex y) (endIndex x)) eqn:He; [reflexivity|].
    apply Nat.eqb_neq in He. lia.
  - change (RepeatLoop (compile r) ks c (S (S fuel)) x) with
      (match compile r (mkState (endIndex x) (clear ks (captures x)))
               (fun y => if Nat.eqb (endIndex y) (endIndex x) then None
                         else RepeatLoop (compile r) ks c (S fuel) y) with
       | Some z => Some z
       | None => c x
       end).
    change (RepeatLoop (compile r) ks c (S fuel) x) with
      (match compile r (mkState (endIndex x) (clear ks (captures x)))
               (fun y => if Nat.eqb (endIndex y) (endIndex x) then None
                         else RepeatLoop (compile r) ks c fuel y) with
       | Some z => Some z
       | None => c x
       end).
    erewrite compile_local; [reflexivity|].
    intros y Hy1 Hy2. simpl in Hy1, Hy2.
    destruct (Nat.eqb (endIndex y) (endIndex x)) eqn:He; [reflexivity|].
    apply Nat.eqb_neq in He. apply IH. lia.
Qed.

Lemma RepeatLoop_fuel r ks c x fuel :
  length Input - endIndex x <= fuel ->
  RepeatLoop (compile r) ks c fuel x
  = RepeatLoop (compile r) ks c (length Input - endIndex x) x.
Proof.
  intros H.
  induction fuel as [|fuel IH].
  - replace (length Input - endIndex x) with 0 by lia. reflexivity.
  - destruct (Nat.eq_dec (length Input - endIndex x) (S fuel)) as [->|Hne].
    + reflexivity.
    + rewrite <- RepeatLoop_fuel_step by lia. apply IH. lia.
Qed.

End MatcherFacts.

Section MatcherSound.
Import RegExp RegExpSpec.
Context {U : UnicodeData}.
Variable icase : bool.
Variable Input : Str.

Local Abbreviation compile := (compile icase Input).
Local Abbreviation reaches := (reaches icase Input).

Lemma RepeatLoop_sound m step ks :
  sound_matcher m step ->
  forall fuel x c z, RepeatLoop m ks c fuel x = Some z ->
    exists y, (exists n, iterate step ks n x y) /\ c y = Some z.
Proof.
  intros Hm fuel. induction fuel as [|fuel IH]; intros x c z H; simpl in H.
  - exists x. split; [exists 0; reflexivity|assumption].
  - match type of H with
    | match ?t with _ => _ end = _ => destruct t as [z'|] eqn:Hz
    end.
    + injection H as ->.
      apply Hm in Hz. destruct Hz as (m1 & Hstep & Hd).
      destruct (Nat.eqb (endIndex m1) (endIndex x)) eqn:He; [discriminate|].
      apply Nat.eqb_neq in He.
      apply IH in Hd. destruct Hd as (y & (n & Hit) & Hc).
      exists y. split; [|assumption].
      exists (S n). simpl. exists m1. auto.
    + exists x. split; [exists 0; reflexivity|assumption].
Qed.

Lemma compile_sound r : sound_matcher (compile r) (reaches r).
Proof.
  induction r; intros x k z H; simpl in H |- *.
  - eauto.
  - unfold CharacterSetMatcher in H.
    destruct (nth_error Input (endIndex x)) as [ch|] eqn:Hn; [|discriminate].
    destruct (N.eqb _ _) eqn:Hc; [|discriminate].
    apply N.eqb_eq in Hc. eauto 6.
  - unfold CharacterSetMatcher in H.
    destruct (nth_error Input (endIndex x)) as [ch|] eqn:Hn; [|discriminate].
    destruct (isLineTerminator ch) eqn:Hc; [discriminate|].
    simpl in H. eauto 6.
  - destruct (Nat.eqb (endIndex x) 0) eqn:He; [|discriminate].
    apply Nat.eqb_eq in He. eauto.
  - destruct (Nat.eqb (endIndex x) _) eqn:He; [|discriminate].
    apply Nat.eqb_eq in He. eauto.
  - apply IHr1 in H. destruct H as (m & H1 & H).
    apply IHr2 in H. destruct H as (y & H2 & H). eauto.
  - destruct (compile r1 x k) as [z'|] eqn:H1.
    + injection H as ->. apply IHr1 in H1.
      destruct H1 as (y & ? & ?). eauto.
    + apply IHr2 in H. destruct H as (y & ? & ?). eauto.
  - apply IHr in H. destruct H as (m & H1 & H). eauto.
  - match type of H with
    | match ?t with _ => _ end = _ => destruct t as [z'|] eqn:Hz
    end.
    + injection H as ->. apply IHr in Hz. destruct Hz as (y & H1 & Hd).
      destruct (Nat.eqb (endIndex y) (endIndex x)) eqn:He; [discriminate|].
      apply Nat.eqb_neq in He. simpl in He. exists y. auto.
    + eauto.
  - eapply RepeatLoop_sound; eauto.
  - apply IHr in H. destruct H as (m & H1 & H).
    eapply RepeatLoop_sound in H; [|exact IHr].
    destruct H as (y & Hit & Hc). exists y. split; [|assumption].
    exists m. auto.
Qed.

Lemma scan_sound r : forall fuel i j y,
  scan icase Input r i fuel = Some (j, y) ->
  i <= j < i + fuel /\ matcher icase Input r j = Some y.
Proof.
  induction fuel as [|fuel IH]; intros i j y H; simpl in H; [discriminate|].
  destruct (matcher icase Input r i) as [y'|] eqn:Hm.
  - injection H as <- <-. split; [lia|assumption].
  - apply IH in H. destruct H. split; [lia|assumption].
Qed.

Lemma matcher_sound r i y :
  matcher icase Input r i = Some y ->
  reaches r (mkState i (repeat undefined (S (NcapturingParens r)))) y.
Proof.
  unfold matcher. intros H. apply compile_sound in H.
  destruct H as (y' & Hr & Hy). injection Hy as ->. assumption.
Qed.

End MatcherSound.

(** A successful [exec] comes from a match that starts at some index of
    the input. *)
Lemma exec_sound {U : UnicodeData} (R : RegExp.RegExp) (S : Str)
    (A : list JsVal) :
  RegExp.exec R S = Some A ->
  exists i y,
    i <= length S /\
    RegExpSpec.reaches (RegExp.ignoreCase R) S (RegExp.source R)
      (RegExp.mkState i
         (repeat undefined (1 + RegExp.NcapturingParens (RegExp.source R)))) y /\
    A = Some (substring S i (RegExp.endIndex y)) :: tl (RegExp.captures y).
Proof.
  unfold RegExp.exec. intros H.
  destruct (RegExp.scan _ _ _ _ _) as [[i y]|] eqn:Hs; [|discriminate].
  injection H as <-.
  apply scan_sound in Hs. destruct Hs as [Hi Hm].
  apply matcher_sound in Hm.
  exists i, y. repeat split; [simpl in Hi; lia|assumption].
Qed.

(* ================================================================== *)
(** * The shape of the match arrays of the built-in patterns *)
(* ================================================================== *)

Section Shapes.
Import RegExp RegExpSpec.
Context {U : UnicodeData}.
Variable icase : bool.
Variable Input : Str.

Local Abbreviation reaches := (reaches icase Input).
Local Abbreviation same_char := (same_char icase).

Lemma skipn_nth_error {A} (s : list A) : forall i ch,
  nth_error s i = Some ch -> skipn i s = ch :: skipn (S i) s.
Proof.
  induction s as [|a s IH]; intros [|i] ch H; simpl in H;
    try discriminate.
  - injection H as ->. reflexivity.
  - change (skipn (S i) (a :: s)) with (skipn i s).
    rewrite (IH _ _ H). reflexivity.
Qed.

Lemma substring_cons (s : Str) i n ch :
  nth_error s i = Some ch ->
  substring s i (i + S n) = ch :: substring s (S i) (S i + n).
Proof.
  intros H. unfold substring.
  replace (i + S n - i) with (S n) by lia.
  replace (S i + n - S i) with n by lia.
  rewrite (skipn_nth_error _ _ H). reflexivity.
Qed.

Lemma substring_empty (s : Str) i : substring s i (i + 0) = [].
Proof.
  unfold substring. replace (i + 0 - i) with 0 by lia. reflexivity.
Qed.

(** A literal: the index advances over characters the matcher identifies
    with those of the literal, and the captures stay. *)
Lemma reaches_chars l : forall x y,
  reaches (chars l) x y ->
  y = mkState (endIndex x + length l) (captures x) /\
  Forall2 same_char
    (substring Input (endIndex x) (endIndex x + length l)) l.
Proof.
  induction l as [|a l IH]; intros x y H.
  - simpl in H. subst y. destruct x as [e cap]; simpl.
    rewrite substring_empty, Nat.add_0_r. split; [reflexivity|constructor].
  - destruct l as [|b l].
    + simpl in H. destruct H as (ch & Hn & Hc & ->).
      change (length [a]) with 1.
      rewrite (@substring_cons Input (endIndex x) 0 ch Hn), substring_empty.
      split; [f_equal; lia|repeat constructor; exact Hc].
    + change (chars (a :: b :: l)) with
        (Seq (Char (N_of_ascii a)) (chars (b :: l))) in H.
      simpl reaches in H.
      destruct H as (m & (ch & Hn & Hc & ->) & H).
      apply IH in H. simpl endIndex in H. simpl captures in H.
      destruct H as [-> HF].
      change (length (a :: b :: l)) with (S (length (b :: l))).
      rewrite (@substring_cons Input (endIndex x) (length (b :: l)) ch Hn).
      split; [f_equal; lia|constructor; assumption].
Qed.

Lemma reaches_str s x y :
  reaches (str s) x y ->
  y = mkState (endIndex x + length (list_ascii_of_string s)) (captures x) /\
  Forall2 same_char
    (substring Input (endIndex x)
               (endIndex x + length (list_ascii_of_string s)))
    (list_ascii_of_string s).
Proof. apply reaches_chars. Qed.

Lemma iterate_Dot n : forall x y,
  iterate (reaches Dot) [] n x y ->
  captures y = captures x /\ endIndex x <= endIndex y.
Proof.
  induction n as [|n IH]; intros x y H; simpl in H.
  - subst. split; [reflexivity|lia].
  - destruct H as (m & (ch & _ & _ & ->) & _ & H).
    apply IH in H. simpl in H. destruct H as [-> H].
    split; [reflexivity|lia].
Qed.

(** [.+]: at least one character is consumed, the captures stay. *)
Lemma reaches_Plus_Dot x y :
  reaches (Plus Dot) x y ->
  captures y = captures x /\ endIndex x < endIndex y.
Proof.
  simpl. intros (m & (ch & _ & _ & ->) & n & H).
  apply iterate_Dot in H. simpl in H. destruct H as [-> H].
  split; [reflexivity|lia].
Qed.

End Shapes.

Section Inversions.
Import RegExp RegExpSpec.
Context {U : UnicodeData}.
Variable icase : bool.
Variable Input : Str.

Local Abbreviation reaches := (reaches icase Input).

Lemma reaches_Seq_inv r1 r2 x y :
  reaches (Seq r1 r2) x y -> exists m, reaches r1 x m /\ reaches r2 m y.
Proof. exact (fun H => H). Qed.

Lemma reaches_Alt_inv r1 r2 x y :
  reaches (Alt r1 r2) x y -> reaches r1 x y \/ reaches r2 x y.
Proof. exact (fun H => H). Qed.

Lemma reaches_Group_inv n r x y :
  reaches (Group n r) x y ->
  exists m, reaches r x m /\
    y = mkState (endIndex m)
          (set_nth n (Some (substring Input (endIndex x) (endIndex m)))
                   (captures m)).
Proof. exact (fun H => H). Qed.

Lemma reaches_Opt_inv r x y :
  reaches (Opt r) x y ->
  y = x \/ reaches r (cleared (parens r) x) y.
Proof. intros [H|[H _]]; auto. Qed.

Lemma reaches_AssertStart_inv x y :
  reaches AssertStart x y -> endIndex x = 0 /\ y = x.
Proof. exact (fun H => H). Qed.

Lemma reaches_AssertEnd_inv x y :
  reaches AssertEnd x y -> endIndex x = length Input /\ y = x.
Proof. exact (fun H => H). Qed.

Lemma substring_whole (s : Str) : substring s 0 (length s) = s.
Proof.
  unfold substring. rewrite Nat.sub_0_r. simpl. apply firstn_all.
Qed.

Lemma substring_to_end (s : Str) i :
  substring s i (length s) = skipn i s.
Proof.
  unfold substring. apply firstn_all2. rewrite length_skipn. lia.
Qed.

Lemma substring_length (s : Str) i j :
  i <= j -> j <= length s -> length (substring s i j) = j - i.
Proof.
  intros Hij Hj. unfold substring.
  rewrite length_firstn, length_skipn. lia.
Qed.

End Inversions.

(** Walks through a hypothesis [reaches _ _ r x y] for a pattern built from
    sequences, groups, options, literals and [.+], and leaves the states
    in explicit form. *)
Ltac walk H :=
  lazymatch type of H with
  | RegExpSpec.reaches _ _ (RegExp.Seq _ _) _ _ =>
      let m := fresh "m" in
      let H1 := fresh "HA" in
      let H2 := fresh "HB" in
      apply reaches_Seq_inv in H; destruct H as (m & H1 & H2);
      walk H1; walk H2
  | RegExpSpec.reaches _ _ (RegExp.Group _ _) _ _ =>
      let m := fresh "m" in
      let H1 := fresh "HA" in
      let H2 := fresh "HB" in
      apply reaches_Group_inv in H; destruct H as (m & H1 & H2); walk H1
  | RegExpSpec.reaches _ _ (RegExp.Alt _ _) _ _ =>
      let H1 := fresh "HA" in
      apply reaches_Alt_inv in H; destruct H as [H1|H1]; walk H1
  | RegExpSpec.reaches _ _ (RegExp.Opt _) _ _ =>
      let H1 := fresh "HA" in
      apply reaches_Opt_inv in H; destruct H as [H1|H1];
      [idtac | walk H1]
  | RegExpSpec.reaches _ _ (RegExp.str _) _ _ =>
      let H1 := fresh "HA" in
      let HF := fresh "Hlit" in
      apply reaches_str in H; destruct H as [H1 HF]
  | RegExpSpec.reaches _ _ (RegExp.Plus RegExp.Dot) _ _ =>
      let H1 := fresh "Hcap" in
      let HF := fresh "Hlen" in
      apply reaches_Plus_Dot in H; destruct H as [H1 HF]
  | RegExpSpec.reaches _ _ RegExp.AssertStart _ _ =>
      let H1 := fresh "HA" in
      let HF := fresh "Hstart" in
      apply reaches_AssertStart_inv in H; destruct H as [HF H1]
  | RegExpSpec.reaches _ _ RegExp.AssertEnd _ _ =>
      let H1 := fresh "HA" in
      let HF := fresh "Hend" in
      apply reaches_AssertEnd_inv in H; destruct H as [HF H1]
  | _ => idtac
  end.

Ltac settle :=
  repeat match goal with
  | m : RegExp.MatchState |- _ => destruct m
  end;
  cbn [RegExp.endIndex RegExp.captures RegExpSpec.cleared RegExp.parens
       RegExp.str RegExp.chars list_ascii_of_string app RegExp.clear
       fold_left RegExp.set_nth length] in *;
  repeat match goal with
  | H : RegExp.mkState _ _ = RegExp.mkState _ _ |- _ => injection H as ? ?
  end;
  subst;
  cbn [RegExp.endIndex RegExp.captures RegExpSpec.cleared RegExp.parens
       RegExp.str RegExp.chars list_ascii_of_string app RegExp.clear
       fold_left RegExp.set_nth length tl Nat.add] in *.

Section Letters.
Import RegExp.
Context {U : UnicodeData}.

Lemma asciiUpper_lt (c : CodeUnit) : (c < 128 -> asciiUpper c < 128)%N.
Proof.
  unfold asciiUpper. intros H.
  destruct (N.leb 97 c && N.leb c 122)%bool; lia.
Qed.

Lemma Canonicalize_ascii (c : CodeUnit) :
  (c < 128)%N -> Canonicalize true c = asciiUpper c.
Proof.
  intros H. unfold Canonicalize, toUpperCase1.
  apply N.ltb_lt in H. rewrite H.
  apply N.ltb_lt in H.
  replace (N.leb 128 c) with false by (symmetry; apply N.leb_gt; lia).
  reflexivity.
Qed.

Lemma Canonicalize_high (c : CodeUnit) :
  (128 <= c)%N -> (128 <= Canonicalize true c)%N.
Proof.
  intros H. unfold Canonicalize, toUpperCase1.
  replace (N.ltb c 128) with false by (symmetry; apply N.ltb_ge; lia).
  replace (N.leb 128 c) with true by (symmetry; apply N.leb_le; lia).
  destruct (unicodeUpper c) as [|cu [|? ?]]; try assumption.
  simpl. destruct (N.ltb cu 128) eqn:Hcu; [assumption|].
  apply N.ltb_ge in Hcu. assumption.
Qed.

(** With the [i] flag an ASCII character of the pattern matches exactly
    its two letter cases (or itself, when it is not a letter). *)
Lemma same_char_upper (ch : CodeUnit) (a : ascii) :
  (N_of_ascii a < 128)%N ->
  same_char true ch a ->
  asciiUpper ch = asciiUpper (N_of_ascii a).
Proof.
  unfold same_char. intros Ha H.
  rewrite (Canonicalize_ascii Ha) in H.
  destruct (N.ltb ch 128) eqn:Hch.
  - apply N.ltb_lt in Hch. rewrite (Canonicalize_ascii Hch) in H. exact H.
  - apply N.ltb_ge in Hch. apply Canonicalize_high in Hch.
    pose proof (asciiUpper_lt Ha). lia.
Qed.

Lemma same_chars_upper (s : Str) (l : list ascii) :
  Forall (fun a => (N_of_ascii a < 128)%N) l ->
  Forall2 (same_char true) s l ->
  map asciiUpper s = map asciiUpper (map N_of_ascii l).
Proof.
  intros Hl H. induction H as [|ch a s l Hc H IH]; [reflexivity|].
  inversion Hl; subst. simpl.
  rewrite (same_char_upper H2 Hc), IH by assumption. reflexivity.
Qed.

End Letters.

Lemma same_chars_keyword {U : UnicodeData} (s : Str) (w : string) :
  forallb (fun a => N.ltb (N_of_ascii a) 128) (list_ascii_of_string w) = true ->
  Forall2 (same_char true) s (list_ascii_of_string w) ->
  keyword_of s w.
Proof.
  intros Hw H. apply same_chars_upper; [|assumption].
  apply Forall_forall. intros a Ha.
  rewrite forallb_forall in Hw. apply N.ltb_lt. auto.
Qed.

Lemma skipn_nonempty (s : Str) (i : nat) : i < length s -> skipn i s <> [].
Proof.
  intros H E. apply (f_equal (@length _)) in E.
  rewrite length_skipn in E. simpl in E. lia.
Qed.

Lemma substring_nonempty (s : Str) (i j : nat) :
  i < j -> j <= length s -> substring s i j <> [].
Proof.
  intros Hij Hj E. apply (f_equal (@length _)) in E.
  rewrite substring_length in E by lia. simpl in E. lia.
Qed.

Lemma suffix_skipn (s : Str) (i : nat) : exists before, s = before ++ skipn i s.
Proof. exists (firstn i s). symmetry. apply firstn_skipn. Qed.

Ltac keyword :=
  match goal with
  | H : Forall2 (same_char true) ?s (list_ascii_of_string ?w)
    |- keyword_of ?s ?w =>
      exact (same_chars_keyword w eq_refl H)
  | H : Forall2 (same_char true) ?s ?l |- keyword_of ?s ?w =>
      exact (same_chars_keyword w eq_refl H)
  end.

Ltac start_shape H init :=
  let i := fresh "i" in
  let y := fresh "y" in
  let Hi := fresh "Hi" in
  let Hr := fresh "Hr" in
  apply exec_sound in H; destruct H as (i & y & Hi & Hr & ->);
  cbv [Patterns.click_element Patterns.set_field_value Patterns.check_field
       Patterns.wait_for_url] in Hr;
  cbn [RegExp.seq RegExp.source RegExp.ignoreCase] in Hr;
  change (repeat undefined _) with init in Hr;
  walk Hr; settle;
  rewrite ?substring_whole, ?substring_to_end.

Section BuiltinShapes.
Import RegExp.
Context {U : UnicodeData}.

(** click-element: the selector is the non-empty rest of the command. *)
Lemma click_element_shape (S : Str) (A : list JsVal) :
  exec Patterns.click_element S = Some A ->
  exists g1 selector,
    A = [Some S; g1; Some selector] /\ selector <> [] /\
    exists before, S = before ++ selector.
Proof.
  intros H. start_shape H [undefined; undefined; undefined].
  all: do 2 eexists; split; [reflexivity|];
    split; [apply skipn_nonempty; lia|apply suffix_skipn].
Qed.

(** set-field-value: a selector and a value, both non-empty; the value is
    the rest of the command. *)
Lemma set_field_value_shape (S : Str) (A : list JsVal) :
  exec Patterns.set_field_value S = Some A ->
  exists g1 selector value,
    A = [Some S; g1; Some selector; Some value] /\
    selector <> [] /\ value <> [] /\
    exists before, S = before ++ value.
Proof.
  intros H.
  start_shape H [undefined; undefined; undefined; undefined].
  all: do 3 eexists; split; [reflexivity|];
    split; [apply substring_nonempty; lia|];
    split; [apply skipn_nonempty; lia|apply suffix_skipn].
Qed.

(** check-field: the first group holds [check] or [uncheck] in some
    letter case. *)
Lemma check_field_shape (S : Str) (A : list JsVal) :
  exec Patterns.check_field S = Some A ->
  exists word g2 selector,
    A = [Some S; Some word; g2; Some selector] /\
    (keyword_of word "check" \/ keyword_of word "uncheck") /\
    selector <> [] /\
    exists before, S = before ++ selector.
Proof.
  intros H.
  start_shape H [undefined; undefined; undefined; undefined].
  all: do 3 eexists; split; [reflexivity|];
    split; [first [left; keyword | right; keyword]|];
    split; [apply skipn_nonempty; lia|apply suffix_skipn].
Qed.

(** wait-for-url: the first group holds one of the four subjects in some
    letter case, the third group is absent or holds [not ], the fourth
    is the non-empty rest of the command. *)
Lemma wait_for_url_shape (S : Str) (A : list JsVal) :
  exec Patterns.wait_for_url S = Some A ->
  exists subject g2 g3 expectedValue,
    A = [Some S; Some subject; g2; g3; Some expectedValue] /\
    (keyword_of subject "fragment" \/ keyword_of subject "hash" \/
     keyword_of subject "path" \/ keyword_of subject "url") /\
    (g3 = undefined \/ exists n, g3 = Some n /\ keyword_of n "not ") /\
    expectedValue <> [] /\
    exists before, S = before ++ expectedValue.
Proof.
  intros H.
  start_shape H [undefined; undefined; undefined; undefined; undefined].
  all: do 4 eexists; split; [reflexivity|];
    split;
    [first [left; keyword | right; left; keyword
           | right; right; left; keyword | right; right; right; keyword]|];
    split;
    [first [left; reflexivity
           | right; eexists; split; [reflexivity|keyword]]|];
    split; [apply skipn_nonempty; lia|apply suffix_skipn].
Qed.

End BuiltinShapes.

Lemma keyword_head2 (S : Str) (n : nat) (w : string) :
  2 <= n -> keyword_of (firstn n S) w ->
  head2 S = firstn 2 (map RegExp.asciiUpper (lit w)).
Proof.
  unfold keyword_of, head2. intros Hn H.
  rewrite <- H, firstn_map, firstn_firstn.
  replace (Nat.min 2 n) with 2 by lia. reflexivity.
Qed.

Section BuiltinHeads.
Import RegExp.
Context {U : UnicodeData}.

Lemma click_element_head (S : Str) (A : list JsVal) :
  exec Patterns.click_element S = Some A -> head2 S = lit "CL".
Proof.
  intros H. start_shape H [undefined; undefined; undefined].
  all: apply (@keyword_head2 S 5 "click"); [lia|keyword].
Qed.

Lemma set_field_value_head (S : Str) (A : list JsVal) :
  exec Patterns.set_field_value S = Some A -> head2 S = lit "SE".
Proof.
  intros H.
  start_shape H [undefined; undefined; undefined; undefined].
  all: apply (@keyword_head2 S 3 "set"); [lia|keyword].
Qed.

Lemma check_field_head (S : Str) (A : list JsVal) :
  exec Patterns.check_field S = Some A ->
  head2 S = lit "CH" \/ head2 S = lit "UN".
Proof.
  intros H.
  start_shape H [undefined; undefined; undefined; undefined].
  all: first
    [ left; apply (@keyword_head2 S 5 "check"); [lia|keyword]
    | right; apply (@keyword_head2 S 7 "uncheck"); [lia|keyword] ].
Qed.

Lemma wait_for_url_head (S : Str) (A : list JsVal) :
  exec Patterns.wait_for_url S = Some A -> head2 S = lit "WA".
Proof.
  intros H.
  start_shape H [undefined; undefined; undefined; undefined; undefined].
  all: apply (@keyword_head2 S 9 "wait for "); [lia|keyword].
Qed.

Lemma test_true (R : RegExp) (S : Str) :
  test R S = true -> exists A, exec R S = Some A.
Proof.
  unfold test. destruct (exec R S) as [A|]; [eauto|discriminate].
Qed.

Lemma test_false (R : RegExp) (S : Str) :
  (forall A, exec R S <> Some A) -> test R S = false.
Proof.
  unfold test. intros H. destruct (exec R S) as [A|]; [|reflexivity].
  exfalso. exact (H A eq_refl).
Qed.

End BuiltinHeads.

(* ================================================================== *)
(** * The match arrays of the unit tests *)
(* ================================================================== *)

Section UnitTests.
Context {U : UnicodeData}.

Lemma patterns_well_numbered :
  forallb (fun R => RegExp.well_numbered (RegExp.source R))
          [Patterns.click_element; Patterns.set_field_value;
           Patterns.check_field; Patterns.wait_for_url] = true.
Proof. reflexivity. Qed.

Example click_element_matches :
  String_match (lit "click .foo") Patterns.click_element =
    Some [Some (lit "click .foo"); undefined; Some (lit ".foo")] /\
  String_match (lit "click element .foo") Patterns.click_element =
    Some [Some (lit "click element .foo"); Some (lit " element");
          Some (lit ".foo")] /\
  String_match (lit "click element .foo .bar .baz") Patterns.click_element =
    Some [Some (lit "click element .foo .bar .baz"); Some (lit " element");
          Some (lit ".foo .bar .baz")].
Proof. repeat split; vm_compute; reflexivity. Qed.

Example set_field_value_matches :
  String_match (lit "set .foo to bar") Patterns.set_field_value =
    Some [Some (lit "set .foo to bar"); undefined; Some (lit ".foo");
          Some (lit "bar")] /\
  String_match (lit "set field .foo to bar") Patterns.set_field_value =
    Some [Some (lit "set field .foo to bar"); Some (lit " field");
          Some (lit ".foo"); Some (lit "bar")] /\
  String_match (lit "set field .foo .bar .baz to hello world")
               Patterns.set_field_value =
    Some [Some (lit "set field .foo .bar .baz to hello world");
          Some (lit " field"); Some (lit ".foo .bar .baz");
          Some (lit "hello world")].
Proof. repeat split; vm_compute; reflexivity. Qed.

Example check_field_matches :
  String_match (lit "check .foo") Patterns.check_field =
    Some [Some (lit "check .foo"); Some (lit "check"); undefined;
          Some (lit ".foo")] /\
  String_match (lit "check field .foo") Patterns.check_field =
    Some [Some (lit "check field .foo"); Some (lit "check");
          Some (lit " field"); Some (lit ".foo")] /\
  String_match (lit "uncheck field .foo .bar .baz") Patterns.check_field =
    Some [Some (lit "uncheck field .foo .bar .baz"); Some (lit "uncheck");
          Some (lit " field"); Some (lit ".foo .bar .baz")].
Proof. repeat split; vm_compute; reflexivity. Qed.

Example wait_for_url_matches :
  String_match (lit "wait for fragment #foo") Patterns.wait_for_url =
    Some [Some (lit "wait for fragment #foo"); Some (lit "fragment");
          undefined; undefined; Some (lit "#foo")] /\
  String_match (lit "wait for fragment to be #foo") Patterns.wait_for_url =
    Some [Some (lit "wait for fragment to be #foo"); Some (lit "fragment");
          Some (lit " to be"); undefined; Some (lit "#foo")] /\
  String_match (lit "wait for hash to be #foo") Patterns.wait_for_url =
    Some [Some (lit "wait for hash to be #foo"); Some (lit "hash");
          Some (lit " to be"); undefined; Some (lit "#foo")] /\
  String_match (lit "wait for path to be /foo") Patterns.wait_for_url =
    Some [Some (lit "wait for path to be /foo"); Some (lit "path");
          Some (lit " to be"); undefined; Some (lit "/foo")] /\
  String_match (lit "wait for url to be https://example.com/")
               Patterns.wait_for_url =
    Some [Some (lit "wait for url to be https://example.com/");
          Some (lit "url"); Some (lit " to be"); undefined;
          Some (lit "https://example.com/")] /\
  String_match (lit "wait for fragment to not be #bar")
               Patterns.wait_for_url =
    Some [Some (lit "wait for fragment to not be #bar");
          Some (lit "fragment"); Some (lit " to not be"); Some (lit "not ");
          Some (lit "#bar")] /\
  String_match (lit "wait for path to not be /sso/login")
               Patterns.wait_for_url =
    Some [Some (lit "wait for path to not be /sso/login"); Some (lit "path");
          Some (lit " to not be"); Some (lit "not ");
          Some (lit "/sso/login")].
Proof. repeat split; vm_compute; reflexivity. Qed.

(** The [isValidAction] test: [/foo/i] on two sentences. *)
Example test_foo_anywhere :
  RegExp.test (RegExp.mkRegExp (RegExp.str "foo") true) (lit "hello foo!")
    = true /\
  RegExp.test (RegExp.mkRegExp (RegExp.str "foo") true) (lit "hello bar!")
    = false.
Proof. split; vm_compute; reflexivity. Qed.

(** Captures of a quantified group are cleared at each iteration:
    [/(?:a|(b))+/] on [ba] leaves the group undefined. *)
Example captures_cleared_between_iterations :
  RegExp.exec
    (RegExp.mkRegExp
       (RegExp.Plus (RegExp.Alt (RegExp.Char 97%N)
                                (RegExp.Group 1 (RegExp.Char 98%N)))) false)
    (lit "ba") = Some [Some (lit "ba"); undefined].
Proof. vm_compute. reflexivity. Qed.

End UnitTests.

(* ================================================================== *)
(** * The functions evaluated in the page *)
(* ================================================================== *)

Section InPage.
Variable E : Type.

Lemma check_field_in_page_found (selector : JsVal) (v : bool)
    (document : Document) (target : nat) :
  querySelector document selector = Some target ->
  @check_field_in_page E selector v document =
    (Resolved tt, set_checked document target v) /\
  checked (set_checked document target v) target = v.
Proof.
  intros H. unfold check_field_in_page. rewrite H.
  split; [reflexivity|]. simpl. rewrite Nat.eqb_refl. reflexivity.
Qed.

Lemma check_field_in_page_not_found (selector : JsVal) (v : bool)
    (document : Document) :
  querySelector document selector = None ->
  @check_field_in_page E selector v document =
    (Rejected (Error_ (lit "No element found")), document).
Proof.
  intros H. unfold check_field_in_page. rewrite H. reflexivity.
Qed.

End InPage.

(* ================================================================== *)
(** * The dispatcher *)
(* ================================================================== *)

Section Dispatcher.
Context {U : UnicodeData}.
Variables W E Browser : Type.

Implicit Types (acts : list (Action W E Browser)) (page : Page W E)
  (options : Options W) (browser : Browser) (w : W).

Lemma find_first {A} (f : A -> bool) (l1 : list A) (a : A) (l2 : list A) :
  (forall x, In x l1 -> f x = false) -> f a = true ->
  find f (l1 ++ a :: l2) = Some a.
Proof.
  intros H1 Ha. induction l1 as [|x l1 IH]; simpl.
  - rewrite Ha. reflexivity.
  - rewrite (H1 x) by (left; reflexivity).
    apply IH. intros y Hy. apply H1. right. assumption.
Qed.

Lemma find_nothing {A} (f : A -> bool) (l : list A) :
  (forall x, In x l -> f x = false) -> find f l = None.
Proof.
  intros H. induction l as [|x l IH]; simpl; [reflexivity|].
  rewrite (H x) by (left; reflexivity).
  apply IH. intros y Hy. apply H. right. assumption.
Qed.

(** [runAction] when no action is found. *)
Lemma runAction_not_found acts browser page options actionString w :
  find (fun a => RegExp.test (match_ a) actionString) acts = None ->
  runAction acts browser page options actionString w =
    (Rejected
       (Error_ (lit "Failed action: " ++ dquote ++ actionString ++ dquote
                  ++ lit " cannot be resolved")), w).
Proof.
  intros H. unfold runAction. rewrite H. reflexivity.
Qed.

(** [runAction] when [action] is the action found. *)
Lemma runAction_found acts browser page options actionString w action :
  find (fun a => RegExp.test (match_ a) actionString) acts = Some action ->
  runAction acts browser page options actionString w =
    match run action browser page options
              (String_match actionString (match_ action))
              (log_debug options (running_message actionString) w) with
    | (Resolved _, w') =>
        (Resolved tt, log_debug options complete_message w')
    | (Rejected e, w') => (Rejected e, w')
    end.
Proof.
  intros H. unfold runAction. rewrite H.
  unfold await, debug. simpl.
  destruct (run action _ _ _ _ _) as [[[]|e] w']; reflexivity.
Qed.

End Dispatcher.

Section Stubs.
Context {U : UnicodeData}.
Variables E Browser : Type.
Variable script : Trace E -> Call E -> option E.

Lemma match_stubActions (Rs : list RegExp.RegExp) : forall i,
  map (@match_ _ _ _) (stubActions Browser script i Rs) = Rs.
Proof.
  induction Rs as [|R Rs IH]; intros i; simpl; [reflexivity|].
  rewrite IH. reflexivity.
Qed.

Lemma stubActions_app (Rs1 Rs2 : list RegExp.RegExp) : forall i,
  stubActions Browser script i (Rs1 ++ Rs2) =
  stubActions Browser script i Rs1
    ++ stubActions Browser script (i + length Rs1) Rs2.
Proof.
  induction Rs1 as [|R Rs1 IH]; intros i; simpl.
  - rewrite Nat.add_0_r. reflexivity.
  - rewrite IH. do 3 f_equal. lia.
Qed.

Lemma In_stubActions (Rs : list RegExp.RegExp) a : forall i,
  In a (stubActions Browser script i Rs) -> In (match_ a) Rs.
Proof.
  induction Rs as [|R Rs IH]; intros i H; simpl in *; [assumption|].
  destruct H as [<-|H]; [left; reflexivity|right; eauto].
Qed.

End Stubs.

(* ================================================================== *)
(** * Dispatch: unresolved commands, precedence, validity *)
(* ================================================================== *)

Section DispatchClaims.
Context {U : UnicodeData}.
Variables W E Browser : Type.

(** C1.  When the command matches the pattern of no registered action,
    [runAction] is rejected with a new error whose message is
    [Failed action: "<actionString>" cannot be resolved], and the world is
    left as it was, whatever the handlers and the logger are: no handler
    has run and nothing was logged.  With the handlers and the logger
    replaced by recording stubs, the list of recorded calls is unchanged. *)
Theorem runAction_unresolved :
  forall (acts : list (Action W E Browser)) (browser : Browser)
         (page : Page W E) (options : Options W) (actionString : Str) (w : W),
    (forall a, In a acts -> RegExp.test (match_ a) actionString = false) ->
    runAction acts browser page options actionString w =
      (Rejected
         (Error_ (lit "Failed action: " ++ dquote ++ actionString ++ dquote
                    ++ lit " cannot be resolved")), w)
    /\
    forall (script : Trace E -> Call E -> option E) (t : Trace E),
      runAction (stubActions Browser script 0 (map (@match_ _ _ _) acts))
                browser (recordingPage script) recordingOptions
                actionString t =
      (Rejected
         (Error_ (lit "Failed action: " ++ dquote ++ actionString ++ dquote
                    ++ lit " cannot be resolved")), t).
Proof.
  intros acts browser page options actionString w H. split.
  - apply runAction_not_found. apply find_nothing. exact H.
  - intros script t. apply runAction_not_found. apply find_nothing.
    intros a Ha. apply In_stubActions in Ha.
    apply in_map_iff in Ha. destruct Ha as (a0 & <- & Ha0). auto.
Qed.

(** C2.  When the first action of the registry whose pattern matches the
    command is [a], and a later action matches as well, [runAction] runs
    the handler of [a] and of no other action, on the match array
    [actionString.match(a.match)], which is not [null].  With arbitrary
    handlers the outcome is that of [a]'s handler between the two log
    calls; with the handlers replaced by recording stubs, the only handler
    call recorded is that of the stub at [a]'s position. *)
Theorem runAction_first_match :
  forall (acts1 : list (Action W E Browser)) (a : Action W E Browser)
         (acts2 : list (Action W E Browser)) (later : Action W E Browser)
         (browser : Browser) (page : Page W E) (options : Options W)
         (actionString : Str) (w : W),
    (forall a', In a' acts1 -> RegExp.test (match_ a') actionString = false) ->
    RegExp.test (match_ a) actionString = true ->
    In later acts2 ->
    RegExp.test (match_ later) actionString = true ->
    exists matches : list JsVal,
      String_match actionString (match_ a) = Some matches /\
      runAction (acts1 ++ a :: acts2) browser page options actionString w =
        match run a browser page options (Some matches)
                  (log_debug options (running_message actionString) w) with
        | (Resolved _, w') =>
            (Resolved tt, log_debug options complete_message w')
        | (Rejected e, w') => (Rejected e, w')
        end
      /\
      forall (script : Trace E -> Call E -> option E) (t : Trace E),
        let t1 := t ++ [CallDebug (running_message actionString)] in
        let c := CallRun (length acts1) (Some matches) in
        runAction
          (stubActions Browser script 0
             (map (@match_ _ _ _) (acts1 ++ a :: acts2)))
          browser (recordingPage script) recordingOptions actionString t =
        match script t1 c with
        | None => (Resolved tt, t1 ++ [c] ++ [CallDebug complete_message])
        | Some e => (Rejected (Raised e), t1 ++ [c])
        end.
Proof.
  intros acts1 a acts2 later browser page options actionString w
         H1 Ha _ _.
  destruct (test_true _ _ Ha) as [matches Hm].
  exists matches. split; [exact Hm|]. split.
  - rewrite (runAction_found _ _ _ _ _ _ (find_first _ _ _ _ H1 Ha)).
    unfold String_match. rewrite Hm. reflexivity.
  - intros script t t1 c.
    rewrite map_app, stubActions_app. simpl map. simpl stubActions.
    rewrite (runAction_found (E:=E) _ _ _ _ _ _
               (action := stubAction Browser script (0 + length (map (@match_ _ _ _) acts1)) (match_ a))).
    + simpl run. unfold String_match. rewrite Hm.
      rewrite length_map. simpl Nat.add.
      unfold call, stub. simpl log_debug. fold t1. fold c.
      destruct (script t1 c); [reflexivity|].
      rewrite <- app_assoc. reflexivity.
    + apply find_first; [|exact Ha].
      intros x Hx. apply In_stubActions in Hx.
      apply in_map_iff in Hx. destruct Hx as (a0 & <- & Ha0). auto.
Qed.

(** C7.  [isValidAction] is [true] exactly when the pattern of some
    registered action matches the command.  It is a function of the
    patterns of the registry and of the command alone: the handlers do not
    enter it, it has no effect on the world and always returns a boolean,
    the same one for the same registry and command. *)
Theorem isValidAction_iff :
  forall (acts : list (Action W E Browser)) (actionString : Str),
    (isValidAction acts actionString = true <->
     exists a, In a acts /\ RegExp.test (match_ a) actionString = true)
    /\
    isValidAction acts actionString =
      existsb (fun R => RegExp.test R actionString) (map (@match_ _ _ _) acts)
    /\
    forall acts' : list (Action W E Browser),
      map (@match_ _ _ _) acts' = map (@match_ _ _ _) acts ->
      isValidAction acts' actionString = isValidAction acts actionString.
Proof.
  intros acts actionString.
  assert (Hmap : forall l : list (Action W E Browser),
             isValidAction l actionString =
             existsb (fun R => RegExp.test R actionString)
                     (map (@match_ _ _ _) l)).
  { induction l as [|x l IH]; simpl; [reflexivity|].
    rewrite <- IH. reflexivity. }
  split; [|split].
  - unfold isValidAction. rewrite existsb_exists. reflexivity.
  - apply Hmap.
  - intros acts' H. rewrite !Hmap, H. reflexivity.
Qed.

End DispatchClaims.

(* ================================================================== *)
(** * The built-in actions *)
(* ================================================================== *)

Lemma Str_eqb_eq (a b : Str) : Str_eqb a b = true <-> a = b.
Proof.
  revert b. induction a as [|x a IH]; intros [|y b]; simpl;
    try (split; [discriminate|discriminate]); [tauto|].
  rewrite andb_true_iff, N.eqb_eq, IH.
  split; [intros [-> ->]; reflexivity|intros H; injection H; auto].
Qed.

Lemma strictEq_eq (a b : JsVal) : strictEq a b = true <-> a = b.
Proof.
  destruct a as [a|], b as [b|]; simpl;
    try (split; [discriminate|discriminate]); [|tauto].
  rewrite Str_eqb_eq. split; [intros ->; reflexivity|intros H; injection H; auto].
Qed.

Lemma strictEq_refl (a : JsVal) : strictEq a a = true.
Proof. apply strictEq_eq. reflexivity. Qed.

Lemma strictEq_neq (a b : JsVal) : a <> b -> strictEq a b = false.
Proof.
  intros H. destruct (strictEq a b) eqn:Heq; [|reflexivity].
  apply strictEq_eq in Heq. contradiction.
Qed.

Section Builtin.
Context {U : UnicodeData}.
Variables W E Browser : Type.

Implicit Types (page : Page W E) (options : Options W) (browser : Browser)
  (w : W).

Local Abbreviation registry := (@actions W E Browser).
Local Abbreviation matching S :=
  (fun a : Action W E Browser => RegExp.test (match_ a) S).

(** Which built-in action a command is dispatched to. *)
Lemma find_click_element (S : Str) :
  RegExp.test Patterns.click_element S = true ->
  find (matching S) registry = Some click_element.
Proof.
  intros H. unfold actions. simpl. rewrite H. reflexivity.
Qed.

Lemma find_set_field_value (S : Str) :
  RegExp.test Patterns.set_field_value S = true ->
  find (matching S) registry = Some set_field_value.
Proof.
  intros H. destruct (test_true _ _ H) as [A HA].
  apply set_field_value_head in HA.
  apply (find_first (matching S) [click_element] set_field_value); [|exact H].
  intros x [<-|[]]. apply test_false. intros A' HA'.
  apply click_element_head in HA'. rewrite HA in HA'. discriminate.
Qed.

Lemma find_check_field (S : Str) :
  RegExp.test Patterns.check_field S = true ->
  find (matching S) registry = Some check_field.
Proof.
  intros H. destruct (test_true _ _ H) as [A HA].
  apply check_field_head in HA.
  apply (find_first (matching S) [click_element; set_field_value]
                    check_field); [|exact H].
  intros x [<-|[<-|[]]]; apply test_false; intros A' HA'.
  - apply click_element_head in HA'. rewrite HA' in HA.
    destruct HA; discriminate.
  - apply set_field_value_head in HA'. rewrite HA' in HA.
    destruct HA; discriminate.
Qed.

Lemma find_wait_for_url (S : Str) :
  RegExp.test Patterns.wait_for_url S = true ->
  find (matching S) registry = Some wait_for_url.
Proof.
  intros H. destruct (test_true _ _ H) as [A HA].
  apply wait_for_url_head in HA.
  apply (find_first (matching S)
           [click_element; set_field_value; check_field] wait_for_url);
    [|exact H].
  intros x [<-|[<-|[<-|[]]]]; apply test_false; intros A' HA'.
  - apply click_element_head in HA'. rewrite HA in HA'. discriminate.
  - apply set_field_value_head in HA'. rewrite HA in HA'. discriminate.
  - apply check_field_head in HA'. rewrite HA in HA'.
    destruct HA'; discriminate.
Qed.

(** The handlers on a match array of the expected length. *)
Lemma run_click_element browser page options w (m0 g1 : JsVal)
    (selector : Str) :
  run click_element browser page options
      (Some [m0; g1; Some selector]) w =
  match click page (Some selector) w with
  | (Some _, w') =>
      (Rejected
         (Error_ (lit "Failed action: no element matching selector "
                    ++ dquote ++ selector ++ dquote)), w')
  | (None, w') => (Resolved tt, w')
  end.
Proof.
  simpl. unfold await, try_catch, call, index, resolve, throw. simpl.
  destruct (click page (Some selector) w) as [[e|] w']; reflexivity.
Qed.

Lemma run_set_field_value browser page options w (m0 g1 : JsVal)
    (selector value : Str) :
  run set_field_value browser page options
      (Some [m0; g1; Some selector; Some value]) w =
  match focus page (Some selector) w with
  | (Some _, w1) =>
      (Rejected
         (Error_ (lit "Failed action: no element matching selector "
                    ++ dquote ++ selector ++ dquote)), w1)
  | (None, w1) =>
      match type page (Some value) w1 with
      | (Some _, w2) =>
          (Rejected
             (Error_ (lit "Failed action: no element matching selector "
                        ++ dquote ++ selector ++ dquote)), w2)
      | (None, w2) => (Resolved tt, w2)
      end
  end.
Proof.
  simpl. unfold await, try_catch, call, index, resolve, throw. simpl.
  destruct (focus page (Some selector) w) as [[e|] w1]; [reflexivity|].
  destruct (type page (Some value) w1) as [[e|] w2]; reflexivity.
Qed.

Lemma run_check_field browser page options w (m0 g2 : JsVal)
    (word selector : Str) :
  run check_field browser page options
      (Some [m0; Some word; g2; Some selector]) w =
  match evaluate page check_field_in_page (Some selector)
                 (negb (Str_eqb word (lit "uncheck"))) w with
  | (Some _, w') =>
      (Rejected
         (Error_ (lit "Failed action: no element matching selector "
                    ++ dquote ++ selector ++ dquote)), w')
  | (None, w') => (Resolved tt, w')
  end.
Proof.
  simpl. unfold await, try_catch, call, index, resolve, throw. simpl.
  destruct (evaluate page _ _ _ w) as [[e|] w']; reflexivity.
Qed.

Lemma run_wait_for_url browser page options w (m0 g2 g3 : JsVal)
    (subject expectedValue : Str) :
  run wait_for_url browser page options
      (Some [m0; Some subject; g2; g3; Some expectedValue]) w =
  match waitForFunction page wait_for_url_in_page emptyObject
          (location_property (Some subject)) (Some expectedValue)
          (negb (strictEq g3 undefined)) w with
  | (Some e, w') => (Rejected (Raised e), w')
  | (None, w') => (Resolved tt, w')
  end.
Proof. reflexivity. Qed.

End Builtin.

Section BuiltinClaims.
Context {U : UnicodeData}.
Variables W E Browser : Type.

Local Abbreviation registry := (@actions W E Browser).

(** C5.  For a command matched by the click-element pattern, respectively
    by the set-field-value pattern, the second capture is a string, the
    selector.  A rejection of [page.click], respectively of [page.focus] or
    [page.type], with whatever value, is turned into a rejection with a
    new error whose message is
    [Failed action: no element matching selector "<selector>"]; the value
    the page rejected with does not occur in the outcome. *)
Theorem selector_failure_remapped :
  forall (S1 S2 : Str) (A1 A2 : list JsVal),
    String_match S1 Patterns.click_element = Some A1 ->
    String_match S2 Patterns.set_field_value = Some A2 ->
    (exists selector : Str,
        nth 2 A1 undefined = Some selector /\
        forall (browser : Browser) (page : Page W E) (options : Options W)
               (w : W),
          run click_element browser page options (Some A1) w =
          match click page (Some selector) w with
          | (Some _, w') =>
              (Rejected
                 (Error_ (lit "Failed action: no element matching selector "
                            ++ dquote ++ selector ++ dquote)), w')
          | (None, w') => (Resolved tt, w')
          end)
    /\
    (exists selector value : Str,
        nth 2 A2 undefined = Some selector /\
        nth 3 A2 undefined = Some value /\
        forall (browser : Browser) (page : Page W E) (options : Options W)
               (w : W),
          run set_field_value browser page options (Some A2) w =
          match focus page (Some selector) w with
          | (Some _, w1) =>
              (Rejected
                 (Error_ (lit "Failed action: no element matching selector "
                            ++ dquote ++ selector ++ dquote)), w1)
          | (None, w1) =>
              match type page (Some value) w1 with
              | (Some _, w2) =>
                  (Rejected
                     (Error_
                        (lit "Failed action: no element matching selector "
                           ++ dquote ++ selector ++ dquote)), w2)
              | (None, w2) => (Resolved tt, w2)
              end
          end).
Proof.
  intros S1 S2 A1 A2 H1 H2. split.
  - apply click_element_shape in H1.
    destruct H1 as (g1 & selector & -> & _).
    exists selector. split; [reflexivity|].
    intros. apply run_click_element.
  - apply set_field_value_shape in H2.
    destruct H2 as (g1 & selector & value & -> & _).
    exists selector, value. split; [reflexivity|]. split; [reflexivity|].
    intros. apply run_set_field_value.
Qed.

(** C8.  For a command matched by the set-field-value pattern, the
    handler calls [page.focus] with the captured selector and, once that
    call has settled and only if it was fulfilled, [page.type] with the
    captured value as its single argument, in the world [page.focus] left.
    On the recording page the
    calls recorded are [focus] alone when [focus] is rejected, and [focus]
    followed by [type] otherwise. *)
Theorem set_field_value_focus_then_type :
  forall (S : Str) (A : list JsVal),
    String_match S Patterns.set_field_value = Some A ->
    exists selector value : Str,
      nth 2 A undefined = Some selector /\
      nth 3 A undefined = Some value /\
      (forall (browser : Browser) (page : Page W E) (options : Options W)
              (w : W),
          run set_field_value browser page options (Some A) w =
          match focus page (Some selector) w with
          | (Some _, w1) =>
              (Rejected
                 (Error_ (lit "Failed action: no element matching selector "
                            ++ dquote ++ selector ++ dquote)), w1)
          | (None, w1) =>
              match type page (Some value) w1 with
              | (Some _, w2) =>
                  (Rejected
                     (Error_
                        (lit "Failed action: no element matching selector "
                           ++ dquote ++ selector ++ dquote)), w2)
              | (None, w2) => (Resolved tt, w2)
              end
          end)
      /\
      (forall (browser : Browser) (script : Trace E -> Call E -> option E)
              (t : Trace E),
          snd (run set_field_value browser (recordingPage script)
                   recordingOptions (Some A) t) =
          match script t (CallFocus (Some selector)) with
          | Some _ => t ++ [CallFocus (Some selector)]
          | None => t ++ [CallFocus (Some selector); CallType (Some value)]
          end).
Proof.
  intros S A H. apply set_field_value_shape in H.
  destruct H as (g1 & selector & value & -> & _).
  exists selector, value. split; [reflexivity|]. split; [reflexivity|]. split.
  - intros. apply run_set_field_value.
  - intros. rewrite run_set_field_value. simpl. unfold stub.
    destruct (script t (CallFocus (Some selector))); [reflexivity|].
    destruct (script _ (CallType (Some value))); simpl;
      rewrite <- app_assoc; reflexivity.
Qed.

End BuiltinClaims.

Section WaitForUrlClaims.
Context {U : UnicodeData}.
Variables W E Browser : Type.

(** The [switch] of the wait-for-url handler on the first capture.  The
    capture spells one of the four keywords up to letter case, but the
    [case] labels are compared with it as they are: [hash] is polled for
    the lower-case subjects [fragment] and [hash], [pathname] for the
    lower-case [path], and [href] for [url] and, by the default, for any
    other text of the capture. *)
Lemma wait_for_url_property :
  forall (S : Str) (A : list JsVal),
    String_match S Patterns.wait_for_url = Some A ->
    exists (subject property : Str) (expectedValue : JsVal) (negated : bool),
      nth 1 A undefined = Some subject /\
      (keyword_of subject "fragment" \/ keyword_of subject "hash" \/
       keyword_of subject "path" \/ keyword_of subject "url") /\
      (forall (browser : Browser) (page : Page W E) (options : Options W)
              (w : W),
          run wait_for_url browser page options (Some A) w =
          call (waitForFunction page wait_for_url_in_page emptyObject
                  property expectedValue negated) w) /\
      (subject = lit "fragment" -> property = lit "hash") /\
      (subject = lit "hash" -> property = lit "hash") /\
      (subject = lit "path" -> property = lit "pathname") /\
      (subject = lit "url" -> property = lit "href") /\
      (subject <> lit "fragment" -> subject <> lit "hash" ->
       subject <> lit "path" -> property = lit "href").
Proof.
  intros S A H. apply wait_for_url_shape in H.
  destruct H as (subject & g2 & g3 & expectedValue & -> & Hkw & _).
  exists subject, (location_property (Some subject)), (Some expectedValue),
         (negb (strictEq g3 undefined)).
  split; [reflexivity|]. split; [exact Hkw|]. split; [reflexivity|].
  repeat split.
  - intros ->. reflexivity.
  - intros ->. reflexivity.
  - intros ->. reflexivity.
  - intros ->. reflexivity.
  - intros H1 H2 H3. unfold location_property.
    rewrite !strictEq_neq by congruence. reflexivity.
Qed.

(** C9.  For a command matched by the wait-for-url pattern, the handler
    passes [negated = true] exactly when the third capture, the optional
    [not ] of the pattern, is present, in which case it spells [not ] up to
    letter case.  The predicate polled in the page compares the location
    property with the expected value: it holds when they are equal if
    [negated] is false, and when they differ if [negated] is true, that is
    [(value === expected) !== negated]. *)
Theorem wait_for_url_negation :
  forall (S : Str) (A : list JsVal),
    String_match S Patterns.wait_for_url = Some A ->
    exists (subject : Str) (g2 g3 : JsVal) (expectedValue : Str)
           (negated : bool),
      A = [Some S; Some subject; g2; g3; Some expectedValue] /\
      (negated = true <-> g3 <> undefined) /\
      (g3 = undefined \/ exists n, g3 = Some n /\ keyword_of n "not ") /\
      (forall (browser : Browser) (page : Page W E) (options : Options W)
              (w : W),
          run wait_for_url browser page options (Some A) w =
          call (waitForFunction page wait_for_url_in_page emptyObject
                  (location_property (Some subject)) (Some expectedValue)
                  negated) w) /\
      (forall (property : Str) (window : Window),
          wait_for_url_in_page property (Some expectedValue) negated window =
          xorb (strictEq (location window property) (Some expectedValue))
               negated) /\
      (forall (property : Str) (window : Window),
          wait_for_url_in_page property (Some expectedValue) negated window
          = true <->
          if negated then location window property <> Some expectedValue
          else location window property = Some expectedValue).
Proof.
  intros S A H. apply wait_for_url_shape in H.
  destruct H as (subject & g2 & g3 & expectedValue & -> & _ & Hnot & _).
  exists subject, g2, g3, expectedValue, (negb (strictEq g3 undefined)).
  split; [reflexivity|]. split; [|split; [exact Hnot|]].
  - unfold undefined. destruct g3; simpl; split; intros H;
      solve [discriminate | reflexivity | exfalso; apply H; reflexivity].
  - split; [reflexivity|]. split.
    + intros. unfold wait_for_url_in_page.
      destruct (negb (strictEq g3 undefined));
        destruct (strictEq _ _); reflexivity.
    + intros. unfold wait_for_url_in_page.
      destruct (negb (strictEq g3 undefined)).
      * rewrite negb_true_iff. rewrite <- (strictEq_eq (location window property)).
        destruct (strictEq _ _); split; congruence.
      * apply strictEq_eq.
Qed.

(** C6.  [runAction] hands on the rejection of the handler it has run:
    the rejected value is the handler's, the world is the one the handler
    left, and the completion message is not logged.  The wait-for-url
    handler does not catch: on the built-in registry, a command matched by
    the wait-for-url pattern whose [page.waitForFunction] call is rejected
    with [e] makes [runAction] reject with that same [e]. *)
Theorem rejection_propagates :
  forall (acts : list (Action W E Browser)) (action : Action W E Browser)
         (browser : Browser) (page : Page W E) (options : Options W)
         (actionString S : Str) (w : W),
    find (fun a => RegExp.test (match_ a) actionString) acts = Some action ->
    RegExp.test Patterns.wait_for_url S = true ->
    runAction acts browser page options actionString w =
      match run action browser page options
                (String_match actionString (match_ action))
                (log_debug options (running_message actionString) w) with
      | (Rejected e, w') => (Rejected e, w')
      | (Resolved _, w') =>
          (Resolved tt, log_debug options complete_message w')
      end
    /\
    exists (property : Str) (expectedValue : JsVal) (negated : bool),
      runAction actions browser page options S w =
        match waitForFunction page wait_for_url_in_page emptyObject
                property expectedValue negated
                (log_debug options (running_message S) w) with
        | (Some e, w') => (Rejected (Raised e), w')
        | (None, w') =>
            (Resolved tt, log_debug options complete_message w')
        end.
Proof.
  intros acts action browser page options actionString S w Hfind Hwait.
  split.
  - rewrite (runAction_found _ _ _ _ _ _ Hfind).
    destruct (run action _ _ _ _ _) as [[[]|e] w']; reflexivity.
  - rewrite (runAction_found _ _ _ _ _ _ (find_wait_for_url W E Browser S Hwait)).
    destruct (test_true _ _ Hwait) as [A HA].
    unfold String_match. simpl match_. rewrite HA.
    apply wait_for_url_shape in HA.
    destruct HA as (subject & g2 & g3 & expectedValue & -> & _).
    rewrite run_wait_for_url.
    exists (location_property (Some subject)), (Some expectedValue),
           (negb (strictEq g3 undefined)).
    destruct (waitForFunction page _ _ _ _ _ _) as [[e|] w']; reflexivity.
Qed.

End WaitForUrlClaims.

Section ConcreteCommands.
Context {U : UnicodeData}.
Variables W E Browser : Type.

(** C10.  The optional qualifier of a pattern can be left unmatched, so a
    command made of the action word and the qualifier word alone is valid
    and is dispatched with the qualifier word as selector: [click element]
    calls [page.click] with the selector [element], and [check field]
    evaluates the in-page function with the selector [field] and
    [checked = true].  Neither command is rejected as unresolved. *)
Theorem qualifier_word_taken_as_selector :
  forall (browser : Browser) (page : Page W E) (options : Options W) (w : W),
    String_match (lit "click element") Patterns.click_element =
      Some [Some (lit "click element"); undefined; Some (lit "element")] /\
    isValidAction (@actions W E Browser) (lit "click element") = true /\
    runAction actions browser page options (lit "click element") w =
      match click page (Some (lit "element"))
                  (log_debug options
                     (running_message (lit "click element")) w) with
      | (Some _, w') =>
          (Rejected
             (Error_ (lit "Failed action: no element matching selector "
                        ++ dquote ++ lit "element" ++ dquote)), w')
      | (None, w') => (Resolved tt, log_debug options complete_message w')
      end /\
    String_match (lit "check field") Patterns.check_field =
      Some [Some (lit "check field"); Some (lit "check"); undefined;
            Some (lit "field")] /\
    isValidAction (@actions W E Browser) (lit "check field") = true /\
    runAction actions browser page options (lit "check field") w =
      match evaluate page check_field_in_page (Some (lit "field")) true
                     (log_debug options
                        (running_message (lit "check field")) w) with
      | (Some _, w') =>
          (Rejected
             (Error_ (lit "Failed action: no element matching selector "
                        ++ dquote ++ lit "field" ++ dquote)), w')
      | (None, w') => (Resolved tt, log_debug options complete_message w')
      end.
Proof.
  intros browser page options w.
  assert (Hc : RegExp.exec Patterns.click_element (lit "click element") =
               Some [Some (lit "click element"); undefined;
                     Some (lit "element")])
    by (vm_compute; reflexivity).
  assert (Hf : RegExp.exec Patterns.check_field (lit "check field") =
               Some [Some (lit "check field"); Some (lit "check"); undefined;
                     Some (lit "field")])
    by (vm_compute; reflexivity).
  assert (Tc : RegExp.test Patterns.click_element (lit "click element") = true)
    by (unfold RegExp.test; rewrite Hc; reflexivity).
  assert (Tf : RegExp.test Patterns.check_field (lit "check field") = true)
    by (unfold RegExp.test; rewrite Hf; reflexivity).
  split; [exact Hc|]. split.
  { apply (proj2 (existsb_exists _ _)). exists click_element.
    split; [left; reflexivity|exact Tc]. }
  split.
  { rewrite (runAction_found _ _ _ _ _ _ (find_click_element W E Browser _ Tc)).
    unfold String_match. simpl match_. rewrite Hc.
    rewrite run_click_element.
    destruct (click page _ _) as [[e|] w']; reflexivity. }
  split; [exact Hf|]. split.
  { apply (proj2 (existsb_exists _ _)). exists check_field.
    split; [right; right; left; reflexivity|exact Tf]. }
  rewrite (runAction_found _ _ _ _ _ _ (find_check_field W E Browser _ Tf)).
  unfold String_match. simpl match_. rewrite Hf.
  rewrite run_check_field.
  replace (negb (Str_eqb (lit "check") (lit "uncheck"))) with true
    by reflexivity.
  destruct (evaluate page _ _ _ _) as [[e|] w']; reflexivity.
Qed.

(** C3, the code at an upper-case command.  The check-field pattern has
    the [i] flag and accepts [UNCHECK field .agree]; the first capture is
    then [UNCHECK], which the handler compares with the lower-case
    [uncheck], so the in-page function is evaluated with [checked = true].
    The lower-case command passes [checked = false]. *)
Theorem uppercase_uncheck_passes_true :
  forall (browser : Browser) (page : Page W E) (options : Options W) (w : W),
    String_match (lit "UNCHECK field .agree") Patterns.check_field =
      Some [Some (lit "UNCHECK field .agree"); Some (lit "UNCHECK");
            Some (lit " field"); Some (lit ".agree")] /\
    runAction actions browser page options (lit "UNCHECK field .agree") w =
      match evaluate page check_field_in_page (Some (lit ".agree")) true
                     (log_debug options
                        (running_message (lit "UNCHECK field .agree")) w) with
      | (Some _, w') =>
          (Rejected
             (Error_ (lit "Failed action: no element matching selector "
                        ++ dquote ++ lit ".agree" ++ dquote)), w')
      | (None, w') => (Resolved tt, log_debug options complete_message w')
      end /\
    runAction actions browser page options (lit "uncheck field .agree") w =
      match evaluate page check_field_in_page (Some (lit ".agree")) false
                     (log_debug options
                        (running_message (lit "uncheck field .agree")) w) with
      | (Some _, w') =>
          (Rejected
             (Error_ (lit "Failed action: no element matching selector "
                        ++ dquote ++ lit ".agree" ++ dquote)), w')
      | (None, w') => (Resolved tt, log_debug options complete_message w')
      end.
Proof.
  intros browser page options w.
  assert (HU : RegExp.exec Patterns.check_field (lit "UNCHECK field .agree") =
               Some [Some (lit "UNCHECK field .agree"); Some (lit "UNCHECK");
                     Some (lit " field"); Some (lit ".agree")])
    by (vm_compute; reflexivity).
  assert (Hl : RegExp.exec Patterns.check_field (lit "uncheck field .agree") =
               Some [Some (lit "uncheck field .agree"); Some (lit "uncheck");
                     Some (lit " field"); Some (lit ".agree")])
    by (vm_compute; reflexivity).
  assert (TU : RegExp.test Patterns.check_field (lit "UNCHECK field .agree")
               = true)
    by (unfold RegExp.test; rewrite HU; reflexivity).
  assert (Tl : RegExp.test Patterns.check_field (lit "uncheck field .agree")
               = true)
    by (unfold RegExp.test; rewrite Hl; reflexivity).
  split; [exact HU|]. split.
  - rewrite (runAction_found _ _ _ _ _ _ (find_check_field W E Browser _ TU)).
    unfold String_match. simpl match_. rewrite HU.
    rewrite run_check_field.
    replace (negb (Str_eqb (lit "UNCHECK") (lit "uncheck"))) with true
      by reflexivity.
    destruct (evaluate page _ _ _ _) as [[e|] w']; reflexivity.
  - rewrite (runAction_found _ _ _ _ _ _ (find_check_field W E Browser _ Tl)).
    unfold String_match. simpl match_. rewrite Hl.
    rewrite run_check_field.
    replace (negb (Str_eqb (lit "uncheck") (lit "uncheck"))) with false
      by reflexivity.
    destruct (evaluate page _ _ _ _) as [[e|] w']; reflexivity.
Qed.

(** C4, the code at an upper-case subject.  The wait-for-url pattern has
    the [i] flag and accepts [wait for PATH to be /x]; the first capture
    is then [PATH], which the [switch] compares with the lower-case
    labels, so the default applies and [href] is polled, not [pathname].
    The same happens for [Hash], where [hash] was meant.  The lower-case
    command polls [pathname]. *)
Theorem uppercase_subject_polls_href :
  forall (browser : Browser) (page : Page W E) (options : Options W) (w : W),
    String_match (lit "wait for PATH to be /x") Patterns.wait_for_url =
      Some [Some (lit "wait for PATH to be /x"); Some (lit "PATH");
            Some (lit " to be"); undefined; Some (lit "/x")] /\
    runAction actions browser page options (lit "wait for PATH to be /x") w =
      match waitForFunction page wait_for_url_in_page emptyObject
              (lit "href") (Some (lit "/x")) false
              (log_debug options
                 (running_message (lit "wait for PATH to be /x")) w) with
      | (Some e, w') => (Rejected (Raised e), w')
      | (None, w') => (Resolved tt, log_debug options complete_message w')
      end /\
    runAction actions browser page options (lit "wait for path to be /x") w =
      match waitForFunction page wait_for_url_in_page emptyObject
              (lit "pathname") (Some (lit "/x")) false
              (log_debug options
                 (running_message (lit "wait for path to be /x")) w) with
      | (Some e, w') => (Rejected (Raised e), w')
      | (None, w') => (Resolved tt, log_debug options complete_message w')
      end /\
    runAction actions browser page options (lit "wait for Hash to be #a") w =
      match waitForFunction page wait_for_url_in_page emptyObject
              (lit "href") (Some (lit "#a")) false
              (log_debug options
                 (running_message (lit "wait for Hash to be #a")) w) with
      | (Some e, w') => (Rejected (Raised e), w')
      | (None, w') => (Resolved tt, log_debug options complete_message w')
      end.
Proof.
  intros browser page options w.
  assert (HU : RegExp.exec Patterns.wait_for_url (lit "wait for PATH to be /x")
               = Some [Some (lit "wait for PATH to be /x"); Some (lit "PATH");
                       Some (lit " to be"); undefined; Some (lit "/x")])
    by (vm_compute; reflexivity).
  assert (Hl : RegExp.exec Patterns.wait_for_url (lit "wait for path to be /x")
               = Some [Some (lit "wait for path to be /x"); Some (lit "path");
                       Some (lit " to be"); undefined; Some (lit "/x")])
    by (vm_compute; reflexivity).
  assert (Hh : RegExp.exec Patterns.wait_for_url (lit "wait for Hash to be #a")
               = Some [Some (lit "wait for Hash to be #a"); Some (lit "Hash");
                       Some (lit " to be"); undefined; Some (lit "#a")])
    by (vm_compute; reflexivity).
  assert (TU : RegExp.test Patterns.wait_for_url (lit "wait for PATH to be /x")
               = true) by (unfold RegExp.test; rewrite HU; reflexivity).
  assert (Tl : RegExp.test Patterns.wait_for_url (lit "wait for path to be /x")
               = true) by (unfold RegExp.test; rewrite Hl; reflexivity).
  assert (Th : RegExp.test Patterns.wait_for_url (lit "wait for Hash to be #a")
               = true) by (unfold RegExp.test; rewrite Hh; reflexivity).
  split; [exact HU|]. split; [|split].
  - rewrite (runAction_found _ _ _ _ _ _ (find_wait_for_url W E Browser _ TU)).
    unfold String_match. simpl match_. rewrite HU.
    rewrite run_wait_for_url.
    replace (location_property (Some (lit "PATH"))) with (lit "href")
      by reflexivity.
    replace (negb (strictEq undefined undefined)) with false by reflexivity.
    destruct (waitForFunction page _ _ _ _ _ _) as [[e|] w']; reflexivity.
  - rewrite (runAction_found _ _ _ _ _ _ (find_wait_for_url W E Browser _ Tl)).
    unfold String_match. simpl match_. rewrite Hl.
    rewrite run_wait_for_url.
    replace (location_property (Some (lit "path"))) with (lit "pathname")
      by reflexivity.
    replace (negb (strictEq undefined undefined)) with false by reflexivity.
    destruct (waitForFunction page _ _ _ _ _ _) as [[e|] w']; reflexivity.
  - rewrite (runAction_found _ _ _ _ _ _ (find_wait_for_url W E Browser _ Th)).
    unfold String_match. simpl match_. rewrite Hh.
    rewrite run_wait_for_url.
    replace (location_property (Some (lit "Hash"))) with (lit "href")
      by reflexivity.
    replace (negb (strictEq undefined undefined)) with false by reflexivity.
    destruct (waitForFunction page _ _ _ _ _ _) as [[e|] w']; reflexivity.
Qed.

(** The boolean of the check-field action in general: it is [false]
    exactly when the first capture is the lower-case word [uncheck]. *)
Lemma check_field_boolean (S : Str) (A : list JsVal) :
  String_match S Patterns.check_field = Some A ->
  exists (word selector : Str),
    nth 1 A undefined = Some word /\
    nth 3 A undefined = Some selector /\
    (keyword_of word "check" \/ keyword_of word "uncheck") /\
    forall (browser : Browser) (page : Page W E) (options : Options W) (w : W),
      run check_field browser page options (Some A) w =
      match evaluate page check_field_in_page (Some selector)
                     (negb (Str_eqb word (lit "uncheck"))) w with
      | (Some _, w') =>
          (Rejected
             (Error_ (lit "Failed action: no element matching selector "
                        ++ dquote ++ selector ++ dquote)), w')
      | (None, w') => (Resolved tt, w')
      end.
Proof.
  intros H. apply check_field_shape in H.
  destruct H as (word & g2 & selector & -> & Hw & _).
  exists word, selector. repeat split; try assumption.
  intros. apply run_check_field.
Qed.

End ConcreteCommands.

(* ================================================================== *)
(** * Instances on concrete commands *)
(* ================================================================== *)

Section Instances.
#[local] Existing Instance ascii_table.

Local Abbreviation registry := (@actions (Trace unit) unit unit).
Local Abbreviation stubs :=
  (stubActions unit fulfilled 0 [re_foo; re_bar; re_any_bar]).
Local Abbreviation rejecting_stubs :=
  (stubActions unit rejecting 0 [re_foo; re_bar; re_any_bar]).

Lemma runAction_unresolved_witness :
  (forall a, In a registry -> RegExp.test (match_ a) (lit "baz 123") = false)
  /\
  runAction registry tt (recordingPage fulfilled) recordingOptions
            (lit "baz 123") [] =
    (Rejected
       (Error_ (lit "Failed action: " ++ dquote ++ lit "baz 123" ++ dquote
                  ++ lit " cannot be resolved")), []).
Proof.
  assert (H : forall a, In a registry ->
                        RegExp.test (match_ a) (lit "baz 123") = false).
  { intros a [<-|[<-|[<-|[<-|[]]]]]; vm_compute; reflexivity. }
  split; [exact H|].
  exact (proj1 (runAction_unresolved registry tt (recordingPage fulfilled)
                  recordingOptions (lit "baz 123") [] H)).
Defined.

Lemma runAction_first_match_witness :
  (forall a', In a' [stubAction unit fulfilled 0 re_foo] ->
              RegExp.test (match_ a') (lit "bar 123") = false) /\
  RegExp.test re_bar (lit "bar 123") = true /\
  RegExp.test re_any_bar (lit "bar 123") = true /\
  runAction stubs tt (recordingPage fulfilled) recordingOptions
            (lit "bar 123") [] =
    (Resolved tt,
     [CallDebug (running_message (lit "bar 123"));
      CallRun 1 (Some [Some (lit "bar")]);
      CallDebug complete_message]).
Proof.
  assert (H1 : forall a', In a' [stubAction unit fulfilled 0 re_foo] ->
                          RegExp.test (match_ a') (lit "bar 123") = false).
  { intros a' [<-|[]]; vm_compute; reflexivity. }
  assert (H2 : RegExp.test re_bar (lit "bar 123") = true)
    by (vm_compute; reflexivity).
  assert (H3 : RegExp.test re_any_bar (lit "bar 123") = true)
    by (vm_compute; reflexivity).
  split; [exact H1|]. split; [exact H2|]. split; [exact H3|].
  destruct (runAction_first_match
              [stubAction unit fulfilled 0 re_foo]
              (stubAction unit fulfilled 1 re_bar)
              [stubAction unit fulfilled 2 re_any_bar]
              (stubAction unit fulfilled 2 re_any_bar)
              tt (recordingPage fulfilled) recordingOptions
              (lit "bar 123") [] H1 H2 (or_introl eq_refl) H3)
    as (matches & Hm & Hrun & _).
  refine (eq_trans Hrun _).
  assert (Hc : Some matches = Some [Some (lit "bar")])
    by (rewrite <- Hm; vm_compute; reflexivity).
  injection Hc as ->. vm_compute. reflexivity.
Defined.

Lemma selector_failure_remapped_witness :
  String_match (lit "click .foo") Patterns.click_element =
    Some [Some (lit "click .foo"); undefined; Some (lit ".foo")] /\
  String_match (lit "set field .user to alice") Patterns.set_field_value =
    Some [Some (lit "set field .user to alice"); Some (lit " field");
          Some (lit ".user"); Some (lit "alice")] /\
  forall script : Trace unit -> Call unit -> option unit,
    script [] (CallClick (Some (lit ".foo"))) = Some tt ->
    run click_element tt (recordingPage script) recordingOptions
        (Some [Some (lit "click .foo"); undefined; Some (lit ".foo")]) [] =
    (Rejected
       (Error_ (lit "Failed action: no element matching selector "
                  ++ dquote ++ lit ".foo" ++ dquote)),
     [CallClick (Some (lit ".foo"))]).
Proof.
  assert (H1 : String_match (lit "click .foo") Patterns.click_element =
               Some [Some (lit "click .foo"); undefined; Some (lit ".foo")])
    by (vm_compute; reflexivity).
  assert (H2 : String_match (lit "set field .user to alice")
                            Patterns.set_field_value =
               Some [Some (lit "set field .user to alice");
                     Some (lit " field"); Some (lit ".user");
                     Some (lit "alice")])
    by (vm_compute; reflexivity).
  split; [exact H1|]. split; [exact H2|].
  intros script Hs.
  destruct (@selector_failure_remapped _ (Trace unit) unit unit _ _ _ _ H1 H2)
    as [(selector & Hsel & Hrun) _].
  injection Hsel as <-.
  refine (eq_trans (Hrun tt (recordingPage script) recordingOptions []) _).
  simpl. unfold stub. rewrite Hs. reflexivity.
Defined.

Lemma set_field_value_focus_then_type_witness :
  String_match (lit "set field .user to alice") Patterns.set_field_value =
    Some [Some (lit "set field .user to alice"); Some (lit " field");
          Some (lit ".user"); Some (lit "alice")] /\
  snd (run set_field_value tt (recordingPage fulfilled) recordingOptions
           (Some [Some (lit "set field .user to alice"); Some (lit " field");
                  Some (lit ".user"); Some (lit "alice")]) []) =
    [CallFocus (Some (lit ".user")); CallType (Some (lit "alice"))].
Proof.
  assert (H : String_match (lit "set field .user to alice")
                           Patterns.set_field_value =
              Some [Some (lit "set field .user to alice");
                    Some (lit " field"); Some (lit ".user");
                    Some (lit "alice")])
    by (vm_compute; reflexivity).
  split; [exact H|].
  destruct (@set_field_value_focus_then_type _ (Trace unit) unit unit _ _ H)
    as (selector & value & Hsel & Hval & _ & Htrace).
  injection Hsel as <-. injection Hval as <-.
  exact (Htrace tt fulfilled []).
Defined.

Lemma wait_for_url_negation_witness :
  String_match (lit "wait for path to not be /login") Patterns.wait_for_url =
    Some [Some (lit "wait for path to not be /login"); Some (lit "path");
          Some (lit " to not be"); Some (lit "not "); Some (lit "/login")] /\
  exists negated : bool,
    negated = true /\
    forall (page : Page (Trace unit) unit) (w : Trace unit),
      run wait_for_url tt page recordingOptions
          (Some [Some (lit "wait for path to not be /login");
                 Some (lit "path"); Some (lit " to not be");
                 Some (lit "not "); Some (lit "/login")]) w =
      call (waitForFunction page wait_for_url_in_page emptyObject
              (lit "pathname") (Some (lit "/login")) negated) w.
Proof.
  assert (H : String_match (lit "wait for path to not be /login")
                           Patterns.wait_for_url =
              Some [Some (lit "wait for path to not be /login");
                    Some (lit "path"); Some (lit " to not be");
                    Some (lit "not "); Some (lit "/login")])
    by (vm_compute; reflexivity).
  split; [exact H|].
  destruct (@wait_for_url_negation _ (Trace unit) unit unit _ _ H)
    as (subject & g2 & g3 & expectedValue & negated & HA & Hneg & _ & Hrun
        & _).
  injection HA as <- <- <- <-.
  exists negated. split.
  - apply Hneg. discriminate.
  - intros page w. exact (Hrun tt page recordingOptions w).
Defined.

Lemma rejection_propagates_witness :
  find (fun a => RegExp.test (match_ a) (lit "bar 123")) rejecting_stubs =
    Some (stubAction unit rejecting 1 re_bar) /\
  RegExp.test Patterns.wait_for_url (lit "wait for url to be /done") = true /\
  runAction rejecting_stubs tt (recordingPage rejecting) recordingOptions
            (lit "bar 123") [] =
    (Rejected (Raised tt),
     [CallDebug (running_message (lit "bar 123"));
      CallRun 1 (Some [Some (lit "bar")])]) /\
  exists (property : Str) (expectedValue : JsVal) (negated : bool),
    runAction registry tt (recordingPage rejecting) recordingOptions
              (lit "wait for url to be /done") [] =
    match waitForFunction (recordingPage rejecting) wait_for_url_in_page
            emptyObject property expectedValue negated
            [CallDebug (running_message (lit "wait for url to be /done"))]
    with
    | (Some e, w') => (Rejected (Raised e), w')
    | (None, w') => (Resolved tt, w' ++ [CallDebug complete_message])
    end.
Proof.
  assert (H1 : find (fun a => RegExp.test (match_ a) (lit "bar 123"))
                    rejecting_stubs =
               Some (stubAction unit rejecting 1 re_bar))
    by (vm_compute; reflexivity).
  assert (H2 : RegExp.test Patterns.wait_for_url
                 (lit "wait for url to be /done") = true)
    by (vm_compute; reflexivity).
  split; [exact H1|]. split; [exact H2|].
  destruct (@rejection_propagates _ _ _ _ rejecting_stubs _ tt
              (recordingPage rejecting) recordingOptions (lit "bar 123")
              (lit "wait for url to be /done") [] H1 H2) as [Hrun Hwait].
  split; [|exact Hwait].
  refine (eq_trans Hrun _). vm_compute. reflexivity.
Defined.

End Instances.

(* ================================================================== *)
(** * Completeness of the matcher *)
(* ================================================================== *)

Section MatcherComplete.
Import RegExp RegExpSpec.
Context {U : UnicodeData}.
Variable icase : bool.
Variable Input : Str.

Local Abbreviation compile := (compile icase Input).
Local Abbreviation reaches := (reaches icase Input).
Local Abbreviation within := (within Input).

Lemma clear_nil (cap : list JsVal) : clear [] cap = cap.
Proof. reflexivity. Qed.

Lemma iterate_within (step : MatchState -> MatchState -> Prop) ks :
  (forall x y, step x y -> within x y) ->
  forall n x y, iterate step ks n x y -> within x y /\ n <= length Input - endIndex x.
Proof.
  intros Hs n. induction n as [|n IH]; intros x y H; simpl in H.
  - subst. unfold within. lia.
  - destruct H as (m & H1 & Hne & H2).
    apply Hs in H1. apply IH in H2. unfold within, cleared in *. simpl in *. lia.
Qed.

Lemma reaches_within r : forall x y, reaches r x y -> within x y.
Proof.
  induction r; intros x y H; simpl in H.
  - subst. unfold within. lia.
  - destruct H as (ch & Hn & _ & ->).
    assert (endIndex x < length Input) by (apply nth_error_Some; congruence).
    unfold within. simpl. lia.
  - destruct H as (ch & Hn & _ & ->).
    assert (endIndex x < length Input) by (apply nth_error_Some; congruence).
    unfold within. simpl. lia.
  - destruct H as [_ ->]. unfold within. lia.
  - destruct H as [_ ->]. unfold within. lia.
  - destruct H as (m & H1 & H2). apply IHr1 in H1. apply IHr2 in H2.
    unfold within in *. lia.
  - destruct H as [H|H]; auto.
  - destruct H as (m & H1 & ->). apply IHr in H1. unfold within in *. simpl. lia.
  - destruct H as [->|[H _]]; [unfold within; lia|].
    apply IHr in H. unfold within, cleared in *. simpl in *. lia.
  - destruct H as (n & H). eapply iterate_within in H; [|exact IHr]. tauto.
  - destruct H as (m & H1 & n & H2).
    apply IHr in H1. eapply iterate_within in H2; [|exact IHr].
    unfold within, cleared in *. simpl in *. lia.
Qed.

Lemma RepeatLoop_complete m step ks k :
  complete_matcher m step ->
  forall n fuel x y, iterate step ks n x y -> n <= fuel -> k y <> None ->
    RepeatLoop m ks k fuel x <> None.
Proof.
  intros Hm n. induction n as [|n IH]; intros fuel x y H Hn Hk; simpl in H.
  - subst y. destruct fuel; simpl; [assumption|].
    destruct (m _ _); [discriminate|assumption].
  - destruct fuel as [|fuel]; [lia|].
    destruct H as (m1 & H1 & Hne & H2). simpl.
    assert (Hd : m (mkState (endIndex x) (clear ks (captures x)))
                   (fun y0 => if Nat.eqb (endIndex y0) (endIndex x) then None
                              else RepeatLoop m ks k fuel y0) <> None).
    { apply (Hm _ m1); [exact H1|].
      apply Nat.eqb_neq in Hne. rewrite Hne.
      apply (IH fuel m1 y); [assumption|lia|assumption]. }
    destruct (m _ _); [discriminate|contradiction].
Qed.

Lemma compile_complete r : complete_matcher (compile r) (reaches r).
Proof.
  induction r; intros x y k H Hk; simpl in H |- *.
  - subst. assumption.
  - destruct H as (ch & Hn & Hc & ->). unfold CharacterSetMatcher.
    rewrite Hn. apply N.eqb_eq in Hc. rewrite Hc. assumption.
  - destruct H as (ch & Hn & Hc & ->). unfold CharacterSetMatcher.
    rewrite Hn, Hc. assumption.
  - destruct H as [He ->]. rewrite He. assumption.
  - destruct H as [He ->]. unfold InputLength. rewrite He, Nat.eqb_refl. assumption.
  - destruct H as (m & H1 & H2). apply (IHr1 _ m); [assumption|].
    apply (IHr2 _ y); assumption.
  - destruct H as [H|H].
    + pose proof (IHr1 _ _ _ H Hk). destruct (compile r1 x k); [discriminate|contradiction].
    + destruct (compile r1 x k); [discriminate|]. apply (IHr2 _ y); assumption.
  - destruct H as (m & H1 & ->). apply (IHr _ m); assumption.
  - destruct H as [->|[H Hne]].
    + destruct (compile r _ _); [discriminate|assumption].
    + assert (Hd : compile r (mkState (endIndex x) (clear (parens r) (captures x)))
                     (fun y0 => if Nat.eqb (endIndex y0) (endIndex x) then None else k y0) <> None).
      { apply (IHr _ y); [exact H|]. apply Nat.eqb_neq in Hne. rewrite Hne. assumption. }
      destruct (compile r _ _); [discriminate|contradiction].
  - destruct H as (n & H).
    assert (Hn : n <= length Input - endIndex x)
      by (eapply iterate_within; [apply reaches_within|exact H]).
    eapply RepeatLoop_complete; eauto.
  - destruct H as (m & H1 & n & H2).
    apply (IHr _ m); [exact H1|].
    assert (Hn : n <= length Input - endIndex m)
      by (eapply iterate_within; [apply reaches_within|exact H2]).
    eapply RepeatLoop_complete; eauto.
Qed.

End MatcherComplete.

(** A match that starts at index 0 makes [test] succeed. *)
Lemma test_complete {U : UnicodeData} (R : RegExp.RegExp) (S : Str) y :
  RegExpSpec.reaches (RegExp.ignoreCase R) S (RegExp.source R)
    (RegExp.mkState 0 (repeat undefined (1 + RegExp.NcapturingParens (RegExp.source R)))) y ->
  RegExp.test R S = true.
Proof.
  intros H. unfold RegExp.test, RegExp.exec. simpl RegExp.scan.
  assert (Hm : RegExp.matcher (RegExp.ignoreCase R) S (RegExp.source R) 0 <> None).
  { unfold RegExp.matcher. eapply compile_complete; [exact H|discriminate]. }
  destruct (RegExp.matcher _ _ _ 0); [reflexivity|contradiction].
Qed.

(* ================================================================== *)
(** * Building matches; single lines *)
(* ================================================================== *)

Section Intro.
Import RegExp RegExpSpec.
Context {U : UnicodeData}.
Variable icase : bool.
Variable Input : Str.

Local Abbreviation reaches := (reaches icase Input).

Lemma nth_error_middle {A} (pre : list A) (c : A) (post : list A) :
  nth_error (pre ++ c :: post) (length pre) = Some c.
Proof.
  rewrite nth_error_app2 by lia. rewrite Nat.sub_diag. reflexivity.
Qed.

(** A literal matches where the input spells it. *)
Lemma reaches_chars_intro l : forall pre s post cap,
  Input = pre ++ s ++ post ->
  Forall2 (same_char icase) s l ->
  reaches (chars l) (mkState (length pre) cap)
          (mkState (length pre + length l) cap).
Proof.
  induction l as [|a l IH]; intros pre s post cap HI HF.
  - simpl. rewrite Nat.add_0_r. reflexivity.
  - inversion HF as [|ch a' s' l' Hc HF' E1 E2]; subst s.
    assert (Hn : nth_error Input (length pre) = Some ch)
      by (rewrite HI; apply nth_error_middle).
    assert (Hstep : reaches (Char (N_of_ascii a)) (mkState (length pre) cap)
                      (mkState (S (length pre)) cap)).
    { simpl. exists ch. repeat split; assumption. }
    destruct l as [|b l].
    + simpl chars. simpl length. replace (length pre + 1) with (S (length pre)) by lia.
      exact Hstep.
    + change (chars (a :: b :: l)) with (Seq (Char (N_of_ascii a)) (chars (b :: l))).
      simpl reaches. exists (mkState (S (length pre)) cap). split; [exact Hstep|].
      specialize (IH (pre ++ [ch]) s' post cap).
      rewrite length_app in IH. simpl length in IH.
      replace (length pre + S (S (length l))) with (length pre + 1 + S (length l)) by lia.
      replace (S (length pre)) with (length pre + 1) by lia.
      apply IH; [|assumption].
      rewrite HI, <- app_assoc. reflexivity.
Qed.

Lemma iterate_Dot_intro : forall s pre post cap,
  Input = pre ++ s ++ post ->
  single_line s ->
  iterate (reaches Dot) [] (length s) (mkState (length pre) cap)
          (mkState (length pre + length s) cap).
Proof.
  induction s as [|ch s IH]; intros pre post cap HI Hs.
  - simpl. rewrite Nat.add_0_r. reflexivity.
  - apply Forall_cons_iff in Hs. destruct Hs as [Hc Hs'].
    simpl iterate. exists (mkState (S (length pre)) cap). split; [|split].
    + simpl. exists ch. repeat split; [rewrite HI; apply nth_error_middle|assumption].
    + simpl. lia.
    + specialize (IH (pre ++ [ch]) post cap).
      rewrite length_app in IH. simpl length in IH.
      replace (S (length pre)) with (length pre + 1) by lia.
      replace (length pre + S (length s)) with (length pre + 1 + length s) by lia.
      apply IH; [|assumption]. rewrite HI, <- app_assoc. reflexivity.
Qed.

(** [.+] matches any non-empty stretch without line terminators. *)
Lemma reaches_Plus_Dot_intro s pre post cap :
  Input = pre ++ s ++ post ->
  s <> [] ->
  single_line s ->
  reaches (Plus Dot) (mkState (length pre) cap)
          (mkState (length pre + length s) cap).
Proof.
  intros HI Hne Hs. destruct s as [|ch s]; [contradiction|].
  apply Forall_cons_iff in Hs. destruct Hs as [Hc Hs'].
  simpl. exists (mkState (S (length pre)) cap). split.
  - exists ch. repeat split; [rewrite HI; apply nth_error_middle|assumption].
  - exists (length s).
    pose proof (@iterate_Dot_intro s (pre ++ [ch]) post cap) as H.
    rewrite length_app in H. simpl length in H.
    replace (S (length pre)) with (length pre + 1) by lia.
    replace (length pre + S (length s)) with (length pre + 1 + length s) by lia.
    apply H; [|assumption]. rewrite HI, <- app_assoc. reflexivity.
Qed.

(** [.+], read backwards: the stretch consumed is non-empty, inside the
    input and free of line terminators. *)
Lemma iterate_Dot_line n : forall x y,
  iterate (reaches Dot) [] n x y ->
  captures y = captures x /\ endIndex x <= endIndex y <= Nat.max (endIndex x) (length Input) /\
  single_line (substring Input (endIndex x) (endIndex y)).
Proof.
  induction n as [|n IH]; intros x y H; simpl in H.
  - subst. split; [reflexivity|]. split; [lia|].
    unfold substring. rewrite Nat.sub_diag. constructor.
  - destruct H as (m & (ch & Hn & Hc & ->) & _ & H).
    apply IH in H. cbn [endIndex captures] in H. destruct H as (-> & Hb & Hl).
    assert (endIndex x < length Input) by (apply nth_error_Some; congruence).
    split; [reflexivity|]. split; [lia|].
    replace (endIndex y) with (endIndex x + S (endIndex y - S (endIndex x))) by lia.
    rewrite (@substring_cons Input (endIndex x) _ ch Hn).
    constructor; [assumption|].
    replace (S (endIndex x) + (endIndex y - S (endIndex x))) with (endIndex y) by lia.
    assumption.
Qed.

Lemma reaches_Plus_Dot_line x y :
  reaches (Plus Dot) x y ->
  captures y = captures x /\ endIndex x < endIndex y <= length Input /\
  single_line (substring Input (endIndex x) (endIndex y)).
Proof.
  simpl. intros (m & (ch & Hn & Hc & ->) & n & H).
  apply iterate_Dot_line in H. cbn [endIndex captures] in H.
  destruct H as (-> & Hb & Hl).
  assert (endIndex x < length Input) by (apply nth_error_Some; congruence).
  split; [reflexivity|]. split; [lia|].
  replace (endIndex y) with (endIndex x + S (endIndex y - S (endIndex x))) by lia.
  rewrite (@substring_cons Input (endIndex x) _ ch Hn).
  constructor; [assumption|].
  replace (S (endIndex x) + (endIndex y - S (endIndex x))) with (endIndex y) by lia.
  assumption.
Qed.

End Intro.

Section Segments.
Import RegExp.
Context {U : UnicodeData}.

Lemma firstn_add {A} (l : list A) : forall a b,
  firstn (a + b) l = firstn a l ++ firstn b (skipn a l).
Proof.
  induction l as [|x l IH]; intros [|a] b; simpl;
    try reflexivity.
  - rewrite firstn_nil. reflexivity.
  - rewrite IH. reflexivity.
Qed.

Lemma substring_join (S : Str) (i j k : nat) :
  i <= j -> j <= k ->
  substring S i k = substring S i j ++ substring S j k.
Proof.
  intros Hij Hjk. unfold substring.
  replace (k - i) with ((j - i) + (k - j)) by lia.
  rewrite firstn_add, skipn_skipn.
  replace (j - i + i) with j by lia. reflexivity.
Qed.

Lemma substring_same (S : Str) (i : nat) : substring S i i = [].
Proof. unfold substring. rewrite Nat.sub_diag. reflexivity. Qed.

Lemma single_line_join (S : Str) (i j k : nat) :
  i <= j -> j <= k ->
  single_line (substring S i j) -> single_line (substring S j k) ->
  single_line (substring S i k).
Proof.
  intros Hij Hjk H1 H2. rewrite (substring_join S Hij Hjk).
  apply Forall_app. split; assumption.
Qed.

Lemma asciiUpper_terminator (c : CodeUnit) :
  isLineTerminator c = true -> asciiUpper c = c.
Proof.
  unfold isLineTerminator, asciiUpper. intros H.
  repeat (apply orb_true_iff in H; destruct H as [H|H]);
    apply N.eqb_eq in H; subst; reflexivity.
Qed.

Lemma same_chars_single_line (s : Str) (l : list ascii) :
  forallb plain_ascii l = true ->
  Forall2 (same_char true) s l ->
  single_line s.
Proof.
  intros Hl H. induction H as [|ch a s l Hc H IH]; [constructor|].
  simpl in Hl. apply andb_true_iff in Hl. destruct Hl as [Ha Hl].
  unfold plain_ascii in Ha. apply andb_true_iff in Ha. destruct Ha as [Ha1 Ha2].
  apply N.ltb_lt in Ha1.
  constructor; [|exact (IH Hl)].
  destruct (isLineTerminator ch) eqn:Ht; [|reflexivity].
  pose proof (same_char_upper Ha1 Hc) as Hu.
  rewrite (asciiUpper_terminator _ Ht) in Hu. rewrite <- Hu, Ht in Ha2.
  discriminate.
Qed.

Lemma same_char_intro (ch : CodeUnit) (a : ascii) :
  (N_of_ascii a < 128)%N ->
  asciiUpper ch = asciiUpper (N_of_ascii a) ->
  same_char true ch a.
Proof.
  intros Ha H. unfold same_char. rewrite (Canonicalize_ascii Ha).
  destruct (N.ltb ch 128) eqn:Hch.
  - apply N.ltb_lt in Hch. rewrite (Canonicalize_ascii Hch). exact H.
  - apply N.ltb_ge in Hch. pose proof (asciiUpper_lt Ha) as Hlt.
    rewrite <- H in Hlt. unfold asciiUpper in Hlt.
    destruct (N.leb 97 ch && N.leb ch 122)%bool eqn:Hr; [|lia].
    apply andb_true_iff in Hr. destruct Hr as [_ Hr]. apply N.leb_le in Hr. lia.
Qed.

Lemma keyword_same_chars (s : Str) (w : string) :
  forallb (fun a => N.ltb (N_of_ascii a) 128) (list_ascii_of_string w) = true ->
  keyword_of s w ->
  Forall2 (same_char true) s (list_ascii_of_string w).
Proof.
  unfold keyword_of, lit. generalize (list_ascii_of_string w). clear w.
  intros l. revert s. induction l as [|a l IH]; intros s Hl H.
  - destruct s; [constructor|discriminate].
  - destruct s as [|ch s]; [discriminate|].
    simpl in Hl, H. apply andb_true_iff in Hl. destruct Hl as [Ha Hl].
    apply N.ltb_lt in Ha. injection H as H1 H2.
    constructor; [apply same_char_intro; assumption|auto].
Qed.

Lemma keyword_length (s : Str) (w : string) :
  keyword_of s w -> length s = String.length w.
Proof.
  unfold keyword_of, lit. intros H.
  apply (f_equal (@length _)) in H. rewrite !length_map in H.
  rewrite H. clear H. induction w; simpl; auto.
Qed.

(** A space matches only itself. *)
Lemma keyword_space (s : Str) : keyword_of s " " -> s = [32%N].
Proof.
  unfold keyword_of. simpl. intros H.
  destruct s as [|c [|? ?]]; try discriminate.
  injection H as H. f_equal.
  change (asciiUpper 32%N) with 32%N in H.
  unfold asciiUpper in H.
  destruct (N.leb 97 c && N.leb c 122)%bool eqn:Hr; [|assumption].
  apply andb_true_iff in Hr. destruct Hr as [Hr _]. apply N.leb_le in Hr. lia.
Qed.

End Segments.

Ltac walk_lines H :=
  lazymatch type of H with
  | RegExpSpec.reaches _ _ (RegExp.Seq _ _) _ _ =>
      let m := fresh "m" in
      let H1 := fresh "HA" in
      let H2 := fresh "HB" in
      apply reaches_Seq_inv in H; destruct H as (m & H1 & H2);
      walk_lines H1; walk_lines H2
  | RegExpSpec.reaches _ _ (RegExp.Group _ _) _ _ =>
      let m := fresh "m" in
      let H1 := fresh "HA" in
      let H2 := fresh "HB" in
      apply reaches_Group_inv in H; destruct H as (m & H1 & H2); walk_lines H1
  | RegExpSpec.reaches _ _ (RegExp.Alt _ _) _ _ =>
      let H1 := fresh "HA" in
      apply reaches_Alt_inv in H; destruct H as [H1|H1]; walk_lines H1
  | RegExpSpec.reaches _ _ (RegExp.Opt _) _ _ =>
      let H1 := fresh "HA" in
      apply reaches_Opt_inv in H; destruct H as [H1|H1];
      [idtac | walk_lines H1]
  | RegExpSpec.reaches _ _ (RegExp.str _) _ _ =>
      let H1 := fresh "HA" in
      let HF := fresh "Hlit" in
      apply reaches_str in H; destruct H as [H1 HF]
  | RegExpSpec.reaches _ _ (RegExp.Plus RegExp.Dot) _ _ =>
      let H1 := fresh "Hcap" in
      let HF := fresh "Hlen" in
      let HL := fresh "Hline" in
      apply reaches_Plus_Dot_line in H; destruct H as (H1 & HF & HL)
  | RegExpSpec.reaches _ _ RegExp.AssertStart _ _ =>
      let H1 := fresh "HA" in
      let HF := fresh "Hstart" in
      apply reaches_AssertStart_inv in H; destruct H as [HF H1]
  | RegExpSpec.reaches _ _ RegExp.AssertEnd _ _ =>
      let H1 := fresh "HA" in
      let HF := fresh "Hend" in
      apply reaches_AssertEnd_inv in H; destruct H as [HF H1]
  | _ => idtac
  end.

Ltac start_lines H init :=
  let i := fresh "i" in
  let y := fresh "y" in
  let Hi := fresh "Hi" in
  let Hr := fresh "Hr" in
  apply exec_sound in H; destruct H as (i & y & Hi & Hr & ->);
  cbv [Patterns.click_element Patterns.set_field_value Patterns.check_field
       Patterns.wait_for_url] in Hr;
  cbn [RegExp.seq RegExp.source RegExp.ignoreCase] in Hr;
  change (repeat undefined _) with init in Hr;
  walk_lines Hr; settle.

Ltac lines :=
  lazymatch goal with
  | |- single_line (substring _ ?i ?i) =>
      rewrite substring_same; constructor
  | H : single_line (substring ?S ?i ?k) |- single_line (substring ?S ?i ?k) =>
      exact H
  | _ =>
      match goal with
      | H : Forall2 (same_char true) (substring ?S ?i ?j) ?l
        |- single_line (substring ?S ?i ?k) =>
          apply (@single_line_join S i j k);
          [lia | lia | exact (@same_chars_single_line _ _ l eq_refl H) | lines]
      | H : single_line (substring ?S ?i ?j)
        |- single_line (substring ?S ?i ?k) =>
          apply (@single_line_join S i j k); [lia | lia | exact H | lines]
      end
  end.

Section Lines.
Import RegExp.
Context {U : UnicodeData}.

Lemma click_element_line (S : Str) (A : list JsVal) :
  exec Patterns.click_element S = Some A -> single_line S.
Proof.
  intros H. start_lines H [undefined; undefined; undefined].
  all: rewrite <- (substring_whole S); lines.
Qed.

Lemma set_field_value_line (S : Str) (A : list JsVal) :
  exec Patterns.set_field_value S = Some A -> single_line S.
Proof.
  intros H. start_lines H [undefined; undefined; undefined; undefined].
  all: rewrite <- (substring_whole S); lines.
Qed.

Lemma check_field_line (S : Str) (A : list JsVal) :
  exec Patterns.check_field S = Some A -> single_line S.
Proof.
  intros H. start_lines H [undefined; undefined; undefined; undefined].
  all: rewrite <- (substring_whole S); lines.
Qed.

Lemma wait_for_url_line (S : Str) (A : list JsVal) :
  exec Patterns.wait_for_url S = Some A -> single_line S.
Proof.
  intros H.
  start_lines H [undefined; undefined; undefined; undefined; undefined].
  all: rewrite <- (substring_whole S); lines.
Qed.

End Lines.

(* ================================================================== *)
(** * The commands the built-in patterns accept *)
(* ================================================================== *)

Section At.
Import RegExp RegExpSpec.
Context {U : UnicodeData}.
Variable Input : Str.

Lemma Forall_firstn' {A} (P : A -> Prop) (l : list A) : forall n,
  Forall P l -> Forall P (firstn n l).
Proof.
  induction l as [|x l IH]; intros [|n] H; simpl; try constructor.
  - apply Forall_cons_iff in H. tauto.
  - apply IH. apply Forall_cons_iff in H. tauto.
Qed.

Lemma Forall_skipn' {A} (P : A -> Prop) (l : list A) : forall n,
  Forall P l -> Forall P (skipn n l).
Proof.
  induction l as [|x l IH]; intros [|n] H; simpl; try assumption.
  apply IH. apply Forall_cons_iff in H. tauto.
Qed.

Lemma single_line_substring (S : Str) (i j : nat) :
  single_line S -> single_line (substring S i j).
Proof.
  intros H. unfold substring. apply Forall_firstn', Forall_skipn'. exact H.
Qed.

(** The literal [w] at index [e]. *)
Lemma reaches_keyword_at (w : string) (e : nat) (pre s post : Str) cap :
  forallb (fun a => N.ltb (N_of_ascii a) 128) (list_ascii_of_string w) = true ->
  Input = pre ++ s ++ post ->
  e = length pre ->
  keyword_of s w ->
  reaches true Input (str w) (mkState e cap)
          (mkState (e + String.length w) cap).
Proof.
  intros Hw HI -> Hk.
  replace (String.length w) with (length (list_ascii_of_string w))
    by (clear; induction w; simpl; auto).
  apply reaches_chars_intro with (s := s) (post := post); [exact HI|].
  apply keyword_same_chars; assumption.
Qed.

Lemma reaches_Plus_Dot_at (e : nat) (pre s post : Str) cap :
  Input = pre ++ s ++ post ->
  e = length pre ->
  s <> [] ->
  single_line s ->
  reaches true Input (Plus Dot) (mkState e cap) (mkState (e + length s) cap).
Proof.
  intros HI -> Hne Hs. apply reaches_Plus_Dot_intro with (post := post); assumption.
Qed.

Lemma Forall2_firstn {A B} (R : A -> B -> Prop) (l : list A) (l' : list B) :
  Forall2 R l l' -> forall n, Forall2 R (firstn n l) (firstn n l').
Proof.
  intros H. induction H as [|x y l l' Hxy H IH]; intros [|n]; simpl;
    constructor; auto.
Qed.

(** The first [n] characters of a stretch that spells a literal spell the
    first [n] characters of the literal. *)
Lemma same_chars_prefix (S : Str) (i k n : nat) (l : list ascii) :
  Forall2 (same_char true) (substring S i k) l ->
  i + n <= k ->
  Forall2 (same_char true) (substring S i (i + n)) (firstn n l).
Proof.
  intros H Hn.
  replace (substring S i (i + n)) with (firstn n (substring S i k)).
  - apply Forall2_firstn. exact H.
  - unfold substring. rewrite firstn_firstn.
    replace (Nat.min n (k - i)) with n by lia.
    replace (i + n - i) with n by lia. reflexivity.
Qed.

End At.

Lemma keyword_of_space : keyword_of [32%N] " ".
Proof. reflexivity. Qed.

(** The space the patterns require at index [i]. *)
Ltac space_at S i :=
  match goal with
  | H : Forall2 (same_char true) (substring S i ?k) ?l |- _ =>
      exact (@keyword_space _
               (@same_chars_keyword _ (substring S i (i + 1)) " " eq_refl
                  (@same_chars_prefix _ S i k 1 l H ltac:(lia))))
  end.

Section Language.
Import RegExp RegExpSpec.
Context {U : UnicodeData}.

(** The click pattern accepts the word [click], a space and a non-empty
    selector on one line. *)
Lemma click_element_accepts (w selector : Str) :
  keyword_of w "click" -> selector <> [] -> single_line selector ->
  RegExp.test Patterns.click_element (w ++ [32%N] ++ selector) = true.
Proof.
  intros Hw Hne Hl.
  pose proof (keyword_length Hw) as Lw. simpl in Lw.
  eapply test_complete.
  cbv [Patterns.click_element].
  cbn [RegExp.seq RegExp.source RegExp.ignoreCase RegExpSpec.reaches
       RegExp.NcapturingParens RegExp.parens].
  eexists. split; [split; reflexivity|].
  eexists. split.
  { apply reaches_keyword_at with (pre := []) (s := w)
                                  (post := [32%N] ++ selector);
      [reflexivity|reflexivity|reflexivity|exact Hw]. }
  eexists. split; [left; reflexivity|].
  eexists. split.
  { apply reaches_keyword_at with (pre := w) (s := [32%N]) (post := selector);
      [reflexivity|reflexivity|simpl; lia|reflexivity]. }
  eexists. split.
  { eexists. split; [|reflexivity].
    apply reaches_Plus_Dot_at with (pre := w ++ [32%N]) (s := selector)
                                   (post := []);
      [rewrite app_nil_r, <- app_assoc; reflexivity
      |rewrite length_app; simpl; lia|exact Hne|exact Hl]. }
  split; [|reflexivity].
  simpl. rewrite !length_app. simpl. lia.
Qed.

(** X1.  The commands the click-element pattern accepts are exactly: the
    word [click] in any letter case, one space, and a non-empty rest
    without line terminators (the rest may itself begin with the word
    [element]). *)
Theorem click_element_language (S : Str) :
  RegExp.test Patterns.click_element S = true <->
  exists w selector : Str,
    S = w ++ [32%N] ++ selector /\ keyword_of w "click" /\
    selector <> [] /\ single_line selector.
Proof.
  split.
  - intros H. destruct (test_true _ _ H) as [A HA].
    pose proof (click_element_line _ HA) as HL.
    start_lines HA [undefined; undefined; undefined].
    all: exists (substring S 0 5), (substring S 6 (length S)).
    all: split; [|split; [keyword|split;
           [apply substring_nonempty; lia|apply single_line_substring; exact HL]]].
    all: rewrite <- (substring_whole S) at 1.
    all: rewrite (@substring_join S 0 5 (length S)) by lia.
    all: rewrite (@substring_join S 5 (5 + 1) (length S)) by lia.
    all: replace (substring S 5 (5 + 1)) with [32%N]
           by (symmetry; space_at S 5).
    all: reflexivity.
  - intros (w & sel & -> & Hw & Hne & Hl).
    apply click_element_accepts; assumption.
Qed.

(** X3.  The commands the check-field pattern accepts are exactly: the
    word [check] or [uncheck] in any letter case, one space, and a
    non-empty rest without line terminators. *)
Theorem check_field_language (S : Str) :
  RegExp.test Patterns.check_field S = true <->
  exists w selector : Str,
    S = w ++ [32%N] ++ selector /\
    (keyword_of w "check" \/ keyword_of w "uncheck") /\
    selector <> [] /\ single_line selector.
Proof.
  split.
  - intros H. destruct (test_true _ _ H) as [A HA].
    pose proof (check_field_line _ HA) as HL.
    start_lines HA [undefined; undefined; undefined; undefined];
    lazymatch goal with
         | Hw : Forall2 (same_char true) (substring S 0 ?a) _ |- _ =>
             exists (substring S 0 a), (substring S (a + 1) (length S));
             split;
             [|split;
               [first [left; keyword | right; keyword]
               |split; [apply substring_nonempty; lia
                       |apply single_line_substring; exact HL]]];
             rewrite <- (substring_whole S) at 1;
             rewrite (@substring_join S 0 a (length S)) by lia;
             rewrite (@substring_join S a (a + 1) (length S)) by lia;
             assert (Hsp : substring S a (a + 1) = [32%N])
               by (space_at S a);
             rewrite Hsp; reflexivity
         end.
  - intros (w & sel & -> & Hw & Hne & Hl).
    destruct Hw as [Hw|Hw]; pose proof (keyword_length Hw) as Lw;
      simpl in Lw; eapply test_complete; cbv [Patterns.check_field];
      cbn [RegExp.seq RegExp.source RegExp.ignoreCase RegExpSpec.reaches
           RegExp.NcapturingParens RegExp.parens];
      (eexists; split; [split; reflexivity|]).
    + eexists. split.
      { eexists. split; [|reflexivity]. left.
        apply reaches_keyword_at with (pre := []) (s := w)
                                      (post := [32%N] ++ sel);
          [reflexivity|reflexivity|reflexivity|exact Hw]. }
      eexists. split; [left; reflexivity|].
      eexists. split.
      { apply reaches_keyword_at with (pre := w) (s := [32%N]) (post := sel);
          [reflexivity|reflexivity|simpl; lia|reflexivity]. }
      eexists. split.
      { eexists. split; [|reflexivity].
        apply reaches_Plus_Dot_at with (pre := w ++ [32%N]) (s := sel)
                                       (post := []);
          [rewrite app_nil_r, <- app_assoc; reflexivity
          |rewrite length_app; simpl; lia|exact Hne|exact Hl]. }
      split; [|reflexivity].
      simpl. rewrite !length_app. simpl. lia.
    + eexists. split.
      { eexists. split; [|reflexivity]. right.
        apply reaches_keyword_at with (pre := []) (s := w)
                                      (post := [32%N] ++ sel);
          [reflexivity|reflexivity|reflexivity|exact Hw]. }
      eexists. split; [left; reflexivity|].
      eexists. split.
      { apply reaches_keyword_at with (pre := w) (s := [32%N]) (post := sel);
          [reflexivity|reflexivity|simpl; lia|reflexivity]. }
      eexists. split.
      { eexists. split; [|reflexivity].
        apply reaches_Plus_Dot_at with (pre := w ++ [32%N]) (s := sel)
                                       (post := []);
          [rewrite app_nil_r, <- app_assoc; reflexivity
          |rewrite length_app; simpl; lia|exact Hne|exact Hl]. }
      split; [|reflexivity].
      simpl. rewrite !length_app. simpl. lia.
Qed.

(** X2.  The commands the set-field-value pattern accepts are exactly:
    the word [set] in any letter case, one space, a non-empty selector,
    the separator [ to ] in any letter case and a non-empty value, with no
    line terminator in selector or value. *)
Theorem set_field_value_language (S : Str) :
  RegExp.test Patterns.set_field_value S = true <->
  exists w selector t value : Str,
    S = w ++ [32%N] ++ selector ++ t ++ value /\
    keyword_of w "set" /\ keyword_of t " to " /\
    selector <> [] /\ value <> [] /\
    single_line selector /\ single_line value.
Proof.
  split.
  - intros H. destruct (test_true _ _ H) as [A HA].
    pose proof (set_field_value_line _ HA) as HL.
    start_lines HA [undefined; undefined; undefined; undefined];
    lazymatch goal with
         | Ht : Forall2 (same_char true) (substring S ?e (?e + 4)) _ |- _ =>
             exists (substring S 0 3), (substring S 4 e),
                    (substring S e (e + 4)), (substring S (e + 4) (length S));
             split;
             [|split; [keyword|split; [keyword|split;
                [apply substring_nonempty; lia|split;
                [apply substring_nonempty; lia|split;
                [apply single_line_substring; exact HL
                |apply single_line_substring; exact HL]]]]]];
             rewrite <- (substring_whole S) at 1;
             rewrite (@substring_join S 0 3 (length S)) by lia;
             rewrite (@substring_join S 3 (3 + 1) (length S)) by lia;
             rewrite (@substring_join S (3 + 1) e (length S)) by lia;
             rewrite (@substring_join S e (e + 4) (length S)) by lia;
             assert (Hsp : substring S 3 (3 + 1) = [32%N])
               by (space_at S 3);
             rewrite Hsp; reflexivity
         end.
  - intros (w & sel & t & v & -> & Hw & Ht & Hs & Hv & Ls & Lv).
    pose proof (keyword_length Hw) as Lw. simpl in Lw.
    pose proof (keyword_length Ht) as Lt. simpl in Lt.
    eapply test_complete.
    cbv [Patterns.set_field_value].
    cbn [RegExp.seq RegExp.source RegExp.ignoreCase RegExpSpec.reaches
         RegExp.NcapturingParens RegExp.parens].
    eexists. split; [split; reflexivity|].
    eexists. split.
    { apply reaches_keyword_at with (pre := []) (s := w)
                                    (post := [32%N] ++ sel ++ t ++ v);
        [reflexivity|reflexivity|reflexivity|exact Hw]. }
    eexists. split; [left; reflexivity|].
    eexists. split.
    { apply reaches_keyword_at with (pre := w) (s := [32%N])
                                    (post := sel ++ t ++ v);
        [reflexivity|reflexivity|simpl; lia|reflexivity]. }
    eexists. split.
    { eexists. split; [|reflexivity].
      apply reaches_Plus_Dot_at with (pre := w ++ [32%N]) (s := sel)
                                     (post := t ++ v);
        [rewrite <- app_assoc; reflexivity
        |rewrite length_app; simpl; lia|exact Hs|exact Ls]. }
    eexists. split.
    { apply reaches_keyword_at with (pre := w ++ [32%N] ++ sel) (s := t)
                                    (post := v);
        [reflexivity|rewrite <- !app_assoc; reflexivity
        |simpl; rewrite !length_app; simpl; lia|exact Ht]. }
    eexists. split.
    { eexists. split; [|reflexivity].
      apply reaches_Plus_Dot_at with (pre := w ++ [32%N] ++ sel ++ t) (s := v)
                                     (post := []);
        [rewrite app_nil_r, <- !app_assoc; reflexivity
        |simpl; rewrite !length_app; simpl; rewrite length_app; lia
        |exact Hv|exact Lv]. }
    split; [|reflexivity].
    simpl. rewrite !length_app. simpl. rewrite !length_app. lia.
Qed.

Ltac wait_build w subject v Hw Hk Hne Hl pick :=
  eapply test_complete; cbv [Patterns.wait_for_url];
  cbn [RegExp.seq RegExp.source RegExp.ignoreCase RegExpSpec.reaches
       RegExp.NcapturingParens RegExp.parens];
  (eexists; split; [split; reflexivity|]);
  (eexists; split;
   [apply reaches_keyword_at with (pre := []) (s := w)
                                  (post := subject ++ [32%N] ++ v);
    [reflexivity|reflexivity|reflexivity|exact Hw]|]);
  (eexists; split;
   [eexists; split; [|reflexivity]; pick;
    apply reaches_keyword_at with (pre := w) (s := subject)
                                  (post := [32%N] ++ v);
    [reflexivity|reflexivity|simpl; lia|exact Hk]|]);
  (eexists; split; [left; reflexivity|]);
  (eexists; split;
   [apply reaches_keyword_at with (pre := w ++ subject) (s := [32%N])
                                  (post := v);
    [reflexivity|rewrite <- app_assoc; reflexivity
    |simpl; rewrite length_app; lia|reflexivity]|]);
  (eexists; split;
   [eexists; split; [|reflexivity];
    apply reaches_Plus_Dot_at with (pre := w ++ subject ++ [32%N]) (s := v)
                                   (post := []);
    [rewrite app_nil_r, <- !app_assoc; reflexivity
    |simpl; rewrite !length_app; simpl; lia|exact Hne|exact Hl]|]);
  (split; [|reflexivity]);
  simpl; rewrite !length_app; simpl; lia.

(** X4.  The commands the wait-for-url pattern accepts are exactly: the
    words [wait for ] and one of [fragment], [hash], [path], [url], in any
    letter case, one space, and a non-empty rest without line
    terminators. *)
Theorem wait_for_url_language (S : Str) :
  RegExp.test Patterns.wait_for_url S = true <->
  exists w subject expectedValue : Str,
    S = w ++ subject ++ [32%N] ++ expectedValue /\
    keyword_of w "wait for " /\
    (keyword_of subject "fragment" \/ keyword_of subject "hash" \/
     keyword_of subject "path" \/ keyword_of subject "url") /\
    expectedValue <> [] /\ single_line expectedValue.
Proof.
  split.
  - intros H. destruct (test_true _ _ H) as [A HA].
    pose proof (wait_for_url_line _ HA) as HL.
    start_lines HA [undefined; undefined; undefined; undefined; undefined];
    lazymatch goal with
    | Hs : Forall2 (same_char true) (substring S 9 ?b) _ |- _ =>
        exists (substring S 0 9), (substring S 9 b),
               (substring S (b + 1) (length S));
        split;
        [|split; [keyword|split;
           [first [left; keyword | right; left; keyword
                  | right; right; left; keyword
                  | right; right; right; keyword]
           |split; [apply substring_nonempty; lia
                   |apply single_line_substring; exact HL]]]];
        rewrite <- (substring_whole S) at 1;
        rewrite (@substring_join S 0 9 (length S)) by lia;
        rewrite (@substring_join S 9 b (length S)) by lia;
        rewrite (@substring_join S b (b + 1) (length S)) by lia;
        assert (Hsp : substring S b (b + 1) = [32%N]) by (space_at S b);
        rewrite Hsp; reflexivity
    end.
  - intros (w & subject & v & -> & Hw & Hk & Hne & Hl).
    pose proof (keyword_length Hw) as Lw. simpl in Lw.
    destruct Hk as [Hk|[Hk|[Hk|Hk]]];
      pose proof (keyword_length Hk) as Lk; simpl in Lk.
    + wait_build w subject v Hw Hk Hne Hl ltac:(left).
    + wait_build w subject v Hw Hk Hne Hl ltac:(right; left).
    + wait_build w subject v Hw Hk Hne Hl ltac:(right; right; left).
    + wait_build w subject v Hw Hk Hne Hl ltac:(right; right; right).
Qed.

End Language.

(* ================================================================== *)
(** * Further properties of the dispatcher and of the built-in registry *)
(* ================================================================== *)

Section RegistryFacts.
Context {U : UnicodeData}.
Variables W E Browser : Type.

Local Abbreviation registry := (@actions W E Browser).

(** X5.  No command is matched by two of the four built-in patterns, so the
    order of the built-in registry does not matter. *)
Theorem builtin_patterns_disjoint :
  forall S : Str,
    length (filter (fun a => RegExp.test (match_ a) S) registry) <= 1.
Proof.
  intros S. unfold actions. simpl filter.
  destruct (RegExp.test Patterns.click_element S) eqn:H1;
    destruct (RegExp.test Patterns.set_field_value S) eqn:H2;
    destruct (RegExp.test Patterns.check_field S) eqn:H3;
    destruct (RegExp.test Patterns.wait_for_url S) eqn:H4;
    simpl; try lia; exfalso;
    repeat match goal with
    | H : RegExp.test _ S = true |- _ =>
        apply test_true in H; destruct H as [? H]
    | H : RegExp.test _ S = false |- _ => clear H
    end;
    repeat match goal with
    | H : RegExp.exec Patterns.click_element S = Some _ |- _ =>
        apply click_element_head in H
    | H : RegExp.exec Patterns.set_field_value S = Some _ |- _ =>
        apply set_field_value_head in H
    | H : RegExp.exec Patterns.check_field S = Some _ |- _ =>
        apply check_field_head in H; destruct H as [H|H]
    | H : RegExp.exec Patterns.wait_for_url S = Some _ |- _ =>
        apply wait_for_url_head in H
    end;
    match goal with
    | Ha : head2 S = _, Hb : head2 S = _ |- _ =>
        rewrite Ha in Hb; discriminate
    end.
Qed.

(** X7.  [isValidAction] tells apart the two ways [runAction] can go: when it
    is [false] the call is rejected as unresolved and nothing else
    happens; when it is [true] the running message is logged and the
    handler of a registered action whose pattern matches is run. *)
Theorem isValidAction_guards_runAction :
  forall (acts : list (Action W E Browser)) (browser : Browser)
         (page : Page W E) (options : Options W) (actionString : Str) (w : W),
    if isValidAction acts actionString then
      exists action matches,
        In action acts /\
        RegExp.test (match_ action) actionString = true /\
        String_match actionString (match_ action) = Some matches /\
        runAction acts browser page options actionString w =
          match run action browser page options (Some matches)
                    (log_debug options (running_message actionString) w) with
          | (Resolved _, w') =>
              (Resolved tt, log_debug options complete_message w')
          | (Rejected e, w') => (Rejected e, w')
          end
    else
      runAction acts browser page options actionString w =
        (Rejected
           (Error_ (lit "Failed action: " ++ dquote ++ actionString ++ dquote
                      ++ lit " cannot be resolved")), w).
Proof.
  intros acts browser page options actionString w.
  destruct (isValidAction acts actionString) eqn:Hv.
  - unfold isValidAction in Hv.
    destruct (find (fun a => RegExp.test (match_ a) actionString) acts)
      as [action|] eqn:Hf.
    + pose proof (find_some _ _ Hf) as [Hin Ht].
      destruct (test_true _ _ Ht) as [matches Hm].
      exists action, matches. repeat split; try assumption.
      rewrite (runAction_found _ _ _ _ _ _ Hf).
      unfold String_match. rewrite Hm. reflexivity.
    + apply existsb_exists in Hv. destruct Hv as (a & Hin & Ht).
      pose proof (find_none _ _ Hf a Hin) as Hn. simpl in Hn. congruence.
  - apply runAction_not_found. apply find_nothing.
    intros a Ha. unfold isValidAction in Hv.
    destruct (RegExp.test (match_ a) actionString) eqn:Ht; [|reflexivity].
    assert (existsb (fun a0 => RegExp.test (match_ a0) actionString) acts = true)
      by (apply existsb_exists; eauto).
    congruence.
Qed.

(** X8.  A handler that is given [null] instead of a match array is rejected
    with a [TypeError] when it reads the first capture, before any call
    to the page; this rejection is not turned into the selector message,
    the reads being outside the [try] blocks. *)
Theorem null_matches_type_error :
  forall (browser : Browser) (page : Page W E) (options : Options W) (w : W),
    Forall (fun action : Action W E Browser =>
              run action browser page options None w = (Rejected TypeError_, w))
           registry.
Proof.
  intros. unfold actions. repeat constructor.
Qed.

End RegistryFacts.

(* ================================================================== *)
(** * The built-in registry as a whole *)
(* ================================================================== *)

(** [s] cut at [a], [c] and [b], with the space of the pattern between
    [c] and [b]. *)
Ltac cut_at s a c b :=
  let Hsp := fresh "Hsp" in
  assert (Hsp : substring s c b = [32%N])
    by (change b with (c + 1); space_at s c);
  rewrite <- (substring_whole s) at 1;
  rewrite (@substring_join s 0 a (length s)) by lia;
  rewrite (@substring_join s a c (length s)) by lia;
  rewrite (@substring_join s c b (length s)) by lia;
  rewrite Hsp; reflexivity.

(** The same for a set command: the qualifier ends at [c], the selector
    runs from [b] to [e] and the value starts at [f]. *)
Ltac set_cut s c b e f :=
  let Hsp := fresh "Hsp" in
  assert (Hsp : substring s c b = [32%N])
    by (change b with (c + 1); space_at s c);
  rewrite <- (substring_whole s) at 1;
  rewrite (@substring_join s 0 3 (length s)) by lia;
  rewrite (@substring_join s 3 c (length s)) by lia;
  rewrite (@substring_join s c b (length s)) by lia;
  rewrite (@substring_join s b e (length s)) by lia;
  rewrite (@substring_join s e f (length s)) by lia;
  rewrite Hsp; reflexivity.

Section Parts.
Import RegExp RegExpSpec.
Context {U : UnicodeData}.

(** check-field: the command is the first capture, the optional
    qualifier, a space and the selector. *)
Lemma check_field_parts (S : Str) (A : list JsVal) :
  exec Patterns.check_field S = Some A ->
  exists (word : Str) (g2 : JsVal) (selector q : Str),
    A = [Some S; Some word; g2; Some selector] /\
    S = word ++ q ++ [32%N] ++ selector /\
    ((g2 = undefined /\ q = []) \/ (g2 = Some q /\ keyword_of q " field")) /\
    (keyword_of word "check" \/ keyword_of word "uncheck") /\
    selector <> [] /\ single_line selector.
Proof.
  intros H. pose proof (check_field_line _ H) as HL.
  start_lines H [undefined; undefined; undefined; undefined];
  rewrite substring_whole;
  lazymatch goal with
  | |- exists _ _ _ _,
         [_; Some (substring ?s 0 ?a); undefined;
          Some (substring ?s ?b _)] = _ /\ _ =>
      exists (substring s 0 a), undefined, (substring s b (length s)),
             (substring s a a);
      split; [reflexivity|];
      split; [cut_at s a a b|];
      split; [left; split; [reflexivity|apply substring_same]|]
  | |- exists _ _ _ _,
         [_; Some (substring ?s 0 ?a); Some (substring ?s ?a ?c);
          Some (substring ?s ?b _)] = _ /\ _ =>
      exists (substring s 0 a), (Some (substring s a c)),
             (substring s b (length s)), (substring s a c);
      split; [reflexivity|];
      split; [cut_at s a c b|];
      split; [right; split; [reflexivity|keyword]|]
  end;
  (split; [first [left; keyword | right; keyword]|]);
  (split; [apply substring_nonempty; lia
          |apply single_line_substring; exact HL]).
Qed.

(** set-field-value: the command is [set], the optional qualifier, a
    space, the selector, [ to ] and the value. *)
Lemma set_field_value_parts (S : Str) (A : list JsVal) :
  exec Patterns.set_field_value S = Some A ->
  exists (g1 : JsVal) (selector value w q t : Str),
    A = [Some S; g1; Some selector; Some value] /\
    S = w ++ q ++ [32%N] ++ selector ++ t ++ value /\
    keyword_of w "set" /\
    ((g1 = undefined /\ q = []) \/ (g1 = Some q /\ keyword_of q " field")) /\
    keyword_of t " to " /\
    selector <> [] /\ value <> [] /\
    single_line selector /\ single_line value.
Proof.
  intros H. pose proof (set_field_value_line _ H) as HL.
  start_lines H [undefined; undefined; undefined; undefined];
  rewrite substring_whole;
  lazymatch goal with
  | |- exists _ _ _ _ _ _,
         [_; undefined; Some (substring ?s ?b ?e);
          Some (substring ?s ?f _)] = _ /\ _ =>
      exists undefined, (substring s b e), (substring s f (length s)),
             (substring s 0 3), (substring s 3 3), (substring s e f);
      split; [reflexivity|];
      split; [set_cut s 3 b e f|];
      split; [keyword|];
      split; [left; split; [reflexivity|apply substring_same]|]
  | |- exists _ _ _ _ _ _,
         [_; Some (substring ?s 3 ?c); Some (substring ?s ?b ?e);
          Some (substring ?s ?f _)] = _ /\ _ =>
      exists (Some (substring s 3 c)), (substring s b e),
             (substring s f (length s)),
             (substring s 0 3), (substring s 3 c), (substring s e f);
      split; [reflexivity|];
      split; [set_cut s c b e f|];
      split; [keyword|];
      split; [right; split; [reflexivity|keyword]|]
  end;
  (split; [keyword|]);
  (split; [apply substring_nonempty; lia|]);
  (split; [apply substring_nonempty; lia|]);
  (split; apply single_line_substring; exact HL).
Qed.

End Parts.

Lemma single_line_existsb (s : Str) :
  single_line s -> existsb RegExp.isLineTerminator s = false.
Proof.
  intros H. induction H as [|c s Hc H IH]; [reflexivity|].
  simpl. rewrite Hc, IH. reflexivity.
Qed.

Section BuiltinDispatch.
Context {U : UnicodeData}.
Variables W E Browser : Type.

Local Abbreviation registry := (@actions W E Browser).

(** X6.  A command that contains a line terminator (line feed, carriage
    return, U+2028 or U+2029) anywhere is matched by none of the built-in
    patterns: it is not valid, and [runAction] rejects it as unresolved
    without logging or calling the page. *)
Theorem multiline_command_unresolved :
  forall (browser : Browser) (page : Page W E) (options : Options W)
         (S : Str) (w : W),
    existsb RegExp.isLineTerminator S = true ->
    isValidAction registry S = false /\
    runAction registry browser page options S w =
      (Rejected
         (Error_ (lit "Failed action: " ++ dquote ++ S ++ dquote
                    ++ lit " cannot be resolved")), w).
Proof.
  intros browser page options S w HS.
  assert (Hall : forall a, In a registry -> RegExp.test (match_ a) S = false).
  { intros a Ha. destruct (RegExp.test (match_ a) S) eqn:Ht; [|reflexivity].
    exfalso. destruct (test_true _ _ Ht) as [A HA].
    assert (HL : single_line S).
    { destruct Ha as [<-|[<-|[<-|[<-|[]]]]]; simpl in HA.
      - exact (click_element_line _ HA).
      - exact (set_field_value_line _ HA).
      - exact (check_field_line _ HA).
      - exact (wait_for_url_line _ HA). }
    apply single_line_existsb in HL. congruence. }
  split.
  - unfold isValidAction.
    destruct (existsb _ registry) eqn:He; [|reflexivity].
    apply existsb_exists in He. destruct He as (a & Ha & Ht).
    rewrite (Hall a Ha) in Ht. discriminate.
  - apply runAction_not_found. apply find_nothing. exact Hall.
Qed.

(** X10.  A valid click command through [runAction]: after the running message
    the only call to the page is [page.click], with a selector that is a
    non-empty end of the command and has no line terminator; a rejection
    becomes the selector error, and the completion message is logged only
    when the click is fulfilled. *)
Theorem runAction_click_element :
  forall S : Str,
    RegExp.test Patterns.click_element S = true ->
    exists selector : Str,
      selector <> [] /\ single_line selector /\
      (exists before, S = before ++ selector) /\
      forall (browser : Browser) (page : Page W E) (options : Options W)
             (w : W),
        runAction registry browser page options S w =
        match click page (Some selector)
                    (log_debug options (running_message S) w) with
        | (Some _, w') =>
            (Rejected
               (Error_ (lit "Failed action: no element matching selector "
                          ++ dquote ++ selector ++ dquote)), w')
        | (None, w') => (Resolved tt, log_debug options complete_message w')
        end.
Proof.
  intros S H. destruct (test_true _ _ H) as [A HA].
  pose proof (click_element_line _ HA) as HL.
  pose proof (click_element_shape _ HA) as (g1 & selector & -> & Hne & before & Hb).
  exists selector. split; [exact Hne|]. split.
  { rewrite Hb in HL. apply Forall_app in HL. tauto. }
  split; [exists before; exact Hb|].
  intros. rewrite (runAction_found _ _ _ _ _ _ (find_click_element W E Browser _ H)).
  unfold String_match. simpl match_. rewrite HA. rewrite run_click_element.
  destruct (click page _ _) as [[e|] w']; reflexivity.
Qed.

(** X11.  A valid set-field command through [runAction]: the command is
    [set], the optional [ field], a space, the selector, [ to ] and the
    value, selector and value being the second and third captures, both
    non-empty and free of line terminators.  The calls to the page are
    [page.focus] with that selector and then, if that was fulfilled,
    [page.type] with that value. *)
Theorem runAction_set_field_value :
  forall S : Str,
    RegExp.test Patterns.set_field_value S = true ->
    exists (g1 : JsVal) (selector value : Str),
      String_match S Patterns.set_field_value =
        Some [Some S; g1; Some selector; Some value] /\
      (exists w q t : Str,
          S = w ++ q ++ [32%N] ++ selector ++ t ++ value /\
          keyword_of w "set" /\
          ((g1 = undefined /\ q = []) \/
           (g1 = Some q /\ keyword_of q " field")) /\
          keyword_of t " to ") /\
      selector <> [] /\ value <> [] /\
      single_line selector /\ single_line value /\
      forall (browser : Browser) (page : Page W E) (options : Options W)
             (w : W),
        runAction registry browser page options S w =
        match focus page (Some selector)
                    (log_debug options (running_message S) w) with
        | (Some _, w1) =>
            (Rejected
               (Error_ (lit "Failed action: no element matching selector "
                          ++ dquote ++ selector ++ dquote)), w1)
        | (None, w1) =>
            match type page (Some value) w1 with
            | (Some _, w2) =>
                (Rejected
                   (Error_
                      (lit "Failed action: no element matching selector "
                         ++ dquote ++ selector ++ dquote)), w2)
            | (None, w2) =>
                (Resolved tt, log_debug options complete_message w2)
            end
        end.
Proof.
  intros S H. destruct (test_true _ _ H) as [A HA].
  pose proof (set_field_value_parts _ HA)
    as (g1 & selector & value & w0 & q & t & -> & HS & Kw & Hq & Kt & Hs & Hv
        & Ls & Lv).
  exists g1, selector, value.
  split; [exact HA|].
  split; [exists w0, q, t; repeat split; assumption|].
  split; [exact Hs|]. split; [exact Hv|].
  split; [exact Ls|]. split; [exact Lv|].
  intros.
  rewrite (runAction_found _ _ _ _ _ _ (find_set_field_value W E Browser _ H)).
  unfold String_match. simpl match_. rewrite HA. rewrite run_set_field_value.
  destruct (focus page _ _) as [[e|] w1]; [reflexivity|].
  destruct (type page _ _) as [[e|] w2]; reflexivity.
Qed.

(** X12.  A valid check-field command through [runAction]: the command
    is its first word (the first capture, [check] or [uncheck] in some
    letter case), the optional [ field], a space and the selector (the
    third capture, non-empty, without line terminators).  The only call
    to the page is [page.evaluate] with the in-page function, that
    selector and a boolean that is [false] exactly when the first word is
    the lower-case [uncheck]; it is [true] for [check] in any letter
    case. *)
Theorem runAction_check_field :
  forall S : Str,
    RegExp.test Patterns.check_field S = true ->
    exists (word : Str) (g2 : JsVal) (selector : Str) (checked : bool),
      String_match S Patterns.check_field =
        Some [Some S; Some word; g2; Some selector] /\
      (exists q : Str,
          S = word ++ q ++ [32%N] ++ selector /\
          ((g2 = undefined /\ q = []) \/
           (g2 = Some q /\ keyword_of q " field"))) /\
      (keyword_of word "check" \/ keyword_of word "uncheck") /\
      (checked = false <-> word = lit "uncheck") /\
      (keyword_of word "check" -> checked = true) /\
      selector <> [] /\ single_line selector /\
      forall (browser : Browser) (page : Page W E) (options : Options W)
             (w : W),
        runAction registry browser page options S w =
        match evaluate page check_field_in_page (Some selector) checked
                       (log_debug options (running_message S) w) with
        | (Some _, w') =>
            (Rejected
               (Error_ (lit "Failed action: no element matching selector "
                          ++ dquote ++ selector ++ dquote)), w')
        | (None, w') => (Resolved tt, log_debug options complete_message w')
        end.
Proof.
  intros S H. destruct (test_true _ _ H) as [A HA].
  pose proof (check_field_parts _ HA)
    as (word & g2 & selector & q & -> & HS & Hq & Hw & Hne & Hl).
  exists word, g2, selector, (negb (Str_eqb word (lit "uncheck"))).
  split; [exact HA|].
  split; [exists q; split; assumption|].
  split; [exact Hw|]. split.
  { rewrite negb_false_iff. apply Str_eqb_eq. }
  split.
  { intros Hc. destruct (Str_eqb word (lit "uncheck")) eqn:He; [|reflexivity].
    apply Str_eqb_eq in He. subst word.
    apply (f_equal (@length _)) in Hc. discriminate. }
  split; [exact Hne|]. split; [exact Hl|].
  intros.
  rewrite (runAction_found _ _ _ _ _ _ (find_check_field W E Browser _ H)).
  unfold String_match. simpl match_. rewrite HA. rewrite run_check_field.
  destruct (evaluate page _ _ _ _) as [[e|] w']; reflexivity.
Qed.

End BuiltinDispatch.

(* ================================================================== *)
(** * Greedy and optional terms *)
(* ================================================================== *)

Section Greedy.
Import RegExp RegExpSpec.
Context {U : UnicodeData}.
Variable icase : bool.
Variable Input : Str.

Local Abbreviation compile := (compile icase Input).
Local Abbreviation reaches := (reaches icase Input).

Lemma substring_head (i j : nat) (ch : CodeUnit) :
  nth_error Input i = Some ch -> i < j ->
  substring Input i j = ch :: substring Input (S i) j.
Proof.
  intros Hn Hij.
  replace j with (i + S (j - S i)) at 1 by lia.
  rewrite (@substring_cons Input i (j - S i) ch Hn).
  replace (S i + (j - S i)) with j by lia. reflexivity.
Qed.

Lemma input_split (e j : nat) :
  e <= j -> j <= length Input ->
  Input = firstn e Input ++ substring Input e j ++ skipn j Input.
Proof.
  intros He Hj.
  rewrite <- (firstn_skipn e Input) at 1. f_equal.
  rewrite <- (firstn_skipn (j - e) (skipn e Input)) at 1.
  unfold substring. f_equal. rewrite skipn_skipn. f_equal. lia.
Qed.

(** Dots lead from [e] to [j] over a stretch without line terminators. *)
Lemma dots_reach (e j : nat) cap :
  e <= j -> j <= length Input ->
  single_line (substring Input e j) ->
  iterate (reaches Dot) [] (j - e) (mkState e cap) (mkState j cap).
Proof.
  intros He Hj Hl.
  pose proof (@iterate_Dot_intro U icase Input (substring Input e j)
                (firstn e Input) (skipn j Input) cap
                (input_split He Hj) Hl) as H.
  rewrite length_firstn, substring_length in H by lia.
  replace (Nat.min e (length Input)) with e in H by lia.
  replace (e + (j - e)) with j in H by lia. exact H.
Qed.

Lemma RepeatLoop_S (m : MatchState -> Continuation -> MatchResult)
    (ks : list nat) (c : Continuation) (fuel : nat) (x : MatchState) :
  RepeatLoop m ks c (S fuel) x =
  match m (mkState (endIndex x) (clear ks (captures x)))
          (fun y => if Nat.eqb (endIndex y) (endIndex x) then None
                    else RepeatLoop m ks c fuel y) with
  | Some z => Some z
  | None => c x
  end.
Proof. reflexivity. Qed.

Lemma compile_Dot_eq (x : MatchState) (c : Continuation) :
  compile Dot x c =
  match nth_error Input (endIndex x) with
  | Some ch =>
      if isLineTerminator ch then None
      else c (mkState (S (endIndex x)) (captures x))
  | None => None
  end.
Proof.
  simpl. unfold CharacterSetMatcher.
  destruct (nth_error Input (endIndex x)) as [ch|]; [|reflexivity].
  destruct (isLineTerminator ch); reflexivity.
Qed.

(** The greedy loop over [.]: the result comes from the longest stretch
    without line terminators after which the continuation succeeds. *)
Lemma RepeatLoop_Dot_greedy (k : Continuation) :
  forall fuel e cap z,
    e <= length Input -> length Input - e <= fuel ->
    RepeatLoop (compile Dot) [] k fuel (mkState e cap) = Some z ->
    exists j,
      e <= j <= length Input /\
      single_line (substring Input e j) /\
      k (mkState j cap) = Some z /\
      forall j', j < j' <= length Input ->
                 single_line (substring Input e j') ->
                 k (mkState j' cap) = None.
Proof.
  induction fuel as [|fuel IH]; intros e cap z He Hf H.
  - simpl in H. exists e. split; [lia|]. split.
    { rewrite substring_same. constructor. }
    split; [exact H|]. intros j' Hj'. lia.
  - rewrite RepeatLoop_S, compile_Dot_eq in H.
    cbn [endIndex captures clear fold_left] in H.
    destruct (nth_error Input e) as [ch|] eqn:Hn.
    + assert (Hlt : e < length Input) by (apply nth_error_Some; congruence).
      destruct (isLineTerminator ch) eqn:Hc.
      * exists e. split; [lia|]. split.
        { rewrite substring_same. constructor. }
        split; [exact H|]. intros j' Hj' Hl.
        rewrite (substring_head Hn) in Hl by lia.
        apply Forall_cons_iff in Hl. destruct Hl as [Hl _]. congruence.
      * replace (Nat.eqb (S e) e) with false in H
          by (symmetry; apply Nat.eqb_neq; lia).
        destruct (RepeatLoop (compile Dot) [] k fuel (mkState (S e) cap))
          as [z'|] eqn:HR.
        -- injection H as ->.
           apply IH in HR; [|lia|lia].
           destruct HR as (j & Hj & Hl & Hk & Hmax).
           exists j. split; [lia|]. split.
           { rewrite (substring_head Hn) by lia. constructor; assumption. }
           split; [exact Hk|]. intros j' Hj' Hl'.
           apply Hmax; [lia|].
           rewrite (substring_head Hn) in Hl' by lia.
           apply Forall_cons_iff in Hl'. tauto.
        -- exists e. split; [lia|]. split.
           { rewrite substring_same. constructor. }
           split; [exact H|]. intros j' Hj' Hl'.
           destruct (k (mkState j' cap)) as [z'|] eqn:Hk; [|reflexivity].
           exfalso.
           rewrite (substring_head Hn) in Hl' by lia.
           apply Forall_cons_iff in Hl'. destruct Hl' as [_ Hl'].
           assert (Hit : iterate (reaches Dot) [] (j' - S e)
                           (mkState (S e) cap) (mkState j' cap))
             by (apply dots_reach; [lia|lia|exact Hl']).
           assert (Hne : RepeatLoop (compile Dot) [] k fuel (mkState (S e) cap)
                         <> None).
           { eapply RepeatLoop_complete;
               [apply compile_complete|exact Hit|lia|congruence]. }
           contradiction.
    + assert (length Input <= e) by (apply nth_error_None; exact Hn).
      exists e. split; [lia|]. split.
      { rewrite substring_same. constructor. }
      split; [exact H|]. intros j' Hj'. lia.
Qed.

(** [.+] is greedy: among the stretches after which the continuation
    succeeds, the longest is taken. *)
Lemma Plus_Dot_greedy (k : Continuation) (e : nat) cap z :
  compile (Plus Dot) (mkState e cap) k = Some z ->
  exists j,
    e < j <= length Input /\
    single_line (substring Input e j) /\
    k (mkState j cap) = Some z /\
    forall j', j < j' <= length Input ->
               single_line (substring Input e j') ->
               k (mkState j' cap) = None.
Proof.
  intros H.
  change (compile (Plus Dot) (mkState e cap) k) with
    (compile Dot (mkState e (clear [] cap))
       (fun y => RepeatLoop (compile Dot) [] k
                   (InputLength Input - endIndex y) y)) in H.
  rewrite compile_Dot_eq in H.
  cbn [endIndex captures clear fold_left] in H.
  destruct (nth_error Input e) as [ch|] eqn:Hn; [|discriminate].
  assert (Hlt : e < length Input) by (apply nth_error_Some; congruence).
  destruct (isLineTerminator ch) eqn:Hc; [discriminate|].
  apply RepeatLoop_Dot_greedy in H; [|lia|unfold InputLength; lia].
  destruct H as (j & Hj & Hl & Hk & Hmax).
  exists j. split; [lia|]. split.
  { rewrite (substring_head Hn) by lia. constructor; assumption. }
  split; [exact Hk|]. intros j' Hj' Hl'.
  apply Hmax; [lia|].
  rewrite (substring_head Hn) in Hl' by lia.
  apply Forall_cons_iff in Hl'. tauto.
Qed.

End Greedy.

Section Peel.
Import RegExp RegExpSpec.
Context {U : UnicodeData}.
Variable icase : bool.
Variable Input : Str.

(** The first term of a sequence, taken off a successful match. *)
Lemma compile_Seq_inv r1 r2 x k z :
  compile icase Input (Seq r1 r2) x k = Some z ->
  exists y, reaches icase Input r1 x y /\
            compile icase Input r2 y k = Some z.
Proof.
  intros H.
  change (compile icase Input (Seq r1 r2) x k) with
    (compile icase Input r1 x (fun y => compile icase Input r2 y k)) in H.
  apply compile_sound in H. exact H.
Qed.

Lemma compile_last_inv r x z :
  compile icase Input r x (fun y => Some y) = Some z ->
  reaches icase Input r x z.
Proof.
  intros H. apply compile_sound in H.
  destruct H as (y & Hr & Hy). injection Hy as ->. exact Hr.
Qed.

End Peel.

Lemma exec_matcher {U : UnicodeData} (R : RegExp.RegExp) (S : Str)
    (A : list JsVal) :
  RegExp.exec R S = Some A ->
  exists i y,
    RegExp.matcher (RegExp.ignoreCase R) S (RegExp.source R) i = Some y /\
    A = Some (substring S i (RegExp.endIndex y)) :: tl (RegExp.captures y).
Proof.
  unfold RegExp.exec. intros H.
  destruct (RegExp.scan _ _ _ _ _) as [[i y]|] eqn:Hs; [|discriminate].
  injection H as <-. apply scan_sound in Hs. destruct Hs as [_ Hm].
  exists i, y. split; [exact Hm|reflexivity].
Qed.

Section GroupGreedy.
Import RegExp RegExpSpec.
Context {U : UnicodeData}.
Variable icase : bool.
Variable Input : Str.

(** A captured [.+] followed by the rest of a pattern: the capture is the
    longest stretch after which the rest matches. *)
Lemma compile_Group_Plus_Dot_inv n r2 e cap k z :
  compile icase Input (Seq (Group n (Plus Dot)) r2) (mkState e cap) k
    = Some z ->
  exists j,
    e < j <= length Input /\
    single_line (substring Input e j) /\
    compile icase Input r2
      (mkState j (set_nth n (Some (substring Input e j)) cap)) k = Some z /\
    forall j', j < j' <= length Input ->
      single_line (substring Input e j') ->
      compile icase Input r2
        (mkState j' (set_nth n (Some (substring Input e j')) cap)) k = None.
Proof.
  intros H.
  change (compile icase Input (Seq (Group n (Plus Dot)) r2) (mkState e cap) k)
    with (compile icase Input (Plus Dot) (mkState e cap)
            (fun y => compile icase Input r2
                        (mkState (endIndex y)
                           (set_nth n (Some (substring Input e (endIndex y)))
                                    (captures y))) k)) in H.
  apply Plus_Dot_greedy in H. exact H.
Qed.

End GroupGreedy.

Ltac peel H :=
  let y := fresh "y" in
  let Hr := fresh "Hr" in
  apply compile_Seq_inv in H; destruct H as (y & Hr & H); walk_lines Hr.

Lemma parens_str (s : string) : RegExp.parens (RegExp.str s) = [].
Proof.
  unfold RegExp.str. induction (list_ascii_of_string s) as [|a l IH];
    [reflexivity|].
  destruct l; [reflexivity|]. simpl in *. exact IH.
Qed.

Ltac tidy :=
  rewrite ?parens_str in *;
  cbn [RegExp.endIndex RegExp.captures RegExpSpec.cleared RegExp.parens
       RegExp.clear fold_left RegExp.set_nth length list_ascii_of_string
       Nat.add tl nth app] in *;
  subst;
  cbn [RegExp.endIndex RegExp.captures RegExpSpec.cleared RegExp.parens
       RegExp.clear fold_left RegExp.set_nth length list_ascii_of_string
       Nat.add tl nth app] in *.

Section SetGreedy.
Import RegExp RegExpSpec.
Context {U : UnicodeData}.

(** After the selector, [ to <value>] up to the end of the command is
    accepted wherever it stands. *)
Lemma to_value_accepted (pre t value : Str) cap :
  keyword_of t " to " -> value <> [] -> single_line value ->
  compile true (pre ++ t ++ value)
    (Seq (str " to ") (Seq (Group 3 (Plus Dot)) AssertEnd))
    (mkState (length pre) cap) (fun y => Some y) <> None.
Proof.
  intros Ht Hv Lv.
  pose proof (keyword_length Ht) as Lt. simpl in Lt.
  eapply compile_complete; [|intros Hx; discriminate Hx].
  cbn [RegExpSpec.reaches].
  eexists. split.
  { apply reaches_keyword_at with (pre := pre) (s := t) (post := value);
      [reflexivity|reflexivity|reflexivity|exact Ht]. }
  eexists. split.
  { eexists. split; [|reflexivity].
    apply reaches_Plus_Dot_at with (pre := pre ++ t) (s := value)
                                   (post := []);
      [rewrite app_nil_r, <- !app_assoc; reflexivity
      |rewrite length_app; simpl; lia|exact Hv|exact Lv]. }
  split; [|reflexivity].
  simpl. rewrite !length_app. lia.
Qed.

(** X13.  set-field-value splits at the last [ to ]: whatever other way the
    command can be read as [set <selector> to <value>], the value the
    action types is the shortest one. *)
Theorem set_field_value_splits_at_last_to :
  forall (S : Str) (A : list JsVal),
    String_match S Patterns.set_field_value = Some A ->
    exists selector value : Str,
      nth 2 A undefined = Some selector /\
      nth 3 A undefined = Some value /\
      forall w' selector' t' value' : Str,
        S = w' ++ [32%N] ++ selector' ++ t' ++ value' ->
        keyword_of w' "set" -> keyword_of t' " to " ->
        selector' <> [] -> value' <> [] ->
        length value <= length value'.
Proof.
  intros S A H. unfold String_match in H.
  pose proof (set_field_value_line _ H) as HL.
  apply exec_matcher in H. destruct H as (i & y & H & ->).
  unfold matcher in H.
  cbv [Patterns.set_field_value] in H.
  cbn [RegExp.seq RegExp.source RegExp.ignoreCase] in H.
  change (repeat undefined _) with
    [undefined; undefined; undefined; undefined] in H.
  peel H. peel H. peel H. all: peel H.
  all: tidy.
  all: apply compile_Group_Plus_Dot_inv in H;
       destruct H as (j & Hj & Hlj & H & Hmax).
  all: peel H; peel H; apply compile_last_inv in H; walk_lines H.
  all: repeat match goal with m : MatchState |- _ => destruct m end; tidy.
  all: injection HA as -> ->; injection HB as <- ->; injection HA0 as -> ->.
  all: cbn [tl nth].
  all: eexists; eexists; split; [reflexivity|split; [reflexivity|]].
  all: intros w' sel' t' v' HS Hw Ht Hs Hv.
  all: pose proof (keyword_length Hw) as Lw; simpl in Lw.
  all: pose proof (keyword_length Ht) as Lt; simpl in Lt.
  all: assert (Lv : single_line v')
         by (rewrite HS in HL; apply Forall_app in HL; destruct HL as [_ HL];
             apply Forall_cons_iff in HL; destruct HL as [_ HL];
             apply Forall_app in HL; destruct HL as [_ HL];
             apply Forall_app in HL; destruct HL as [_ HL]; exact HL).
  all: assert (LS : length S = 4 + length sel' + 4 + length v')
         by (rewrite HS; rewrite !length_app; simpl; rewrite !length_app; lia).
  all: rewrite substring_length by lia.
  all: destruct (le_lt_dec (4 + length sel') j) as [Hle|Hlt]; [lia|exfalso].
  all: specialize (Hmax (4 + length sel')).
  all: pose proof (@to_value_accepted (w' ++ [32%N] ++ sel') t' v') as Hacc.
  all: replace ((w' ++ [32%N] ++ sel') ++ t' ++ v') with S in Hacc
         by (rewrite HS, <- app_assoc; reflexivity).
  all: rewrite !length_app in Hacc; simpl in Hacc; rewrite Lw in Hacc.
  all: eapply Hacc; [exact Ht|exact Hv|exact Lv|].
  all: apply Hmax; [lia|apply single_line_substring; exact HL].
Qed.

End SetGreedy.

Section OptFirst.
Import RegExp RegExpSpec.
Context {U : UnicodeData}.
Variable icase : bool.
Variable Input : Str.

(** An optional term is tried first: it is left out only when nothing it
    can match lets the rest of the pattern succeed. *)
Lemma compile_Seq_Opt_inv r r2 x k z :
  compile icase Input (Seq (Opt r) r2) x k = Some z ->
  (exists y, reaches icase Input r (cleared (parens r) x) y /\
             endIndex y <> endIndex x /\
             compile icase Input r2 y k = Some z) \/
  (compile icase Input r2 x k = Some z /\
   forall y, reaches icase Input r (cleared (parens r) x) y ->
             endIndex y <> endIndex x ->
             compile icase Input r2 y k = None).
Proof.
  intros H.
  change (compile icase Input (Seq (Opt r) r2) x k) with
    (match compile icase Input r (cleared (parens r) x)
             (fun y => if Nat.eqb (endIndex y) (endIndex x) then None
                       else compile icase Input r2 y k) with
     | Some z => Some z
     | None => compile icase Input r2 x k
     end) in H.
  destruct (compile icase Input r (cleared (parens r) x) _) as [z'|] eqn:Hc.
  - injection H as ->. left. apply compile_sound in Hc.
    destruct Hc as (y & Hr & Hy). exists y.
    destruct (Nat.eqb_spec (endIndex y) (endIndex x)); [discriminate|]. auto.
  - right. split; [exact H|]. intros y Hr Hne.
    destruct (compile icase Input r2 y k) eqn:Hk; [|reflexivity]. exfalso.
    revert Hc. eapply compile_complete; [exact Hr|].
    apply Nat.eqb_neq in Hne. rewrite Hne, Hk. discriminate.
Qed.

End OptFirst.

Lemma substring_middle (pre s post : Str) :
  substring (pre ++ s ++ post) (length pre) (length pre + length s) = s.
Proof.
  unfold substring. rewrite skipn_app, skipn_all, Nat.sub_diag. simpl.
  replace (length pre + length s - length pre) with (length s) by lia.
  rewrite firstn_app, Nat.sub_diag, firstn_all. simpl. apply app_nil_r.
Qed.

Lemma substring_suffix (pre s : Str) :
  substring (pre ++ s) (length pre) (length (pre ++ s)) = s.
Proof.
  rewrite substring_to_end, skipn_app, skipn_all, Nat.sub_diag. reflexivity.
Qed.

Lemma keyword_single_line {U : UnicodeData} (s : Str) (w : string) :
  forallb plain_ascii (list_ascii_of_string w) = true ->
  forallb (fun a => N.ltb (N_of_ascii a) 128) (list_ascii_of_string w) = true ->
  keyword_of s w -> single_line s.
Proof.
  intros Hp Ha Hk. eapply same_chars_single_line; [exact Hp|].
  apply keyword_same_chars; assumption.
Qed.

Lemma substring_at (S pre s post : Str) (i j : nat) :
  S = pre ++ s ++ post -> i = length pre -> j = i + length s ->
  substring S i j = s.
Proof. intros -> -> ->. apply substring_middle. Qed.

Lemma substring_from (S pre s : Str) (i : nat) :
  S = pre ++ s -> i = length pre -> substring S i (length S) = s.
Proof. intros -> ->. apply substring_suffix. Qed.

Lemma substring_tail (S : Str) (i j : nat) (c : CodeUnit) (l : Str) :
  substring S i j = c :: l -> substring S (Datatypes.S i) j = l.
Proof.
  unfold substring. intros H.
  destruct (j - i) as [|n] eqn:Hn; [discriminate|].
  replace (j - Datatypes.S i) with n by lia.
  replace (Datatypes.S i) with (1 + i) by lia.
  rewrite <- skipn_skipn.
  destruct (skipn i S) as [|c' t]; [discriminate|].
  simpl in H |- *. congruence.
Qed.

Lemma same_chars_tail {U : UnicodeData} (S : Str) (i j : nat) (a : ascii)
    (l : list ascii) :
  Forall2 (same_char true) (substring S i j) (a :: l) ->
  Forall2 (same_char true) (substring S (Datatypes.S i) j) l.
Proof.
  intros H. inversion H as [|c a' s l' Hc Hs E1 E2].
  symmetry in E1. apply substring_tail in E1. rewrite E1. exact Hs.
Qed.

Lemma keyword_after_space (q : Str) (w : string) :
  keyword_of q w -> keyword_of (32%N :: q) (String " " w).
Proof.
  unfold keyword_of. intros H. simpl. f_equal. exact H.
Qed.

Ltac lens :=
  repeat (rewrite length_app || rewrite length_cons); simpl length;
  unfold Str, CodeUnit in *; lia.

Section Qualifier.
Import RegExp RegExpSpec.
Context {U : UnicodeData}.

(** A space and a selector up to the end of the command are accepted
    wherever they stand. *)
Lemma selector_accepted (pre sel : Str) (n : nat) cap :
  sel <> [] -> single_line sel ->
  compile true (pre ++ [32%N] ++ sel)
    (Seq (str " ") (Seq (Group n (Plus Dot)) AssertEnd))
    (mkState (length pre) cap) (fun y => Some y) <> None.
Proof.
  intros Hv Lv.
  eapply compile_complete; [|intros Hx; discriminate Hx].
  cbn [RegExpSpec.reaches].
  eexists. split.
  { apply reaches_keyword_at with (pre := pre) (s := [32%N]) (post := sel);
      [reflexivity|reflexivity|reflexivity|reflexivity]. }
  eexists. split.
  { eexists. split; [|reflexivity].
    apply reaches_Plus_Dot_at with (pre := pre ++ [32%N]) (s := sel)
                                   (post := []);
      [rewrite app_nil_r, <- !app_assoc; reflexivity
      |rewrite length_app; simpl; lia|exact Hv|exact Lv]. }
  split; [|reflexivity].
  simpl. rewrite !length_app. simpl. lia.
Qed.

(** X14.  The optional word [element] of a click command is left out of
    the selector whenever something follows it: if the text after
    [click ] is [element], a space and a non-empty rest, the second
    capture (the selector clicked) is that rest and the first capture is
    [ element] as spelled; if the text has no such form, the first capture
    is undefined and the selector is the whole text. *)
Theorem click_element_qualifier (w rest : Str) :
  keyword_of w "click" -> rest <> [] -> single_line rest ->
  exists (g1 : JsVal) (selector : Str),
    String_match (w ++ [32%N] ++ rest) Patterns.click_element =
      Some [Some (w ++ [32%N] ++ rest); g1; Some selector] /\
    (forall q sel : Str,
        rest = q ++ [32%N] ++ sel -> keyword_of q "element" -> sel <> [] ->
        g1 = Some ([32%N] ++ q) /\ selector = sel) /\
    ((forall q sel : Str,
        rest = q ++ [32%N] ++ sel -> keyword_of q "element" -> sel = []) ->
     g1 = undefined /\ selector = rest).
Proof.
  intros Hw Hrest Lrest.
  pose proof (keyword_length Hw) as Lw. simpl in Lw.
  assert (Ht : RegExp.test Patterns.click_element (w ++ [32%N] ++ rest)
               = true)
    by (apply click_element_accepts; assumption).
  remember (w ++ [32%N] ++ rest) as S eqn:HS0.
  assert (HS : id (S = w ++ [32%N] ++ rest)) by exact HS0. clear HS0.
  assert (LS : length S = length rest + 6)
    by (rewrite HS, length_app; simpl; lia).
  destruct (test_true _ _ Ht) as [A HA].
  unfold String_match. rewrite HA.
  apply exec_matcher in HA. destruct HA as (i & y & H & ->).
  unfold matcher in H.
  cbv [Patterns.click_element] in H.
  cbn [RegExp.seq RegExp.source RegExp.ignoreCase] in H.
  change (repeat undefined _) with [undefined; undefined; undefined] in H.
  peel H. peel H. tidy.
  apply compile_Seq_Opt_inv in H.
  destruct H as [(y1 & Hr & Hne & H)|[H Hnone]].
  - walk_lines Hr. peel H. apply compile_last_inv in H. walk_lines H.
    settle. rewrite substring_whole.
    exists (Some (substring S 5 13)), (substring S 14 (length S)).
    split; [reflexivity|]. split.
    + intros q sel Hq Kq Hsel.
      pose proof (keyword_length Kq) as Lq. simpl in Lq.
      split; [f_equal|].
      * apply substring_at with (pre := w) (post := [32%N] ++ sel);
          [rewrite HS, Hq; reflexivity|lia|simpl; lia].
      * apply substring_from with (pre := w ++ [32%N] ++ q ++ [32%N]);
          [rewrite HS, Hq, <- !app_assoc; reflexivity
          |lens].
    + intros Hno. exfalso.
      apply (@substring_nonempty S 14 (length S)); [lia|lia|].
      apply (Hno (substring S 6 13)).
      * assert (Hsp : substring S 13 14 = [32%N])
          by (change 14 with (13 + 1); space_at S 13).
        assert (Hr : substring S 6 (length S) = rest).
        { apply substring_from with (pre := w ++ [32%N]);
            [rewrite HS, <- app_assoc; reflexivity|lens]. }
        rewrite <- Hr.
        rewrite (@substring_join S 6 13 (length S)) by lia.
        rewrite (@substring_join S 13 14 (length S)) by lia.
        rewrite Hsp. reflexivity.
      * apply same_chars_tail in Hlit0. keyword.
  - peel H. apply compile_last_inv in H. walk_lines H. settle.
    rewrite substring_whole.
    exists undefined, (substring S 6 (length S)).
    split; [reflexivity|].
    assert (Hsel : substring S 6 (length S) = rest).
    { apply substring_from with (pre := w ++ [32%N]);
        [rewrite HS, <- app_assoc; reflexivity
        |lens]. }
    split; [|intros _; split; [reflexivity|exact Hsel]].
    intros q sel Hq Kq Hsel'. exfalso.
    pose proof (keyword_length Kq) as Lq. simpl in Lq.
    assert (Lsel : single_line sel).
    { rewrite Hq in Lrest. apply Forall_app in Lrest.
      destruct Lrest as [_ Lrest].
      apply Forall_cons_iff in Lrest. tauto. }
    pose proof (@selector_accepted (w ++ [32%N] ++ q) sel 2
                  [undefined; Some ([32%N] ++ q); undefined] Hsel' Lsel)
      as Hacc.
    apply Hacc. clear Hacc.
    replace ((w ++ [32%N] ++ q) ++ [32%N] ++ sel) with S
      by (rewrite HS, Hq, <- !app_assoc; reflexivity).
    replace (length (w ++ [32%N] ++ q)) with 13
      by lens.
    assert (Hg : substring S 5 13 = [32%N] ++ q).
    { apply substring_at with (pre := w) (post := [32%N] ++ sel);
        [rewrite HS, Hq; reflexivity|lia|simpl; lia]. }
    rewrite <- Hg.
    apply (Hnone (mkState 13 [undefined; Some (substring S 5 13); undefined])).
    + cbn [RegExpSpec.reaches]. eexists. split.
      * apply reaches_keyword_at with (w := " element"%string) (pre := w)
                                      (s := [32%N] ++ q)
                                      (post := [32%N] ++ sel);
          [reflexivity|rewrite HS, Hq; reflexivity|simpl; lia
          |apply keyword_after_space; exact Kq].
      * reflexivity.
    + simpl. lia.
Qed.

End Qualifier.

Section OptCases.
Import RegExp RegExpSpec.
Context {U : UnicodeData}.
Variable icase : bool.
Variable Input : Str.

Lemma compile_Seq_Opt_cases r r2 x k z :
  compile icase Input (Seq (Opt r) r2) x k = Some z ->
  let d := fun y => if Nat.eqb (endIndex y) (endIndex x) then None
                    else compile icase Input r2 y k in
  compile icase Input r (cleared (parens r) x) d = Some z \/
  (compile icase Input r (cleared (parens r) x) d = None /\
   compile icase Input r2 x k = Some z).
Proof.
  intros H d.
  change (compile icase Input (Seq (Opt r) r2) x k) with
    (match compile icase Input r (cleared (parens r) x) d with
     | Some z => Some z
     | None => compile icase Input r2 x k
     end) in H.
  destruct (compile icase Input r (cleared (parens r) x) d) as [z'|];
    [left|right; split]; auto.
Qed.

Lemma compile_Group_eq n r x k :
  compile icase Input (Group n r) x k =
  compile icase Input r x
    (fun y => k (mkState (endIndex y)
                   (set_nth n (Some (substring Input (endIndex x) (endIndex y)))
                            (captures y)))).
Proof. reflexivity. Qed.

End OptCases.

Section KeywordFacts.
Import RegExp.

Lemma keyword_app_inv (t : Str) (w1 w2 : string) :
  keyword_of t (w1 ++ w2) ->
  exists t1 t2, t = t1 ++ t2 /\ keyword_of t1 w1 /\ keyword_of t2 w2.
Proof.
  unfold keyword_of, lit. intros H.
  exists (firstn (String.length w1) t), (skipn (String.length w1) t).
  split; [symmetry; apply firstn_skipn|].
  assert (E : list_ascii_of_string (w1 ++ w2) =
              list_ascii_of_string w1 ++ list_ascii_of_string w2)
    by (clear; induction w1; simpl; congruence).
  assert (L : length (map asciiUpper (map N_of_ascii (list_ascii_of_string w1)))
              = String.length w1)
    by (rewrite !length_map; clear; induction w1; simpl; auto).
  rewrite E, !map_app in H.
  split.
  - rewrite <- firstn_map, H, firstn_app. unfold Str, CodeUnit in *.
    rewrite L, Nat.sub_diag. simpl.
    rewrite app_nil_r. apply firstn_all2. rewrite L. lia.
  - rewrite <- skipn_map, H, skipn_app. unfold Str, CodeUnit in *.
    rewrite L, Nat.sub_diag. simpl.
    rewrite skipn_all2 by (rewrite L; lia). reflexivity.
Qed.

Lemma keyword_nth (s : Str) (w : string) (i : nat) :
  keyword_of s w ->
  asciiUpper (nth i s 0%N) = nth i (map asciiUpper (lit w)) (asciiUpper 0%N).
Proof.
  unfold keyword_of. intros H. rewrite <- H. rewrite map_nth. reflexivity.
Qed.

Lemma nth_substring (S : Str) (i j k : nat) :
  i + k < j -> nth k (substring S i j) 0%N = nth (i + k) S 0%N.
Proof.
  intros H. unfold substring.
  rewrite nth_firstn.
  replace (k <? j - i) with true by (symmetry; apply Nat.ltb_lt; lia).
  apply nth_skipn.
Qed.

Lemma nth_after (S pre s post : Str) (i : nat) :
  S = pre ++ s ++ post -> i = length pre -> s <> [] ->
  nth 0 s 0%N = nth i S 0%N.
Proof.
  intros -> -> Hs. rewrite app_nth2, Nat.sub_diag by lia.
  destruct s; [contradiction|reflexivity].
Qed.

End KeywordFacts.

Section Negation.
Import RegExp.
Import RegExpSpec.
Context {U : UnicodeData}.

(** A space and the expected value up to the end of the command are
    accepted wherever they stand. *)
Lemma value_accepted_at (S pre v : Str) (e n : nat) cap :
  S = pre ++ [32%N] ++ v -> e = length pre ->
  v <> [] -> single_line v ->
  compile true S (Seq (str " ") (Seq (Group n (Plus Dot)) AssertEnd))
    (mkState e cap) (fun y => Some y) <> None.
Proof.
  intros -> -> Hv Lv. apply selector_accepted; assumption.
Qed.

(** What follows the subject of a wait command: [not ] is captured
    exactly when the command goes on with [ to not be ] and a value. *)
Lemma after_subject (S : Str) (e : nat) (s1 : JsVal) (y : MatchState) :
  single_line S -> e <= length S ->
  compile true S
    (Seq (Opt (Group 2 (Seq (str " to ")
                          (Seq (Opt (Group 3 (str "not "))) (str "be")))))
         (Seq (str " ") (Seq (Group 4 (Plus Dot)) AssertEnd)))
    (mkState e [undefined; s1; undefined; undefined; undefined])
    (fun y => Some y) = Some y ->
  (nth 3 (captures y) undefined <> undefined <->
   exists t v : Str,
     substring S e (length S) = t ++ [32%N] ++ v /\
     keyword_of t " to not be" /\ v <> []).
Proof.
  intros HL He H.
  apply compile_Seq_Opt_cases in H; cbv zeta in H.
  destruct H as [H|[Hnone H]].
  - rewrite compile_Group_eq in H. peel H.
    apply compile_Seq_Opt_inv in H.
    destruct H as [(y1 & Hr & Hne & H)|[H Hnone]].
    + walk_lines Hr. apply compile_sound in H.
      destruct H as (y2 & Hr2 & H). walk_lines Hr2.
      tidy; rewrite ?parens_str in *; tidy.
      replace (e + 4 + 4 + 2 =? e) with false in H
        by (symmetry; apply Nat.eqb_neq; lia).
      peel H. apply compile_last_inv in H. walk_lines H. settle.
      split; [intros _|intros _; simpl; discriminate].
      exists (substring S e (e + 4 + 4 + 2)),
             (substring S (e + 4 + 4 + 2 + 1) (length S)).
      split; [|split; [|apply substring_nonempty; lia]].
      * rewrite (@substring_join S e (e + 4 + 4 + 2) (length S)) by lia.
        rewrite (@substring_join S (e + 4 + 4 + 2) (e + 4 + 4 + 2 + 1)
                   (length S)) by lia.
        assert (Hsp : substring S (e + 4 + 4 + 2) (e + 4 + 4 + 2 + 1)
                      = [32%N]) by (space_at S (e + 4 + 4 + 2)).
        rewrite Hsp. reflexivity.
      * rewrite (@substring_join S e (e + 4) (e + 4 + 4 + 2)) by lia.
        rewrite (@substring_join S (e + 4) (e + 4 + 4) (e + 4 + 4 + 2)) by lia.
        apply (@same_chars_keyword _ _ " to not be" eq_refl).
        apply (Forall2_app Hlit (Forall2_app Hlit0 Hlit1)).
    + apply compile_sound in H.
      destruct H as (y2 & Hr2 & H). walk_lines Hr2.
      tidy; rewrite ?parens_str in *; tidy.
      replace (e + 4 + 2 =? e) with false in H
        by (symmetry; apply Nat.eqb_neq; lia).
      peel H. apply compile_last_inv in H. walk_lines H. settle.
      split; [intros Hx; exfalso; apply Hx; reflexivity|].
      intros (t & v & Hs & Kt & Hv). exfalso.
      pose proof (keyword_length Kt) as Lt. simpl in Lt.
      assert (Kb : keyword_of (substring S (e + 4) (e + 4 + 2)) "be")
        by keyword.
      pose proof (keyword_nth 0 Kb) as Hb.
      rewrite nth_substring, Nat.add_0_r in Hb by lia.
      pose proof (keyword_nth 4 Kt) as Hn.
      replace (nth 4 t 0%N) with (nth (e + 4) S 0%N) in Hn.
      * rewrite Hb in Hn. discriminate Hn.
      * rewrite <- (@nth_substring S e (length S) 4) by lia.
        rewrite Hs. apply app_nth1. lia.
  - split.
    + intros Hx. exfalso. apply Hx. clear Hx Hnone.
      peel H. apply compile_last_inv in H. walk_lines H. settle. reflexivity.
    + intros (t & v & Hs & Kt & Hv). exfalso. clear H.
      change (keyword_of t (" to " ++ ("not " ++ "be"))) in Kt.
      apply keyword_app_inv in Kt. destruct Kt as (t1 & t' & -> & K1 & Kt).
      apply keyword_app_inv in Kt. destruct Kt as (t2 & t3 & -> & K2 & K3).
      pose proof (keyword_length K1) as L1. simpl in L1.
      pose proof (keyword_length K2) as L2. simpl in L2.
      pose proof (keyword_length K3) as L3. simpl in L3.
      assert (HS : S = firstn e S ++ t1 ++ t2 ++ t3 ++ [32%N] ++ v).
      { rewrite <- (firstn_skipn e S) at 1. f_equal.
        rewrite <- substring_to_end, Hs, <- !app_assoc. reflexivity. }
      assert (Le : length (firstn e S) = e) by (rewrite length_firstn; lia).
      assert (Lv : single_line v).
      { rewrite HS in HL.
        repeat (apply Forall_app in HL; destruct HL as [_ HL]). exact HL. }
      revert Hnone.
      eapply compile_complete.
      * cbn [reaches]. eexists. split; [|reflexivity].
        eexists. split.
        { apply reaches_keyword_at with (pre := firstn e S) (s := t1)
                                        (post := t2 ++ t3 ++ [32%N] ++ v);
            [reflexivity|exact HS|symmetry; exact Le|exact K1]. }
        eexists. split.
        { right. split.
          - eexists. split; [|reflexivity].
            apply reaches_keyword_at with (pre := firstn e S ++ t1) (s := t2)
                                          (post := t3 ++ [32%N] ++ v);
              [reflexivity|rewrite HS at 1; rewrite <- !app_assoc; reflexivity
              |simpl; lens|exact K2].
          - simpl. lia. }
        apply reaches_keyword_at with (pre := firstn e S ++ t1 ++ t2) (s := t3)
                                      (post := [32%N] ++ v);
          [reflexivity|rewrite HS at 1; rewrite <- !app_assoc; reflexivity
          |simpl; lens|exact K3].
      * cbv beta. cbn [endIndex captures String.length].
        replace (e + 4 + 4 + 2 =? e) with false
          by (symmetry; apply Nat.eqb_neq; lia).
        apply value_accepted_at with (pre := firstn e S ++ t1 ++ t2 ++ t3)
                                     (v := v);
          [rewrite HS at 1; rewrite <- !app_assoc; reflexivity
          |lens|exact Hv|exact Lv].
Qed.

End Negation.

Section Alignment.
Import RegExp.

Lemma same_chars_bound {U : UnicodeData} (S : Str) (i j : nat)
    (a : ascii) (l : list ascii) :
  Forall2 (same_char true) (substring S i j) (a :: l) ->
  i + Datatypes.S (length l) <= length S.
Proof.
  intros H. apply Forall2_length in H. unfold substring in H.
  rewrite length_firstn, length_skipn in H. simpl in H. lia.
Qed.

Lemma nth_tl (l : list JsVal) (n : nat) :
  nth n (tl l) undefined = nth (Datatypes.S n) l undefined.
Proof. destruct l; [destruct n|]; reflexivity. Qed.

End Alignment.

(** Two of the subject words that start at the same index have the same
    length: they are told apart by their first letter. *)
Ltac aligned S HS Lw Ks Km :=
  let Ls := fresh "Ls" in
  let X1 := fresh "X" in
  let X2 := fresh "X" in
  pose proof (keyword_length Ks) as Ls; simpl in Ls;
  first
    [ unfold Str, CodeUnit in *; lia
    | exfalso;
      pose proof (keyword_nth 0 Ks) as X1;
      pose proof (keyword_nth 0 Km) as X2;
      rewrite nth_substring, Nat.add_0_r in X2 by lia;
      rewrite (@nth_after S _ _ _ 9 HS (eq_sym Lw)) in X1
        by (intros ->; discriminate Ls);
      rewrite X1 in X2; discriminate X2 ].

Section NegationIff.
Import RegExp RegExpSpec.
Context {U : UnicodeData}.

(** X15.  For a command matched by the wait-for-url pattern the third
    capture, on which the handler's [negated] depends, is defined exactly
    when the text after the subject word is [ to not be] in any letter
    case, a space and a non-empty value. *)
Theorem wait_for_url_negated_iff :
  forall (S : Str) (A : list JsVal),
    String_match S Patterns.wait_for_url = Some A ->
    (nth 3 A undefined <> undefined <->
     exists w subject t expectedValue : Str,
       S = w ++ subject ++ t ++ [32%N] ++ expectedValue /\
       keyword_of w "wait for " /\
       (keyword_of subject "fragment" \/ keyword_of subject "hash" \/
        keyword_of subject "path" \/ keyword_of subject "url") /\
       keyword_of t " to not be" /\
       expectedValue <> []).
Proof.
  intros S A H. unfold String_match in H.
  pose proof (wait_for_url_line _ H) as HL.
  apply exec_matcher in H. destruct H as (i & y & H & ->).
  unfold matcher in H.
  cbv [Patterns.wait_for_url] in H.
  cbn [RegExp.seq RegExp.source RegExp.ignoreCase] in H.
  change (repeat undefined _) with
    [undefined; undefined; undefined; undefined; undefined] in H.
  peel H. peel H. peel H.
  all: tidy.
  all: match goal with
       | Hs : Forall2 (same_char true) (substring _ 9 _) _ |- _ =>
           pose proof (@same_chars_bound _ _ _ _ _ _ Hs) as He;
           simpl in He
       end.
  all: match goal with
       | Hs : Forall2 _ (substring ?s 9 17) _ |- _ =>
           assert (Km : keyword_of (substring s 9 17) "fragment") by keyword
       | Hs : Forall2 _ (substring ?s 9 13) ("h"%char :: _) |- _ =>
           assert (Km : keyword_of (substring s 9 13) "hash") by keyword
       | Hs : Forall2 _ (substring ?s 9 13) ("p"%char :: _) |- _ =>
           assert (Km : keyword_of (substring s 9 13) "path") by keyword
       | Hs : Forall2 _ (substring ?s 9 12) _ |- _ =>
           assert (Km : keyword_of (substring s 9 12) "url") by keyword
       end.
  all: apply after_subject in H; [|exact HL|lia].
  all: rewrite nth_tl, H; clear H.
  all: split;
       [ intros (t & v & Hs & Kt & Hv);
         match type of Km with
         | keyword_of (substring ?s 9 ?e) _ =>
             exists (substring s 0 9), (substring s 9 e), t, v;
             split;
             [ cbn [app] in Hs |- *; rewrite <- Hs;
               rewrite <- (@substring_join s 9 e (length s)) by lia;
               rewrite <- (@substring_join s 0 9 (length s)) by lia;
               symmetry; apply substring_whole
             | split; [keyword|split; [tauto|split; assumption]] ]
         end
       | intros (w & subject & t & v & HS & Kw & Ks & Kt & Hv);
         pose proof (keyword_length Kw) as Lw; simpl in Lw;
         exists t, v; split; [|split; assumption];
         apply substring_from with (pre := w ++ subject);
         [ rewrite HS at 1; rewrite <- app_assoc; reflexivity
         | rewrite length_app;
           destruct Ks as [Ks|[Ks|[Ks|Ks]]];
           match type of HS with
           | ?s = _ => aligned s HS Lw Ks Km
           end ] ].
Qed.

End NegationIff.

(* ================================================================== *)
(** * Instances of the further properties *)
(* ================================================================== *)

Section MoreInstances.
#[local] Existing Instance ascii_table.

Local Abbreviation registry := (@actions (Trace unit) unit unit).

Lemma multiline_command_unresolved_witness :
  existsb RegExp.isLineTerminator (lit "click .foo" ++ [10%N] ++ lit ".bar")
    = true /\
  isValidAction registry (lit "click .foo" ++ [10%N] ++ lit ".bar") = false /\
  runAction registry tt (recordingPage fulfilled) recordingOptions
            (lit "click .foo" ++ [10%N] ++ lit ".bar") [] =
    (Rejected
       (Error_ (lit "Failed action: " ++ dquote
                  ++ (lit "click .foo" ++ [10%N] ++ lit ".bar") ++ dquote
                  ++ lit " cannot be resolved")), []).
Proof.
  assert (H : existsb RegExp.isLineTerminator
                (lit "click .foo" ++ [10%N] ++ lit ".bar") = true)
    by (vm_compute; reflexivity).
  split; [exact H|].
  exact (@multiline_command_unresolved _ (Trace unit) unit unit tt
           (recordingPage fulfilled) recordingOptions _ [] H).
Defined.

Lemma runAction_click_element_witness :
  RegExp.test Patterns.click_element (lit "click element .foo") = true /\
  exists selector : Str,
    selector <> [] /\
    runAction registry tt (recordingPage fulfilled) recordingOptions
              (lit "click element .foo") [] =
      (Resolved tt,
       [CallDebug (running_message (lit "click element .foo"));
        CallClick (Some selector); CallDebug complete_message]).
Proof.
  assert (H : RegExp.test Patterns.click_element (lit "click element .foo")
              = true) by (vm_compute; reflexivity).
  split; [exact H|].
  destruct (@runAction_click_element _ (Trace unit) unit unit _ H)
    as (selector & Hne & _ & _ & Hrun).
  exists selector. split; [exact Hne|].
  exact (Hrun tt (recordingPage fulfilled) recordingOptions []).
Defined.

Lemma runAction_set_field_value_witness :
  RegExp.test Patterns.set_field_value (lit "set field .user to alice")
    = true /\
  runAction registry tt (recordingPage fulfilled) recordingOptions
            (lit "set field .user to alice") [] =
    (Resolved tt,
     [CallDebug (running_message (lit "set field .user to alice"));
      CallFocus (Some (lit ".user")); CallType (Some (lit "alice"));
      CallDebug complete_message]).
Proof.
  assert (H : RegExp.test Patterns.set_field_value
                (lit "set field .user to alice") = true)
    by (vm_compute; reflexivity).
  split; [exact H|].
  destruct (@runAction_set_field_value _ (Trace unit) unit unit _ H)
    as (g1 & selector & value & Hm & _ & _ & _ & _ & _ & Hrun).
  assert (Hc : String_match (lit "set field .user to alice")
                            Patterns.set_field_value =
               Some [Some (lit "set field .user to alice");
                     Some (lit " field"); Some (lit ".user");
                     Some (lit "alice")])
    by (vm_compute; reflexivity).
  pose proof (eq_trans (eq_sym Hc) Hm) as Hx.
  injection Hx as _ <- <-.
  exact (Hrun tt (recordingPage fulfilled) recordingOptions []).
Defined.

Lemma runAction_check_field_witness :
  RegExp.test Patterns.check_field (lit "uncheck field .agree") = true /\
  runAction registry tt (recordingPage fulfilled) recordingOptions
            (lit "uncheck field .agree") [] =
    (Resolved tt,
     [CallDebug (running_message (lit "uncheck field .agree"));
      CallEvaluate check_field_in_page (Some (lit ".agree")) false;
      CallDebug complete_message]).
Proof.
  assert (H : RegExp.test Patterns.check_field (lit "uncheck field .agree")
              = true) by (vm_compute; reflexivity).
  split; [exact H|].
  destruct (@runAction_check_field _ (Trace unit) unit unit _ H)
    as (word & g2 & selector & checked & Hm & _ & _ & Hc & _ & _ & _ & Hrun).
  assert (Hx : String_match (lit "uncheck field .agree") Patterns.check_field =
               Some [Some (lit "uncheck field .agree"); Some (lit "uncheck");
                     Some (lit " field"); Some (lit ".agree")])
    by (vm_compute; reflexivity).
  pose proof (eq_trans (eq_sym Hx) Hm) as Hy.
  injection Hy as Hw _ <-.
  assert (Hf : checked = false) by (apply Hc; symmetry; exact Hw).
  subst checked.
  exact (Hrun tt (recordingPage fulfilled) recordingOptions []).
Defined.

Lemma set_field_value_splits_at_last_to_witness :
  String_match (lit "set .a to b to c") Patterns.set_field_value =
    Some [Some (lit "set .a to b to c"); undefined; Some (lit ".a to b");
          Some (lit "c")] /\
  forall w' selector' t' value' : Str,
    lit "set .a to b to c" = w' ++ [32%N] ++ selector' ++ t' ++ value' ->
    keyword_of w' "set" -> keyword_of t' " to " ->
    selector' <> [] -> value' <> [] ->
    length (lit "c") <= length value'.
Proof.
  assert (H : String_match (lit "set .a to b to c") Patterns.set_field_value =
              Some [Some (lit "set .a to b to c"); undefined;
                    Some (lit ".a to b"); Some (lit "c")])
    by (vm_compute; reflexivity).
  split; [exact H|].
  destruct (@set_field_value_splits_at_last_to _ _ _ H)
    as (selector & value & _ & Hv & Hmin).
  injection Hv as <-. exact Hmin.
Defined.

Lemma click_element_qualifier_witness :
  String_match (lit "CLICK Element .foo") Patterns.click_element =
    Some [Some (lit "CLICK Element .foo"); Some (lit " Element");
          Some (lit ".foo")].
Proof.
  assert (Hw : keyword_of (lit "CLICK") "click") by (vm_compute; reflexivity).
  assert (Hne : lit "Element .foo" <> []) by (vm_compute; discriminate).
  assert (Hl : single_line (lit "Element .foo"))
    by (vm_compute; repeat constructor).
  destruct (@click_element_qualifier _ _ _ Hw Hne Hl)
    as (g1 & selector & Hm & Hq & _).
  assert (Kq : keyword_of (lit "Element") "element")
    by (vm_compute; reflexivity).
  assert (Hs : lit ".foo" <> []) by (vm_compute; discriminate).
  destruct (Hq (lit "Element") (lit ".foo") eq_refl Kq Hs) as [-> ->].
  exact Hm.
Defined.

Lemma wait_for_url_negated_iff_witness :
  String_match (lit "wait for path to not be /login") Patterns.wait_for_url =
    Some [Some (lit "wait for path to not be /login"); Some (lit "path");
          Some (lit " to not be"); Some (lit "not "); Some (lit "/login")] /\
  exists w subject t expectedValue : Str,
    lit "wait for path to not be /login" =
      w ++ subject ++ t ++ [32%N] ++ expectedValue /\
    keyword_of w "wait for " /\
    (keyword_of subject "fragment" \/ keyword_of subject "hash" \/
     keyword_of subject "path" \/ keyword_of subject "url") /\
    keyword_of t " to not be" /\
    expectedValue <> [].
Proof.
  assert (H : String_match (lit "wait for path to not be /login")
                           Patterns.wait_for_url =
              Some [Some (lit "wait for path to not be /login");
                    Some (lit "path"); Some (lit " to not be");
                    Some (lit "not "); Some (lit "/login")])
    by (vm_compute; reflexivity).
  split; [exact H|].
  apply (proj1 (@wait_for_url_negated_iff _ _ _ H)).
  simpl. discriminate.
Defined.

End MoreInstances.
